(** * The authentication and authorization coordinator (AuthService)

    A shallow embedding of [volttron/platform/auth/auth.py]: the policy
    matcher entry point ([authenticate]), the pending admission queue
    ([_update_auth_pending], [approve_authorization_failure],
    [delete_authorization_failure]), the reload pipeline
    ([read_auth_file]), the RPC-authorization reconciliation
    ([update_rpc_authorizations]) and the mutation API
    ([add_rpc_authorizations], [delete_rpc_authorizations]).

    Python objects are modelled as follows: [str] is [string], [int] is
    [Z], a [list] is a [list], a [dict] keyed by method name is a
    [gmap string _] (the order in which it iterates, its insertion order,
    is read from the environment where the code shows it), the service
    object [self] is the record [AuthService.t] passed in and returned,
    and a function that can raise returns an [outcome]. *)

From stdpp Require Import gmap strings list fin_maps.
From Stdlib Require Import ZArith Ascii.

(** ** What the platform provides to this module *)

(** The names this module imports from the rest of the platform and from
    the operating system, and what the interpreter settles for [int]; each
    is a parameter of the development. *)
Class Platform := {
  (** [known_identities.PROCESS_IDENTITIES] *)
  PROCESS_IDENTITIES : list string;
  (** [known_identities.CONTROL_CONNECTION] *)
  CONTROL_CONNECTION : string;
  (** [auth_utils.dump_user], applied to the list of its arguments *)
  dump_user : list string → string;
  (** [re.fullmatch(pattern, s) is not None] *)
  re_fullmatch : string → string → bool;
  (** [os.getuid()] *)
  os_getuid : Z;
  (** [aip.agent_uuid_from_pid(pid)] *)
  agent_uuid_from_pid : Z → option string;
  (** [Certs.approve_csr(user_id)]: the text of the [ValueError], if raised *)
  approve_csr : string → option string;
  (** [Certs.delete_csr(user_id)]: the text of the [ValueError], if raised *)
  delete_csr : string → option string;
  (** [sys.get_int_max_str_digits()]: the longest digit string that [int]
      converts, 4300 unless configured; 0 for no limit *)
  int_max_str_digits : nat;
  (** [int(s)] for a [str] that has a character outside ASCII, which goes
      by the Unicode tables of the interpreter ([None] for [ValueError]) *)
  int_non_ascii : string → option Z;
}.

(** ** Python builtins *)

Module Py.

(** The exceptions that the modelled code can let escape. *)
Inductive exn := ValueError | IndexError.

Inductive outcome (A : Type) :=
| Returned (a : A)
| Raised (e : exn).
Arguments Returned {A} a.
Arguments Raised {A} e.

(** Truth value of a [str]. *)
Definition truthy (s : string) : bool :=
  match s with EmptyString => false | String _ _ => true end.

Definition newline : string := String (ascii_of_nat 10) EmptyString.

(** [str.startswith]. *)
Definition startswith (s pre : string) : bool := String.prefix pre s.

(** [str.split(sep)] for a one-character separator. *)
Fixpoint split (sep : ascii) (s : string) : list string :=
  match s with
  | EmptyString => [EmptyString]
  | String c r =>
      if Ascii.eqb c sep then EmptyString :: split sep r
      else match split sep r with
           | h :: t => String c h :: t
           | [] => [String c EmptyString]
           end
  end.

(** White space as [int] skips it ([Py_ISSPACE]): tab, line feed,
    vertical tab, form feed, carriage return and space. *)
Definition is_space (c : ascii) : bool :=
  let n := nat_of_ascii c in
  ((9 <=? n) && (n <=? 13) || (n =? 32))%nat.

Fixpoint lstrip (s : string) : string :=
  match s with
  | String c r => if is_space c then lstrip r else s
  | EmptyString => EmptyString
  end.

Fixpoint rstrip (s : string) : string :=
  match s with
  | EmptyString => EmptyString
  | String c r =>
      match rstrip r with
      | EmptyString => if is_space c then EmptyString else String c EmptyString
      | r' => String c r'
      end
  end.

Definition strip (s : string) : string := rstrip (lstrip s).

Definition digit (c : ascii) : option Z :=
  let n := nat_of_ascii c in
  if ((48 <=? n) && (n <=? 57))%nat then Some (Z.of_nat n - 48)%Z else None.

(** Decimal digits, a single underscore allowed between two digits. *)
Fixpoint digits (acc : Z) (after_digit : bool) (s : string) : option Z :=
  match s with
  | EmptyString => if after_digit then Some acc else None
  | String c r =>
      match digit c with
      | Some d => digits (10 * acc + d)%Z true r
      | None =>
          if Ascii.eqb c "_" && after_digit then digits acc false r
          else None
      end
  end.

(** The number of digits of a digit string, its underscores apart. *)
Fixpoint count_digits (s : string) : nat :=
  match s with
  | EmptyString => 0
  | String c r => (if digit c is Some _ then 1 else 0) + count_digits r
  end.

(** The limit on the length of a digit string: it applies past 640
    digits, and 0 stands for no limit. *)
Definition too_long `{!Platform} (n : nat) : bool :=
  ((640 <? n) && (0 <? int_max_str_digits) && (int_max_str_digits <? n))%nat.

Fixpoint is_ascii (s : string) : bool :=
  match s with
  | EmptyString => true
  | String c r => (nat_of_ascii c <? 128)%nat && is_ascii r
  end.

(** [int(s)] on a [str], in base 10: [None] stands for [ValueError]. On
    an ASCII [str]: white space around, an optional sign, then digits. *)
Definition int `{!Platform} (s : string) : option Z :=
  if is_ascii s then
    let signed := strip s in
    let '(sign, body) :=
      match signed with
      | String "+" r => (1%Z, r)
      | String "-" r => ((-1)%Z, r)
      | _ => (1%Z, signed)
      end in
    if too_long (count_digits body) then None
    else Z.mul sign <$> digits 0 false body
  else int_non_ascii s.

(** [list.sort()], which is stable, over a "less than" test. *)
Fixpoint insert_sorted {A} (lt : A → A → bool) (x : A) (l : list A) : list A :=
  match l with
  | [] => [x]
  | y :: r => if lt y x then y :: insert_sorted lt x r else x :: y :: r
  end.

Fixpoint sort {A} (lt : A → A → bool) (l : list A) : list A :=
  match l with
  | [] => []
  | x :: r => insert_sorted lt x (sort lt r)
  end.

End Py.

Export Py(outcome, Returned, Raised, ValueError, IndexError).

(** ** Policy entries *)

(** A stored domain, address or credentials value: unpopulated, a literal
    or a regular expression. *)
Inductive Field :=
| Unset
| Literal (s : string)
| Regex (pattern : string).

#[global] Instance Field_eq_dec : EqDecision Field.
Proof. solve_decision. Defined.

Definition is_regex (f : Field) : bool :=
  match f with Regex _ => true | _ => false end.

Module AuthEntry.

(** Modelled from the spec: class [AuthEntry] (auth_entry.py) is not
    under src/. The fields are those of the spec's PolicyEntry. *)
Record t := mk {
  domain : Field;
  address : Field;
  mechanism : string;
  credentials : Field;
  user_id : string;
  identity : option string;
  capabilities : list string;
  groups : list string;
  roles : list string;
  rpc_method_authorizations : gmap string (list string);
  enabled : bool;
  comments : string;
}.

#[global] Instance eq_dec : EqDecision t.
Proof. solve_decision. Defined.

Definition set_rpc_method_authorizations
    (e : t) (auths : gmap string (list string)) : t :=
  mk (domain e) (address e) (mechanism e) (credentials e) (user_id e)
     (identity e) (capabilities e) (groups e) (roles e) auths
     (enabled e) (comments e).

Section Match.
Context `{!Platform}.

(** Modelled from the spec: one stored field against one input, "exact
    string equality or regex fullmatch depending on whether the stored
    value is flagged as a pattern". An unpopulated field constrains
    nothing (in the spec's scenarios entries without a domain match
    the domain of the attempt). *)
Definition field_match (f : Field) (x : string) : bool :=
  match f with
  | Unset => true
  | Literal s => String.eqb s x
  | Regex p => re_fullmatch p x
  end.

(** Modelled from the spec: [AuthEntry.match] is not under src/. "The
    four fields each match the corresponding input; mechanism matches
    by exact equality". The credentials of an attempt are a list, of
    which the first element is the credential. *)
Definition match_ (e : t) (domain' address' mechanism' : string)
    (credentials' : list string) : bool :=
  field_match (domain e) domain'
  && field_match (address e) address'
  && String.eqb (mechanism e) mechanism'
  && match credentials e, credentials' with
     | Unset, _ => true
     | f, c :: _ => field_match f c
     | _, [] => false
     end.
End Match.

(** Modelled from the spec: the order of [AuthEntry] ([__lt__]) is not
    under src/. "Entries are totally ordered such that entries with
    literal (non-pattern) credentials sort before entries whose
    credentials are regex patterns". *)
Definition lt (a b : t) : bool :=
  negb (is_regex (credentials a)) && is_regex (credentials b).

End AuthEntry.

(** ** The persistent policy store *)

Module AuthFile.

(** Modelled from the spec: class [AuthFile] (auth_file.py) is not under
    src/. The store holds the allow list and the deny list; [load]
    refreshes it from persistent storage, which the model identifies
    with the store itself. *)
Record t := mk {
  allow : list AuthEntry.t;
  deny : list AuthEntry.t;
}.

Definition read_allow_entries (f : t) : list AuthEntry.t := allow f.
Definition read_deny_entries (f : t) : list AuthEntry.t := deny f.
Definition load (f : t) : t := f.

(** Truth value of [auth_file.auth_data]. *)
Definition auth_data (f : t) : bool :=
  match allow f, deny f with [], [] => false | _, _ => true end.

Definition entries (is_allow : bool) (f : t) : list AuthEntry.t :=
  if is_allow then allow f else deny f.

Definition set_entries (is_allow : bool) (l : list AuthEntry.t) (f : t) : t :=
  if is_allow then mk l (deny f) else mk (allow f) l.

(** Modelled from the spec: [add(entry, overwrite=False, is_allow)]. An
    entry whose credential key is already in the list is not
    overwritten: the store raises [AuthException] ([None] here).
    Otherwise the entry is appended. *)
Definition add (entry : AuthEntry.t) (is_allow : bool) (f : t) : option t :=
  if bool_decide (Exists (λ e, AuthEntry.credentials e = AuthEntry.credentials entry)
                    (entries is_allow f))
  then None
  else Some (set_entries is_allow (entries is_allow f ++ [entry]) f).

(** Modelled from the spec: [remove_by_credentials(credentials,
    is_allow)], "remove the persisted entry by its credential key". *)
Definition remove_by_credentials (credentials : Field) (is_allow : bool)
    (f : t) : t :=
  set_entries is_allow
    (filter (λ e, AuthEntry.credentials e ≠ credentials) (entries is_allow f)) f.

(** Modelled from the spec: [approve_deny_credential(user_id,
    is_approved)], "flip the persisted entry's allow/deny flag". *)
Definition approve_deny_credential (user_id : string) (is_approved : bool)
    (f : t) : t :=
  let moved := filter (λ e, AuthEntry.user_id e = user_id)
                 (entries (negb is_approved) f) in
  let kept := filter (λ e, AuthEntry.user_id e ≠ user_id)
                (entries (negb is_approved) f) in
  set_entries is_approved (entries is_approved f ++ moved)
    (set_entries (negb is_approved) kept f).

(** Modelled from the spec: [update_by_index(entry, index)] on the allow
    list. *)
Definition update_by_index (entry : AuthEntry.t) (index : nat) (f : t) : t :=
  mk (<[index := entry]> (allow f)) (deny f).

End AuthFile.

(** ** The pending, approved and denied queues *)

Module Cred.

(** One [dict] of [_auth_pending], [_auth_approved] or [_auth_denied]. *)
Record t := mk {
  domain : Field;
  address : Field;
  mechanism : string;
  credentials : Field;
  user_id : string;
  retries : Z;
}.

#[global] Instance eq_dec : EqDecision t.
Proof. solve_decision. Defined.

(** [entry["retries"] += 1] *)
Definition bump (e : t) : t :=
  mk (domain e) (address e) (mechanism e) (credentials e) (user_id e)
     (retries e + 1).

(** The comparison of [_update_auth_pending]: the four fields of the
    stored record against the four [str] of the attempt. *)
Definition same_tuple (domain' address' mechanism' credential' : string)
    (e : t) : Prop :=
  domain e = Literal domain' ∧ address e = Literal address'
  ∧ mechanism e = mechanism' ∧ credentials e = Literal credential'.

#[global] Instance same_tuple_dec d a m c e : Decision (same_tuple d a m c e).
Proof. unfold same_tuple. apply _. Defined.

End Cred.

(** ** The service object *)

Inductive LogRecord := LogError (msg : string).

Module AuthService.

(** The attributes of [self] that the modelled methods read or write,
    with [_log] the error records written so far. *)
Record t := mk {
  allow_any : bool;
  _certs : bool;
  auth_file : AuthFile.t;
  auth_entries : list AuthEntry.t;
  _is_connected : bool;
  _auth_pending : list Cred.t;
  _auth_denied : list Cred.t;
  _auth_approved : list Cred.t;
  _log : list LogRecord;
}.

Definition set_auth_file (f : AuthFile.t) (s : t) : t :=
  mk (allow_any s) (_certs s) f (auth_entries s) (_is_connected s)
     (_auth_pending s) (_auth_denied s) (_auth_approved s) (_log s).
Definition set_auth_entries (l : list AuthEntry.t) (s : t) : t :=
  mk (allow_any s) (_certs s) (auth_file s) l (_is_connected s)
     (_auth_pending s) (_auth_denied s) (_auth_approved s) (_log s).
Definition set_auth_pending (q : list Cred.t) (s : t) : t :=
  mk (allow_any s) (_certs s) (auth_file s) (auth_entries s) (_is_connected s)
     q (_auth_denied s) (_auth_approved s) (_log s).
Definition set_auth_denied (q : list Cred.t) (s : t) : t :=
  mk (allow_any s) (_certs s) (auth_file s) (auth_entries s) (_is_connected s)
     (_auth_pending s) q (_auth_approved s) (_log s).
Definition set_auth_approved (q : list Cred.t) (s : t) : t :=
  mk (allow_any s) (_certs s) (auth_file s) (auth_entries s) (_is_connected s)
     (_auth_pending s) (_auth_denied s) q (_log s).
(** [_log.error(msg)] *)
Definition log_error (msg : string) (s : t) : t :=
  mk (allow_any s) (_certs s) (auth_file s) (auth_entries s) (_is_connected s)
     (_auth_pending s) (_auth_denied s) (_auth_approved s)
     (_log s ++ [LogError msg]).

End AuthService.

Import AuthService.

(** ** [authenticate] *)

Section Authenticate.
Context `{!Platform}.

(** [dump_user(domain, address, mechanism, *credentials[:1])] *)
Definition synthetic_user (domain address mechanism : string)
    (credentials : list string) : string :=
  dump_user ([domain; address; mechanism] ++ take 1 credentials).

(** [entry.user_id or dump_user(...)] *)
Definition resolved_user (entry : AuthEntry.t) (domain address mechanism : string)
    (credentials : list string) : string :=
  if Py.truthy (AuthEntry.user_id entry) then AuthEntry.user_id entry
  else synthetic_user domain address mechanism credentials.

(** The first entry of the snapshot that matches: the [for] loop with
    its [return]. *)
Definition first_match (entries : list AuthEntry.t)
    (domain address mechanism : string) (credentials : list string)
    : option AuthEntry.t :=
  List.find (λ entry, AuthEntry.match_ entry domain address mechanism credentials)
    entries.

(** The statements after the loop. *)
Definition no_match (self : AuthService.t) (domain address mechanism : string)
    (credentials : list string) : outcome (option string) :=
  let allow_any_check :=
    if allow_any self
    then Returned (Some (synthetic_user domain address mechanism credentials))
    else Returned None in
  let uid_check (parts : list string) :=
    match parts !! 0%nat with
    | None => Raised IndexError
    | Some p0 =>
        match Py.int p0 with
        | None => Raised ValueError
        | Some uid =>
            if (uid =? os_getuid)%Z
            then Returned (Some (synthetic_user domain address mechanism credentials))
            else allow_any_check
        end
    end in
  if String.eqb mechanism "NULL" && Py.startswith address "localhost:" then
    let parts := drop 1 (Py.split ":" address) in
    match parts !! 2%nat with
    | Some p2 =>
        match Py.int p2 with
        | None => Raised ValueError
        | Some pid =>
            match agent_uuid_from_pid pid with
            | Some agent_uuid =>
                if Py.truthy agent_uuid
                then Returned (Some (dump_user [domain; address; "AGENT"; agent_uuid]))
                else uid_check parts
            | None => uid_check parts
            end
        end
    | None => uid_check parts
    end
  else allow_any_check.

Definition authenticate (self : AuthService.t) (domain address mechanism : string)
    (credentials : list string) : outcome (option string) :=
  match first_match (auth_entries self) domain address mechanism credentials with
  | Some entry =>
      Returned (Some (resolved_user entry domain address mechanism credentials))
  | None => no_match self domain address mechanism credentials
  end.

End Authenticate.

(** ** The pending admission queue *)

(** The first record of a queue that passes [same], with its retries
    counter incremented; [None] when the loop finds no such record. *)
Fixpoint bump_first (same : Cred.t → Prop) `{!∀ e, Decision (same e)}
    (queue : list Cred.t) : option (list Cred.t) :=
  match queue with
  | [] => None
  | entry :: rest =>
      if decide (same entry) then Some (Cred.bump entry :: rest)
      else cons entry <$> bump_first same rest
  end.

Definition _update_auth_pending (self : AuthService.t)
    (domain address mechanism credential user_id : string) : AuthService.t :=
  match bump_first (Cred.same_tuple domain address mechanism credential)
          (_auth_denied self) with
  | Some denied => set_auth_denied denied self
  | None =>
      match bump_first (Cred.same_tuple domain address mechanism credential)
              (_auth_pending self) with
      | Some pending => set_auth_pending pending self
      | None =>
          set_auth_pending
            (_auth_pending self
             ++ [Cred.mk (Literal domain) (Literal address) mechanism
                   (Literal credential) user_id 1])
            self
      end
  end.

(** Modelled from the spec: the constructor of [AuthEntry] on the fields that
    [_update_auth_entry] passes, "a persisted enabled allow-entry with
    empty capabilities/groups/roles and a marker comment". *)
Definition new_entry (pending : Cred.t) : AuthEntry.t :=
  AuthEntry.mk (Cred.domain pending) (Cred.address pending)
    (Cred.mechanism pending) (Cred.credentials pending) (Cred.user_id pending)
    None [] [] [] ∅ true "Auth entry added in setup mode".

(** The text of the [AuthException] that the store raises is not
    specified; the model logs this one. *)
Definition auth_exception_text : string := "entry already exists".

Definition _update_auth_entry (pending : Cred.t) (is_allow : bool)
    (self : AuthService.t) : AuthService.t :=
  match AuthFile.add (new_entry pending) is_allow (auth_file self) with
  | Some f => set_auth_file f self
  | None => log_error ("ERROR: " +:+ auth_exception_text +:+ Py.newline) self
  end.

Definition _remove_auth_entry (credential : Field) (is_allow : bool)
    (self : AuthService.t) : AuthService.t :=
  set_auth_file (AuthFile.remove_by_credentials credential is_allow (auth_file self))
    self.

(** The [val_err] of the operator actions (the text of the exception it
    holds, if any), threaded with [self]. *)
Definition acting : Type := option string * AuthService.t.

(** The loop over [_auth_pending] that stops at the first record of the
    user id, and the [del] after it; [persist] tells whether the body
    calls [_update_auth_entry]. *)
Definition take_pending (persist : bool) (user_id : string) (st : acting) : acting :=
  let '(val_err, self) := st in
  match list_find (λ pending, user_id = Cred.user_id pending) (_auth_pending self) with
  | Some (matched_index, pending) =>
      let self := if persist then _update_auth_entry pending true self else self in
      (None, set_auth_pending (delete matched_index (_auth_pending self)) self)
  | None => (val_err, self)
  end.

(** A loop over a resolved queue that acts on every record of the user id. *)
Definition for_user (queue : list Cred.t) (user_id : string)
    (body : Cred.t → AuthService.t → AuthService.t) (st : acting) : acting :=
  foldl (λ st pending,
           if decide (user_id = Cred.user_id pending)
           then (None, body pending st.2) else st)
    st queue.

(** [if val_err: _log.error(f"{val_err}")] *)
Definition report (st : acting) : AuthService.t :=
  match st.1 with
  | Some val_err => log_error val_err st.2
  | None => st.2
  end.

Section Operator.
Context `{!Platform}.

Definition approve_authorization_failure (self : AuthService.t) (user_id : string)
    : AuthService.t :=
  let val_err := if _certs self then approve_csr user_id else None in
  let st := take_pending true user_id (val_err, self) in
  let st :=
    for_user (_auth_denied st.2) user_id
      (λ _ self, set_auth_file
                   (AuthFile.approve_deny_credential user_id true (auth_file self))
                   self)
      st in
  report st.

Definition delete_authorization_failure (self : AuthService.t) (user_id : string)
    : AuthService.t :=
  let val_err := if _certs self then delete_csr user_id else None in
  let st := take_pending true user_id (val_err, self) in
  let st := take_pending false user_id st in
  let st :=
    for_user (_auth_approved st.2) user_id
      (λ pending, _remove_auth_entry (Cred.credentials pending) true) st in
  let st :=
    for_user (_auth_denied st.2) user_id
      (λ pending, _remove_auth_entry (Cred.credentials pending) false) st in
  report st.

End Operator.

(** ** The reload pipeline *)

(** The [dict] that [_update_auth_lists] builds for one entry. *)
Definition queue_record (entry : AuthEntry.t) : Cred.t :=
  Cred.mk (AuthEntry.domain entry) (AuthEntry.address entry)
    (AuthEntry.mechanism entry) (AuthEntry.credentials entry)
    (AuthEntry.user_id entry) 0.

(** The list that [_update_auth_lists] installs as [_auth_approved] or
    [_auth_denied]. *)
Definition auth_list (entries : list AuthEntry.t) : list Cred.t :=
  filter (λ entry, Cred.address entry ≠ Unset) (map queue_record entries).

Definition _update_auth_lists (entries : list AuthEntry.t) (is_allow : bool)
    (self : AuthService.t) : AuthService.t :=
  if is_allow then set_auth_approved (auth_list entries) self
  else set_auth_denied (auth_list entries) self.

Section Reload.
Context `{!Platform}.

(** The test that guards the RPC updates: not a core agent. *)
Definition updatable (entry : AuthEntry.t) : Prop :=
  match AuthEntry.identity entry with
  | Some identity => (identity ∉ PROCESS_IDENTITIES) ∧ (identity ≠ CONTROL_CONNECTION)
  | None => False
  end.

#[global] Instance updatable_dec entry : Decision (updatable entry).
Proof. unfold updatable. destruct (AuthEntry.identity entry); apply _. Defined.

Definition _get_updated_entries (old_entries new_entries : list AuthEntry.t)
    : list AuthEntry.t :=
  flat_map
    (λ entry,
       if decide (updatable entry) then
         flat_map
           (λ old_entry,
              if decide (AuthEntry.identity entry = AuthEntry.identity old_entry
                         ∧ AuthEntry.rpc_method_authorizations entry
                           ≠ AuthEntry.rpc_method_authorizations old_entry)
              then [entry] else [])
           old_entries
         ++ (if decide (AuthEntry.identity entry ∈ map AuthEntry.identity old_entries)
             then [] else [entry])
       else [])
    new_entries.

(** The snapshot that [read_auth_file] installs: the enabled entries,
    sorted. *)
Definition snapshot (entries : list AuthEntry.t) : list AuthEntry.t :=
  Py.sort AuthEntry.lt (filter (λ entry, AuthEntry.enabled entry = true) entries).

(** What [read_auth_file] does once the snapshot is installed: nothing
    when the service is not connected, else [_send_update] on the modified
    entries; when the store was empty before the reload the name
    [modified_entries] is unbound and the call raises, which
    [read_auth_file] logs and raises again. *)
Inductive handover :=
| NotConnected
| SendUpdate (modified_entries : list AuthEntry.t)
| Unbound.

(** [read_auth_file], up to the point where the updates are sent. Reading
    the store again (the retry loop) gives the same entries, the store
    being a value here. *)
Definition read_auth_file (self : AuthService.t) : AuthService.t * handover :=
  let known := AuthFile.auth_data (auth_file self) in
  let old_entries := AuthFile.read_allow_entries (auth_file self) in
  let file := AuthFile.load (auth_file self) in
  let entries := AuthFile.read_allow_entries file in
  let denied_entries := AuthFile.read_deny_entries file in
  let self := set_auth_file file self in
  let self := _update_auth_lists entries true self in
  let self := _update_auth_lists denied_entries false self in
  let self := set_auth_entries (snapshot entries) self in
  (self,
   if _is_connected self then
     if known then SendUpdate (_get_updated_entries old_entries entries)
     else Unbound
   else NotConnected).

End Reload.

(** ** The RPC-authorization reconciliation *)

(** The two calls that [update_rpc_authorizations] makes on a peer. *)
Inductive RpcCall :=
| set_multiple_rpc_authorizations
    (peer : string) (rpc_authorizations : gmap string (list string))
| set_rpc_authorizations
    (peer : string) (method_str : string) (capabilities : list string).

#[global] Instance RpcCall_eq_dec : EqDecision RpcCall.
Proof. solve_decision. Defined.

(** Modelled from the spec: the transport is not under src/. The outcomes
    of a call that the code waits for are those of the spec's
    reconciliation protocol, which are the ones the source handles:
    success, [gevent.Timeout] and [RemoteError]. *)
Inductive RpcAnswer := Answered | GeventTimeout | RemoteError.

Class Transport := { rpc_call : RpcCall → RpcAnswer }.

(** What a run of the reconciliation does, in order. *)
Inductive Event :=
| Call (c : RpcCall)
| Logged (r : LogRecord).

#[global] Instance LogRecord_eq_dec : EqDecision LogRecord.
Proof. solve_decision. Defined.

#[global] Instance Event_eq_dec : EqDecision Event.
Proof. solve_decision. Defined.

Definition timed_out (identity : string) : LogRecord :=
  LogError (identity +:+ " has timed out while attempting to update rpc_method_authorizations").

Definition does_not_exist (method : string) : LogRecord :=
  LogError ("Method " +:+ method +:+ " does not exist.").

(** The loop that collects [modified_methods]. *)
Definition collect_modified (auths : gmap string (list string))
    : gmap string (list string) :=
  map_fold
    (λ method capabilities modified_methods,
       if decide (capabilities = []) then modified_methods
       else <[method := capabilities]> modified_methods)
    ∅ auths.

(** A [dict] iterates over its keys in insertion order, which a [gmap]
    does not record: the order in which the methods of an entry iterate is
    read from the environment. It lists every key of the mapping once. *)
Class DictOrder := {
  iteration : AuthEntry.t → list string;
  iteration_keys :
    ∀ entry,
      iteration entry ≡ₚ (map_to_list (AuthEntry.rpc_method_authorizations entry)).*1;
}.

Section Reconcile.
Context `{!Platform} `{!Transport} `{!DictOrder}.

(** The keys of [modified_methods] in the order in which it iterates: the
    loop that collects them inserts the methods of the entry that have
    capabilities, in the order of the [dict] of the entry. *)
Definition modified_order (entry : AuthEntry.t) : list string :=
  filter (λ method, AuthEntry.rpc_method_authorizations entry !!! method ≠ [])
    (iteration entry).

(** One iteration of the loop over [modified_methods]. The call is sent
    and its result is dropped: the code neither waits for it nor gets its
    value, so what the peer answers reaches neither handler of the [try],
    and nothing is logged. *)
Definition push_method (identity : string) (auths : gmap string (list string))
    (method : string) : list Event :=
  [Call (set_rpc_authorizations identity method (auths !!! method))].

(** The body of the loop over the entries. *)
Definition update_entry (entry : AuthEntry.t) : list Event :=
  match AuthEntry.identity entry with
  | Some identity =>
      if decide (updatable entry) then
        let auths := AuthEntry.rpc_method_authorizations entry in
        let modified_methods := collect_modified auths in
        if decide (modified_methods = ∅) then []
        else
          let c := set_multiple_rpc_authorizations identity modified_methods in
          Call c ::
          match rpc_call c with
          | Answered => []
          | GeventTimeout => [Logged (timed_out identity)]
          | RemoteError => flat_map (push_method identity auths) (modified_order entry)
          end
      else []
  | None => []
  end.

Definition update_rpc_authorizations (entries : list AuthEntry.t) : list Event :=
  flat_map update_entry entries.

End Reconcile.

(** ** The mutation API *)

Section Mutation.
Context `{!Platform}.

(** The guard of the mutation calls. *)
Definition privileged (identity : string) : Prop :=
  identity ∈ PROCESS_IDENTITIES ∨ identity = CONTROL_CONNECTION.

#[global] Instance privileged_dec identity : Decision (privileged identity).
Proof. unfold privileged. apply _. Defined.

Definition cannot_be_modified (identity : string) : string :=
  identity +:+ " cannot be modified using this command!".

Definition identity_not_found : string := "Agent identity not found in auth file!".

(** The three branches on [entry.rpc_method_authorizations] of
    [add_rpc_authorizations]. *)
Definition add_authorizations (auths : gmap string (list string))
    (method : string) (authorizations : list string) : gmap string (list string) :=
  match auths !! method with
  | None => <[method := authorizations]> auths
  | Some current =>
      if decide (current = []) then <[method := authorizations]> auths
      else
        <[method :=
            current
            ++ filter (λ rpc_auth, rpc_auth ∈ authorizations ∧ rpc_auth ∉ current)
                 authorizations]> auths
  end.

(** The value handed back to the caller is Python's [None] on every path:
    [None] here; [Some] would be a returned text. *)
Definition add_rpc_authorizations (self : AuthService.t) (identity method : string)
    (authorizations : list string) : option string * AuthService.t :=
  if decide (privileged identity) then
    (None, log_error (cannot_be_modified identity) self)
  else
    match list_find (λ entry, AuthEntry.identity entry = Some identity)
            (AuthFile.read_allow_entries (auth_file self)) with
    | Some (index, entry) =>
        let entry :=
          AuthEntry.set_rpc_method_authorizations entry
            (add_authorizations (AuthEntry.rpc_method_authorizations entry)
               method authorizations) in
        (None, set_auth_file (AuthFile.update_by_index entry index (auth_file self)) self)
    | None => (None, log_error identity_not_found self)
    end.

Definition no_such_method (identity method : string) : string :=
  identity +:+ " does not have a method called " +:+ method.

Definition no_capabilities (identity method : string) : string :=
  identity +:+ "." +:+ method +:+ " does not have any authorized capabilities.".

Definition not_authorized (rpc_auth method : string) : string :=
  rpc_auth +:+ " is not an authorized capability for " +:+ method.

Definition no_matching (method : string) : string :=
  "No matching authorized capabilities provided for " +:+ method.

(** The list stored by [delete_rpc_authorizations] when some requested
    capability is present. *)
Definition remaining (current denied_authorizations : list string) : list string :=
  let kept := filter (λ rpc_auth, rpc_auth ∉ denied_authorizations) current in
  if decide (kept = []) then [""] else kept.

(** The loop that sets [any_match], with what it logs. *)
Definition scan_denied (current denied_authorizations : list string) (method : string)
    (self : AuthService.t) : bool * AuthService.t :=
  foldl (λ '(any_match, self) rpc_auth,
           if decide (rpc_auth ∉ current)
           then (any_match, log_error (not_authorized rpc_auth method) self)
           else (true, self))
    (false, self) denied_authorizations.

Definition delete_rpc_authorizations (self : AuthService.t) (identity method : string)
    (denied_authorizations : list string) : option string * AuthService.t :=
  if decide (privileged identity) then
    (None, log_error (cannot_be_modified identity) self)
  else
    match list_find (λ entry, AuthEntry.identity entry = Some identity)
            (AuthFile.read_allow_entries (auth_file self)) with
    | Some (index, entry) =>
        match AuthEntry.rpc_method_authorizations entry !! method with
        | None => (None, log_error (no_such_method identity method) self)
        | Some current =>
            if decide (current = []) then
              (None, log_error (no_capabilities identity method) self)
            else
              let '(any_match, self) :=
                scan_denied current denied_authorizations method self in
              if any_match then
                let entry :=
                  AuthEntry.set_rpc_method_authorizations entry
                    (<[method := remaining current denied_authorizations]>
                       (AuthEntry.rpc_method_authorizations entry)) in
                (None,
                 set_auth_file
                   (AuthFile.update_by_index entry index (auth_file self)) self)
              else (None, log_error (no_matching method) self)
        end
    | None => (None, log_error identity_not_found self)
    end.

End Mutation.

(** ** The fallback chain of [authenticate], as a chain of conditions *)

Section Fallback.
Context `{!Platform}.

(** The components that a loopback address carries after "localhost". *)
Definition components (address : string) : list string :=
  drop 1 (Py.split ":" address).

(** The locally-known agent to which the process id embedded in a
    loopback address resolves. *)
Definition resolved_agent (address : string) : option string :=
  if Py.startswith address "localhost:" then
    match components address !! 2%nat with
    | Some p2 =>
        match Py.int p2 with
        | Some pid =>
            match agent_uuid_from_pid pid with
            | Some agent_uuid => if Py.truthy agent_uuid then Some agent_uuid else None
            | None => None
            end
        | None => None
        end
    | None => None
    end
  else None.

(** The address encodes the coordinator's own OS user id. *)
Definition own_uid (address : string) : bool :=
  Py.startswith address "localhost:"
  && match components address !! 0%nat with
     | Some p0 =>
         match Py.int p0 with
         | Some uid => (uid =? os_getuid)%Z
         | None => false
         end
     | None => false
     end.

(** The chain in the words of the spec: (a) mechanism "NULL" and an
    embedded process id that resolves, (b) else the address encodes the
    coordinator's own user id, (c) else allow-any, (d) else nothing. *)
Definition stated_fallback (self : AuthService.t) (domain address mechanism : string)
    (credentials : list string) : option string :=
  match (if String.eqb mechanism "NULL" then resolved_agent address else None) with
  | Some agent_uuid => Some (dump_user [domain; address; "AGENT"; agent_uuid])
  | None =>
      if own_uid address
      then Some (synthetic_user domain address mechanism credentials)
      else if allow_any self
           then Some (synthetic_user domain address mechanism credentials)
           else None
  end.

(** The same chain with step (b) under the mechanism test of step (a). *)
Definition guarded_fallback (self : AuthService.t) (domain address mechanism : string)
    (credentials : list string) : option string :=
  match (if String.eqb mechanism "NULL" then resolved_agent address else None) with
  | Some agent_uuid => Some (dump_user [domain; address; "AGENT"; agent_uuid])
  | None =>
      if String.eqb mechanism "NULL" && own_uid address
      then Some (synthetic_user domain address mechanism credentials)
      else if allow_any self
           then Some (synthetic_user domain address mechanism credentials)
           else None
  end.

(** Every component of the address that [authenticate] converts is an
    integer: the third one when there is one, and the first one unless
    an agent is resolved. *)
Definition convertible (address : string) : Prop :=
  (∀ p2, components address !! 2%nat = Some p2 → is_Some (Py.int p2))
  ∧ (resolved_agent address = None →
     ∀ p0, components address !! 0%nat = Some p0 → is_Some (Py.int p0)).

(** The fallback chain at one attempt, as the spec words it. *)
Definition follows_stated_fallback (self : AuthService.t)
    (domain address mechanism : string) (credentials : list string) : Prop :=
  first_match (auth_entries self) domain address mechanism credentials = None →
  authenticate self domain address mechanism credentials
  = Returned (stated_fallback self domain address mechanism credentials).

End Fallback.

(** ** Vocabulary of the statements *)

(** The order that the snapshot is kept in: no entry with literal
    credentials stands after an entry with regex credentials. *)
Definition literal_first (entries : list AuthEntry.t) : Prop :=
  ∀ pre entry post,
    entries = pre ++ entry :: post →
    is_regex (AuthEntry.credentials entry) = true →
    Forall (λ e, is_regex (AuthEntry.credentials e) = true) post.

(** The attempt equals the four fields of a literal entry. *)
Definition exactly (entry : AuthEntry.t) (domain address mechanism credential : string)
    : Prop :=
  AuthEntry.domain entry = Literal domain
  ∧ AuthEntry.address entry = Literal address
  ∧ AuthEntry.mechanism entry = mechanism
  ∧ AuthEntry.credentials entry = Literal credential.

(** The second half of the statement on the match, in the words of the
    spec: an attempt that equals the fields of a literal entry of the
    snapshot is answered with the user id of that entry. *)
Definition exact_entry_matched `{!Platform} (self : AuthService.t)
    (domain address mechanism credential : string) : Prop :=
  ∀ entry,
    entry ∈ auth_entries self →
    exactly entry domain address mechanism credential →
    authenticate self domain address mechanism [credential]
    = Returned (Some (AuthEntry.user_id entry)).

(** The attempt is already recorded in the queue. *)
Definition recorded (queue : list Cred.t) (domain address mechanism credential : string)
    : Prop :=
  Exists (Cred.same_tuple domain address mechanism credential) queue.

(** [queue'] is [queue] with the retries counter of its first record of
    the attempt incremented, and nothing else changed. *)
Definition bumped (queue queue' : list Cred.t)
    (domain address mechanism credential : string) : Prop :=
  ∃ pre e post,
    queue = pre ++ e :: post
    ∧ Forall (λ e, ¬ Cred.same_tuple domain address mechanism credential e) pre
    ∧ Cred.same_tuple domain address mechanism credential e
    ∧ queue' = pre ++ Cred.bump e :: post.

(** The user ids of the records of a queue. *)
Definition user_ids (queue : list Cred.t) : list string := map Cred.user_id queue.

(** The calls of a run, in order. *)
Definition calls (trace : list Event) : list RpcCall :=
  omap (λ ev, match ev with Call c => Some c | Logged _ => None end) trace.

(** The bulk pushes of a run, in order: the peer and the mapping pushed. *)
Definition bulk_pushes (trace : list Event)
    : list (string * gmap string (list string)) :=
  omap (λ ev, match ev with
              | Call (set_multiple_rpc_authorizations peer mapping) =>
                  Some (peer, mapping)
              | _ => None
              end) trace.

(** The methods of a mapping whose list of required capabilities is not
    empty. *)
Definition required_methods (auths : gmap string (list string))
    : gmap string (list string) :=
  filter (λ kv, kv.2 ≠ []) auths.

(** The logging of the fallback in the words of the spec: a method of
    the batch that the peer rejects is logged as not existing, and one
    that times out is logged as timed out. *)
Definition logs_method_failures `{!Platform} `{!Transport} `{!DictOrder}
    (entry : AuthEntry.t) (identity : string) : Prop :=
  ∀ method capabilities,
    required_methods (AuthEntry.rpc_method_authorizations entry) !! method
    = Some capabilities →
    (rpc_call (set_rpc_authorizations identity method capabilities) = RemoteError →
     Logged (does_not_exist method) ∈ update_entry entry)
    ∧ (rpc_call (set_rpc_authorizations identity method capabilities) = GeventTimeout →
       Logged (timed_out identity) ∈ update_entry entry).

(** The list of capabilities stored for a method of the first allow
    entry of an identity. *)
Definition stored_capabilities (self : AuthService.t) (identity method : string)
    : option (list string) :=
  match list_find (λ entry, AuthEntry.identity entry = Some identity)
          (AuthFile.read_allow_entries (auth_file self)) with
  | Some (_, entry) => AuthEntry.rpc_method_authorizations entry !! method
  | None => None
  end.

Section OperatorStatements.
Context `{!Platform}.

(** Approve then Delete on a user id, in the words of the spec: the user
    id is in none of the three queues, and the entry that Approve
    persisted is not in the store any more. *)
Definition approve_then_delete_clears (self : AuthService.t) (user_id : string)
    : Prop :=
  let approved := approve_authorization_failure self user_id in
  let deleted := delete_authorization_failure approved user_id in
  (user_id ∉ user_ids (_auth_pending deleted))
  ∧ (user_id ∉ user_ids (_auth_approved deleted))
  ∧ (user_id ∉ user_ids (_auth_denied deleted))
  ∧ ∀ entry,
      entry ∈ AuthFile.allow (auth_file approved) →
      entry ∉ AuthFile.allow (auth_file self) →
      entry ∉ AuthFile.allow (auth_file deleted).

End OperatorStatements.

(** A mutation call hands an error back to its caller. *)
Definition returns_error (result : option string * AuthService.t) : Prop :=
  is_Some result.1.

(** ** Concrete values on which the statements below are exercised *)

Module Sample.

Definition platform : Platform := {|
  PROCESS_IDENTITIES := ["platform.auth"; "control"];
  CONTROL_CONNECTION := "control.connection";
  dump_user := String.concat ",";
  re_fullmatch := λ pattern s, String.eqb pattern ".*";
  os_getuid := 1000%Z;
  agent_uuid_from_pid := λ pid, if (pid =? 4242)%Z then Some "agent-1" else None;
  approve_csr := λ _, Some "not a signing request";
  delete_csr := λ _, Some "not a signing request";
  int_max_str_digits := 4300;
  int_non_ascii := λ _, None;
|}.

(** A peer that does not export any method. *)
Definition rejecting : Transport := {| rpc_call := λ _, RemoteError |}.

Definition service (entries : list AuthEntry.t) (pending : list Cred.t)
    : AuthService.t :=
  AuthService.mk false false (AuthFile.mk entries []) [] false pending [] [] [].

Definition empty : AuthService.t := service [] [].

Definition attempt : Cred.t :=
  Cred.mk (Literal "vip") (Literal "10.0.0.7") "CURVE" (Literal "key-1") "alice" 1.

(** Two entries with the fields of one attempt, a broader one with
    patterns, and an entry without a user id of its own. *)
Definition exact : AuthEntry.t :=
  AuthEntry.mk (Literal "vip") (Literal "10.0.0.7") "CURVE" (Literal "key-1") "alice"
    None [] [] [] ∅ true "".

Definition twin : AuthEntry.t :=
  AuthEntry.mk (Literal "vip") (Literal "10.0.0.7") "CURVE" (Literal "key-1") "alice-2"
    None [] [] [] ∅ true "".

Definition broad : AuthEntry.t :=
  AuthEntry.mk (Literal "vip") (Regex ".*") "CURVE" (Regex ".*") "anyone"
    None [] [] [] ∅ true "".

Definition unnamed : AuthEntry.t :=
  AuthEntry.mk (Literal "vip") (Literal "10.0.0.8") "CURVE" (Literal "key-5") ""
    None [] [] [] ∅ true "".

Definition sensor1 : AuthEntry.t :=
  AuthEntry.mk Unset Unset "CURVE" (Literal "key-2") "sensor1-id" (Some "sensor1")
    [] [] []
    (<["get_point" := ["operator"]]> (<["set_point" := []]> ∅)) true "".

Definition sensor2 : AuthEntry.t :=
  AuthEntry.mk Unset Unset "CURVE" (Literal "key-4") "sensor2-id" (Some "sensor2")
    [] [] []
    (<["get_point" := ["operator"]]>
       (<["set_point" := ["admin"]]> (<["reset" := []]> ∅))) true "".

(** An order of iteration: the methods from the last name to the first. *)
Definition insertion : DictOrder := {|
  iteration := λ entry,
    reverse (map_to_list (AuthEntry.rpc_method_authorizations entry)).*1;
  iteration_keys := λ entry, reverse_Permutation _;
|}.

End Sample.

(** ** The query operations *)

(** [get_user_to_capabilities]: the [dict] built over the snapshot. *)
Definition get_user_to_capabilities (self : AuthService.t) : gmap string (list string) :=
  foldl (λ user_to_caps entry,
           <[AuthEntry.user_id entry := AuthEntry.capabilities entry]> user_to_caps)
    ∅ (auth_entries self).

(** [auth_utils.load_user], which is not under src/: the four parts of a
    user id, [None] standing for the [ValueError] that [get_authorizations]
    catches. *)
Class UserCodec := {
  load_user : string → option (string * string * string * string);
}.

Section Query.
Context `{!Platform} `{!UserCodec}.

(** The test of one iteration of the loop of [get_authorizations]: the
    entry has the user id or, when the user id decodes, the entry matches
    its parts. *)
Definition answers (user_id : string) (entry : AuthEntry.t) : bool :=
  bool_decide (AuthEntry.user_id entry = user_id)
  || match load_user user_id with
     | Some (domain, address, mechanism, credentials) =>
         AuthEntry.match_ entry domain address mechanism [credentials]
     | None => false
     end.

(** [get_authorizations]: the capabilities, groups and roles of the first
    entry that answers, [None] when the loop ends without a [return]. *)
Definition get_authorizations (self : AuthService.t) (user_id : string)
    : option (list string * list string * list string) :=
  (λ entry, (AuthEntry.capabilities entry, AuthEntry.groups entry,
             AuthEntry.roles entry))
  <$> List.find (answers user_id) (auth_entries self).

(** [_get_authorizations(user_id, index)] *)
Definition _get_authorizations (self : AuthService.t) (user_id : string) (index : nat)
    : outcome (list string) :=
  match get_authorizations self user_id with
  | Some (capabilities, groups, roles) =>
      match index with
      | 0 => Returned capabilities
      | 1 => Returned groups
      | 2 => Returned roles
      | _ => Raised IndexError
      end
  | None => Returned []
  end.

Definition get_capabilities (self : AuthService.t) (user_id : string)
    : outcome (list string) := _get_authorizations self user_id 0.

Definition get_groups (self : AuthService.t) (user_id : string)
    : outcome (list string) := _get_authorizations self user_id 1.

Definition get_roles (self : AuthService.t) (user_id : string)
    : outcome (list string) := _get_authorizations self user_id 2.

End Query.

(** ** The self-report of an agent *)

(** The state of the loop of [update_id_rpc_authorizations] over the
    reported methods: the authorizations of the entry, the mapping to
    return and [is_updated]. *)
Definition merging : Type :=
  gmap string (list string) * gmap string (list string) * bool.

(** One iteration of that loop. *)
Definition merge_method (method : string) (reported : list string) (st : merging)
    : merging :=
  let '(auths, updated_rpc_methods, is_updated) := st in
  let updated_rpc_methods := <[method := reported]> updated_rpc_methods in
  let '(auths, is_updated) :=
    match auths !! method with
    | None => (<[method := reported]> auths, true)
    | Some _ => (auths, is_updated)
    end in
  let '(auths, is_updated) :=
    if decide (auths !!! method = []) then (<[method := reported]> auths, true)
    else (auths, is_updated) in
  let updated_rpc_methods :=
    if decide (auths !!! method ≠ reported)
    then <[method := auths !!! method]> updated_rpc_methods
    else updated_rpc_methods in
  (auths, updated_rpc_methods, is_updated).

Definition merge_reported (auths rpc_methods : gmap string (list string)) : merging :=
  map_fold merge_method (auths, ∅, false) rpc_methods.

(** [update_id_rpc_authorizations]: what it returns ([None] is Python's
    [None]) and the state it leaves. *)
Definition update_id_rpc_authorizations (self : AuthService.t) (identity : string)
    (rpc_methods : gmap string (list string))
    : option (gmap string (list string)) * AuthService.t :=
  match list_find (λ entry, AuthEntry.identity entry = Some identity)
          (AuthFile.read_allow_entries (auth_file self)) with
  | Some (index, entry) =>
      let '(auths, updated_rpc_methods, is_updated) :=
        merge_reported (AuthEntry.rpc_method_authorizations entry) rpc_methods in
      (Some updated_rpc_methods,
       if is_updated
       then set_auth_file
              (AuthFile.update_by_index
                 (AuthEntry.set_rpc_method_authorizations entry auths)
                 index (auth_file self))
              self
       else self)
  | None => (None, self)
  end.

(** The list that the merge keeps for a method: the one of the entry when
    it has a non-empty one, else the reported one. *)
Definition merged (stored : option (list string)) (reported : list string)
    : list string :=
  match stored with
  | Some (c :: l) => c :: l
  | _ => reported
  end.

(** ** Deny *)

(** [Certs.deny_csr(user_id)]: the text of the [ValueError], if raised. *)
Class CertsDeny := { deny_csr : string → option string }.

Section Deny.
Context `{!Platform} `{!CertsDeny}.

(** The loop of [deny_authorization_failure] over [_auth_pending], which
    persists the first record of the user id in the deny list, and the
    [del] after it. *)
Definition deny_pending (user_id : string) (st : acting) : acting :=
  let '(val_err, self) := st in
  match list_find (λ pending, user_id = Cred.user_id pending) (_auth_pending self) with
  | Some (matched_index, pending) =>
      let self := _update_auth_entry pending false self in
      (None, set_auth_pending (delete matched_index (_auth_pending self)) self)
  | None => (val_err, self)
  end.

Definition deny_authorization_failure (self : AuthService.t) (user_id : string)
    : AuthService.t :=
  let val_err := if _certs self then deny_csr user_id else None in
  let st := deny_pending user_id (val_err, self) in
  let st :=
    for_user (_auth_approved st.2) user_id
      (λ _ self, set_auth_file
                   (AuthFile.approve_deny_credential user_id false (auth_file self))
                   self)
      st in
  report st.

End Deny.

(** ** The capability broadcast *)

(** What [_send_update] reads from the bus: the identity of the
    coordinator ([self.core.identity]), the answer to the live peer-list
    query of each attempt ([None] for an exception) and the cached peer
    list ([self.vip.peerlist.peers_list]) at that attempt. *)
Class Bus := {
  core_identity : string;
  peerlist_get : nat → option (list string);
  peers_list : nat → list string;
}.

(** What the first half of [_send_update] comes to: the [BaseException]
    for no peers, or the "auth.update" calls made, in order. *)
Inductive broadcast :=
| NoPeers
| Updates (sent : list (string * gmap string (list string))).

Section Broadcast.
Context `{!Platform} `{!Bus}.

(** The loop [while not peers and i < 3], with [remaining] the number of
    attempts left. *)
Fixpoint discover (remaining i : nat) (peers : list string) : list string :=
  match peers, remaining with
  | [], S remaining =>
      let i := S i in
      discover remaining i
        match peerlist_get i with
        | Some answer => answer
        | None => peers_list i
        end
  | _, _ => peers
  end.

(** [_send_update], up to the end of the loop over the peers. *)
Definition _send_update (self : AuthService.t) : broadcast :=
  let user_to_caps := get_user_to_capabilities self in
  match discover 3 0 [] with
  | [] => NoPeers
  | peers =>
      Updates
        (map (λ peer, (peer, user_to_caps))
           (filter (λ peer, peer ∉ [core_identity; CONTROL_CONNECTION]) peers))
  end.

(** The peers that attempt [i] of the loop obtains: the live answer, or
    the cached list when the query fails. *)
Definition attempt (i : nat) : list string :=
  match peerlist_get i with
  | Some answer => answer
  | None => peers_list i
  end.

End Broadcast.

(** ** [_check_token] *)

(** [list.remove(x)]: without the first occurrence of [x]; [None] stands
    for the [ValueError] of an absent [x]. *)
Fixpoint list_remove (x : string) (l : list string) : option (list string) :=
  match l with
  | [] => None
  | y :: l => if decide (x = y) then Some l else cons y <$> list_remove x l
  end.

Definition _check_token (actual allowed : list string) : outcome (list string) :=
  foldl (λ pending tk,
           match pending with
           | Returned pending =>
               if decide (tk ∈ allowed) then
                 match list_remove tk pending with
                 | Some pending => Returned pending
                 | None => Raised ValueError
                 end
               else Returned pending
           | Raised e => Raised e
           end)
    (Returned actual) actual.

(** ** Vocabulary of the further statements *)

(** The 4-tuple of a record of a queue. *)
Definition tuple_of (e : Cred.t) : Field * Field * string * Field :=
  (Cred.domain e, Cred.address e, Cred.mechanism e, Cred.credentials e).

(** A queue without its first record of a user id. *)
Fixpoint without_first (user_id : string) (queue : list Cred.t) : list Cred.t :=
  match queue with
  | [] => []
  | p :: queue =>
      if decide (user_id = Cred.user_id p) then queue
      else p :: without_first user_id queue
  end.

(** What the actions keep of a state: the resolved queues and the
    snapshot. *)
Definition same_resolved (self self' : AuthService.t) : Prop :=
  _auth_approved self' = _auth_approved self
  ∧ _auth_denied self' = _auth_denied self
  ∧ auth_entries self' = auth_entries self.

(** The peer that a call goes to. *)
Definition peer_of (c : RpcCall) : string :=
  match c with
  | set_multiple_rpc_authorizations peer _ => peer
  | set_rpc_authorizations peer _ _ => peer
  end.

Module Sample2.

Definition codec : UserCodec := {|
  load_user := λ user_id,
    match Py.split "," user_id with
    | [domain; address; mechanism; credentials] =>
        Some (domain, address, mechanism, credentials)
    | _ => None
    end;
|}.

Definition certs : CertsDeny := {| deny_csr := λ _, Some "not a signing request" |}.

(** A bus on which the first live query fails with an empty cache and the
    second one answers. *)
Definition bus : Bus := {|
  core_identity := "platform.auth";
  peerlist_get := λ i, if (i =? 2)%nat
                       then Some ["platform.auth"; "sensor1"; "control.connection"]
                       else None;
  peers_list := λ _, [];
|}.

Definition operator : AuthEntry.t :=
  AuthEntry.mk (Literal "vip") (Literal "10.0.0.9") "CURVE" (Literal "key-3")
    "operator-id" (Some "operator") ["edit"] ["staff"] ["admin"] ∅ true "".

(** A service whose snapshot holds two entries. *)
Definition queried : AuthService.t :=
  AuthService.mk false false (AuthFile.mk [operator; Sample.sensor1] [])
    [operator; Sample.sensor1] false [] [] [] [].

(** A service in allow-any mode. *)
Definition open_service : AuthService.t :=
  AuthService.mk true false (AuthFile.mk [] []) [] false [] [] [] [].

(** What an agent reports for its methods. *)
Definition report : gmap string (list string) :=
  <["get_point" := ["admin"]]> (<["set_point" := ["admin"]]> ∅).

(** A peer that never answers in time. *)
Definition timing_out : Transport := {| rpc_call := λ _, GeventTimeout |}.

End Sample2.

(** * Properties *)

(** ** The pending admission queue *)

Section PendingQueue.
Context (same : Cred.t → Prop) `{!∀ e, Decision (same e)}.

Lemma bump_first_None queue :
  bump_first same queue = None ↔ Forall (λ e, ¬ same e) queue.
Proof.
  induction queue as [|e queue IH]; simpl.
  - split; [constructor | done].
  - destruct (decide (same e)) as [Hs|Hs].
    + split; [done | intros HF; inversion HF; contradiction].
    + destruct (bump_first same queue) eqn:Hb; simpl.
      * split; [done|]. intros HF. inversion HF as [|? ? _ HF']; subst.
        apply IH in HF'. discriminate.
      * split; [|done]. intros _. constructor; [done | by apply IH].
Qed.

Lemma bump_first_Some queue queue' :
  bump_first same queue = Some queue' →
  ∃ pre e post,
    queue = pre ++ e :: post ∧ Forall (λ e, ¬ same e) pre ∧ same e
    ∧ queue' = pre ++ Cred.bump e :: post.
Proof.
  revert queue'. induction queue as [|e queue IH]; simpl; intros queue' Hq; [done|].
  destruct (decide (same e)) as [Hs|Hs].
  - injection Hq as <-. by exists [], e, queue.
  - destruct (bump_first same queue) as [q|] eqn:Hb; simpl in Hq; [|done].
    injection Hq as <-.
    destruct (IH q eq_refl) as (pre & x & post & -> & Hpre & Hx & ->).
    exists (e :: pre), x, post. repeat split; try done. by constructor.
Qed.

End PendingQueue.

Lemma bumped_length queue queue' d a m c :
  bumped queue queue' d a m c → length queue' = length queue.
Proof.
  intros (pre & e & post & -> & _ & _ & ->). by rewrite !length_app.
Qed.

Lemma bump_first_recorded queue d a m c :
  recorded queue d a m c ↔ is_Some (bump_first (Cred.same_tuple d a m c) queue).
Proof.
  unfold recorded.
  destruct (bump_first (Cred.same_tuple d a m c) queue) as [queue'|] eqn:Hb.
  - apply bump_first_Some in Hb as (pre & e & post & -> & _ & He & _).
    split; [by eauto|]. intros _. apply Exists_app. right. by constructor.
  - apply bump_first_None in Hb. split.
    + intros Hex. exfalso. revert Hex. by apply Forall_not_Exists.
    + by intros [? ?].
Qed.

Lemma update_auth_pending_denied self d a m c u :
  recorded (_auth_denied self) d a m c →
  bumped (_auth_denied self) (_auth_denied (_update_auth_pending self d a m c u)) d a m c
  ∧ _auth_pending (_update_auth_pending self d a m c u) = _auth_pending self.
Proof.
  intros [den Hden]%bump_first_recorded. unfold _update_auth_pending.
  rewrite Hden. simpl. split; [|done]. by eapply bump_first_Some.
Qed.

Lemma update_auth_pending_pending self d a m c u :
  ¬ recorded (_auth_denied self) d a m c →
  recorded (_auth_pending self) d a m c →
  bumped (_auth_pending self) (_auth_pending (_update_auth_pending self d a m c u)) d a m c
  ∧ _auth_denied (_update_auth_pending self d a m c u) = _auth_denied self.
Proof.
  intros Hno [pen Hpen]%bump_first_recorded. unfold _update_auth_pending.
  rewrite bump_first_recorded, <-eq_None_not_Some in Hno.
  rewrite Hno, Hpen. simpl. split; [|done]. by eapply bump_first_Some.
Qed.

Lemma update_auth_pending_new self d a m c u :
  ¬ recorded (_auth_denied self ++ _auth_pending self) d a m c →
  _auth_denied (_update_auth_pending self d a m c u) = _auth_denied self
  ∧ _auth_pending (_update_auth_pending self d a m c u)
    = _auth_pending self ++ [Cred.mk (Literal d) (Literal a) m (Literal c) u 1].
Proof.
  intros Hno. unfold recorded in Hno. rewrite Exists_app in Hno.
  assert (¬ recorded (_auth_denied self) d a m c) as Hd by (unfold recorded; tauto).
  assert (¬ recorded (_auth_pending self) d a m c) as Hp by (unfold recorded; tauto).
  rewrite bump_first_recorded, <-eq_None_not_Some in Hd, Hp.
  unfold _update_auth_pending. by rewrite Hd, Hp.
Qed.

Lemma update_auth_pending_again self d a m c u r :
  _auth_denied self = [] → _auth_pending self = [r] → Cred.same_tuple d a m c r →
  _auth_denied (_update_auth_pending self d a m c u) = []
  ∧ _auth_pending (_update_auth_pending self d a m c u) = [Cred.bump r].
Proof.
  intros Hden Hpen Hr. unfold _update_auth_pending.
  rewrite Hden, Hpen. cbn [bump_first]. by rewrite decide_True.
Qed.

(** C3. Recording an attempt whose 4-tuple is already in the denied queue
    increments the retries of that denied record, else one whose 4-tuple
    is in the pending queue increments the retries of that pending record;
    both queues keep their lengths. Recording any other attempt appends one
    pending record with retries 1. Recording the same attempt three times
    from empty queues leaves one pending record with retries 3. *)
Theorem update_auth_pending_dedup :
  (∀ self domain address mechanism credential user_id,
     let self' := _update_auth_pending self domain address mechanism credential user_id in
     (recorded (_auth_denied self) domain address mechanism credential →
        bumped (_auth_denied self) (_auth_denied self')
          domain address mechanism credential
        ∧ _auth_pending self' = _auth_pending self)
     ∧ (¬ recorded (_auth_denied self) domain address mechanism credential →
        recorded (_auth_pending self) domain address mechanism credential →
        bumped (_auth_pending self) (_auth_pending self')
          domain address mechanism credential
        ∧ _auth_denied self' = _auth_denied self)
     ∧ (recorded (_auth_denied self ++ _auth_pending self)
          domain address mechanism credential →
        length (_auth_denied self') = length (_auth_denied self)
        ∧ length (_auth_pending self') = length (_auth_pending self))
     ∧ (¬ recorded (_auth_denied self ++ _auth_pending self)
          domain address mechanism credential →
        _auth_denied self' = _auth_denied self
        ∧ _auth_pending self'
          = _auth_pending self
            ++ [Cred.mk (Literal domain) (Literal address) mechanism
                  (Literal credential) user_id 1]))
  ∧ (∀ self domain address mechanism credential user_id,
       _auth_denied self = [] → _auth_pending self = [] →
       let once := _update_auth_pending self domain address mechanism credential user_id in
       let twice := _update_auth_pending once domain address mechanism credential user_id in
       let thrice := _update_auth_pending twice domain address mechanism credential user_id in
       _auth_denied thrice = []
       ∧ _auth_pending thrice
         = [Cred.mk (Literal domain) (Literal address) mechanism
              (Literal credential) user_id 3]).
Proof.
  split.
  - intros self d a m c u self'. subst self'.
    split; [apply update_auth_pending_denied|].
    split; [apply update_auth_pending_pending|].
    split; [|apply update_auth_pending_new].
    intros Hrec.
    destruct (decide (recorded (_auth_denied self) d a m c)) as [Hin|Hout].
    + destruct (update_auth_pending_denied self d a m c u Hin) as [Hb ->].
      by apply bumped_length in Hb.
    + apply Exists_app in Hrec as [Hin|Hin]; [done|].
      destruct (update_auth_pending_pending self d a m c u Hout Hin) as [Hb ->].
      by apply bumped_length in Hb.
  - intros self d a m c u Hden Hpen once twice thrice.
    destruct (update_auth_pending_new self d a m c u) as [Hd1 Hp1].
    { rewrite Hden, Hpen. unfold recorded. simpl. by intros ?%Exists_nil. }
    rewrite Hden in Hd1. rewrite Hpen in Hp1. simpl in Hp1.
    destruct (update_auth_pending_again once d a m c u _ Hd1 Hp1) as [Hd2 Hp2]; [done|].
    destruct (update_auth_pending_again twice d a m c u _ Hd2 Hp2) as [Hd3 Hp3]; [done|].
    done.
Qed.

(** ** [authenticate] *)

Lemma split_localhost X :
  Py.split ":" ("localhost:" +:+ X) = "localhost" :: Py.split ":" X.
Proof. reflexivity. Qed.

Lemma startswith_localhost X : Py.startswith ("localhost:" +:+ X) "localhost:" = true.
Proof. unfold Py.startswith. simpl. by destruct X. Qed.

Lemma split_nonempty sep s : ∃ h t, Py.split sep s = h :: t.
Proof.
  induction s as [|c s IH]; simpl; [by eauto|].
  destruct (Ascii.eqb c sep); [by eauto|].
  destruct IH as (h & t & ->). by eauto.
Qed.

Lemma prefix_inv p s : String.prefix p s = true → ∃ r, s = p +:+ r.
Proof.
  revert s. induction p as [|c p IH]; intros s Hp; simpl in *; [by exists s|].
  destruct s as [|c' s]; [done|]. simpl in Hp.
  destruct (Ascii.ascii_dec c c') as [->|]; [|done].
  destruct (IH s Hp) as [r ->]. by exists r.
Qed.

Lemma insert_sorted_front {A} (lt : A → A → bool) x l :
  Forall (λ y, lt y x = false) l → Py.insert_sorted lt x l = x :: l.
Proof. intros [|y l' Hy _]; simpl; [done|]. by rewrite Hy. Qed.

Lemma insert_sorted_skip {A} (lt : A → A → bool) x l1 l2 :
  Forall (λ y, lt y x = true) l1 →
  Py.insert_sorted lt x (l1 ++ l2) = l1 ++ Py.insert_sorted lt x l2.
Proof. induction 1 as [|y l1 Hy _ IH]; simpl; [done|]. by rewrite Hy, IH. Qed.

(** The order of the snapshot: the entries with literal credentials, in
    store order, then the entries with regex credentials, in store order. *)
Lemma sort_literal_first (entries : list AuthEntry.t) :
  Py.sort AuthEntry.lt entries
  = filter (λ e, is_regex (AuthEntry.credentials e) = false) entries
    ++ filter (λ e, is_regex (AuthEntry.credentials e) = true) entries.
Proof.
  induction entries as [|x entries IH]; [done|].
  cbn [Py.sort]. rewrite IH. clear IH. rewrite !filter_cons.
  destruct (is_regex (AuthEntry.credentials x)) eqn:Hx.
  - rewrite decide_False, decide_True by done.
    rewrite insert_sorted_skip.
    + f_equal. apply insert_sorted_front, Forall_forall.
      intros y [Hy _]%list_elem_of_filter. unfold AuthEntry.lt. by rewrite Hy.
    + apply Forall_forall. intros y [Hy _]%list_elem_of_filter.
      unfold AuthEntry.lt. by rewrite Hy, Hx.
  - rewrite decide_True, decide_False by done.
    apply insert_sorted_front, Forall_forall. intros y _.
    unfold AuthEntry.lt. rewrite Hx. apply andb_false_r.
Qed.

Lemma insert_sorted_Permutation {A} (lt : A → A → bool) x l :
  Py.insert_sorted lt x l ≡ₚ x :: l.
Proof.
  induction l as [|y l IH]; simpl; [done|].
  destruct (lt y x); [|done]. rewrite IH. apply Permutation_swap.
Qed.

Lemma sort_Permutation {A} (lt : A → A → bool) l : Py.sort lt l ≡ₚ l.
Proof.
  induction l as [|x l IH]; simpl; [done|].
  by rewrite insert_sorted_Permutation, IH.
Qed.

(** A list of entries with literal credentials followed by one of
    entries with regex credentials is in the order of the snapshot. *)
Lemma literal_first_app (literals regexes : list AuthEntry.t) :
  Forall (λ e, is_regex (AuthEntry.credentials e) = false) literals →
  Forall (λ e, is_regex (AuthEntry.credentials e) = true) regexes →
  literal_first (literals ++ regexes).
Proof.
  intros Hl Hr. induction Hl as [|l literals Hlit _ IH]; intros pre entry post Hsplit Hregex.
  - simpl in Hsplit. rewrite Hsplit in Hr.
    apply Forall_app in Hr as [_ Hr]. by apply Forall_cons in Hr as [_ Hr].
  - destruct pre as [|p pre]; simpl in Hsplit.
    + injection Hsplit as -> _. congruence.
    + injection Hsplit as _ Hsplit. by eapply IH.
Qed.

Lemma snapshot_literal_first entries : literal_first (snapshot entries).
Proof.
  unfold snapshot. rewrite sort_literal_first.
  apply literal_first_app; apply Forall_forall; by intros e [? _]%list_elem_of_filter.
Qed.

Lemma find_split {A} (f : A → bool) (l : list A) x :
  List.find f l = Some x →
  ∃ pre post, l = pre ++ x :: post ∧ Forall (λ y, f y = false) pre ∧ f x = true.
Proof.
  induction l as [|y l IH]; simpl; [done|].
  destruct (f y) eqn:Hy.
  - intros [= ->]. by exists [], l.
  - intros (pre & post & -> & Hpre & Hx)%IH.
    exists (y :: pre), post. split; [done|]. split; [by constructor|done].
Qed.

Lemma find_none_all {A} (f : A → bool) (l : list A) :
  List.find f l = None → Forall (λ y, f y = false) l.
Proof.
  induction l as [|y l IH]; simpl; [by constructor|].
  destruct (f y) eqn:Hy; [done|]. intros Hl. constructor; [done|by apply IH].
Qed.

Section AuthenticateProperties.
Context `{!Platform}.

(** C10. [authenticate] is not total: on an attempt that matches no
    enabled entry, with mechanism "NULL" and address "localhost:X", it
    raises [ValueError] when X has a third colon-separated component that
    is not a decimal integer, and when X has no third component and its
    first component (X itself when X has no colon) is not a decimal
    integer. *)
Theorem authenticate_raises self domain X credentials :
  first_match (auth_entries self) domain ("localhost:" +:+ X) "NULL" credentials = None →
  (∀ p2, Py.split ":" X !! 2%nat = Some p2 → Py.int p2 = None →
     authenticate self domain ("localhost:" +:+ X) "NULL" credentials
     = Raised ValueError)
  ∧ (∀ p0, Py.split ":" X !! 2%nat = None →
       Py.split ":" X !! 0%nat = Some p0 → Py.int p0 = None →
       authenticate self domain ("localhost:" +:+ X) "NULL" credentials
       = Raised ValueError).
Proof.
  intros Hno. unfold authenticate. rewrite Hno. unfold no_match.
  rewrite startswith_localhost, split_localhost.
  change (String.eqb "NULL" "NULL") with true. cbn [andb].
  change (drop 1 ("localhost" :: Py.split ":" X)) with (Py.split ":" X). split.
  - intros p2 -> ->. done.
  - intros p0 -> -> ->. done.
Qed.

(** C2, amended. On an attempt that matches no enabled entry and whose
    address components convert to integers where the code converts them,
    [authenticate] returns by the chain: (a) mechanism "NULL" and a
    loopback address whose embedded process id resolves to a locally-known
    agent: the user id tagged "AGENT"; (b) else mechanism "NULL" and a
    loopback address that encodes the coordinator's own user id: the user
    id synthesized from the raw tuple; (c) else, the allow-any flag set:
    the synthesized user id; (d) else no user id. *)
Theorem authenticate_fallback self domain address mechanism credentials :
  first_match (auth_entries self) domain address mechanism credentials = None →
  (mechanism = "NULL" → Py.startswith address "localhost:" = true →
   convertible address) →
  authenticate self domain address mechanism credentials
  = Returned (guarded_fallback self domain address mechanism credentials).
Proof.
  intros Hno Hconv. unfold authenticate. rewrite Hno.
  unfold no_match, guarded_fallback.
  destruct (String.eqb mechanism "NULL") eqn:Hm; cycle 1.
  { simpl. by destruct (allow_any self). }
  apply String.eqb_eq in Hm as ->.
  destruct (Py.startswith address "localhost:") eqn:Hs; cycle 1.
  { unfold resolved_agent, own_uid. rewrite Hs. simpl. by destruct (allow_any self). }
  destruct (Hconv eq_refl eq_refl) as [H2 H0]. clear Hconv.
  unfold own_uid, resolved_agent in *. rewrite Hs in *. clear Hno.
  unfold components in *. cbn [andb].
  apply prefix_inv in Hs as [X ->]. rewrite split_localhost in *.
  destruct (split_nonempty ":" X) as (p0 & rest & Hsp). rewrite Hsp in *.
  change (drop 1 ("localhost" :: p0 :: rest)) with (p0 :: rest) in *.
  change ((p0 :: rest) !! 0%nat) with (Some p0) in *.
  destruct ((p0 :: rest) !! 2%nat) as [p2|] eqn:Hp2.
  - destruct (H2 p2 eq_refl) as [pid Hpid]. rewrite Hpid in *.
    destruct (agent_uuid_from_pid pid) as [agent_uuid|];
      [destruct (Py.truthy agent_uuid); [done|]|].
    all: destruct (H0 eq_refl p0 eq_refl) as [uid ->].
    all: by destruct (uid =? os_getuid)%Z, (allow_any self).
  - destruct (H0 eq_refl p0 eq_refl) as [uid ->].
    by destruct (uid =? os_getuid)%Z, (allow_any self).
Qed.

Lemma find_skip {A} (f : A → bool) l1 l2 :
  Forall (λ x, f x = false) l1 → List.find f (l1 ++ l2) = List.find f l2.
Proof. induction 1 as [|x l1 Hx _ IH]; simpl; [done|]. by rewrite Hx. Qed.

Lemma first_match_at pre entry post domain address mechanism credentials :
  Forall (λ e, AuthEntry.match_ e domain address mechanism credentials = false) pre →
  AuthEntry.match_ entry domain address mechanism credentials = true →
  first_match (pre ++ entry :: post) domain address mechanism credentials = Some entry.
Proof.
  intros Hpre Hentry. unfold first_match. rewrite find_skip by done.
  simpl. by rewrite Hentry.
Qed.

(** On a snapshot in the order of [literal_first], an entry with literal
    credentials that matches, and is the only such entry that does, is the
    first entry that matches. *)
Lemma only_literal_first_match (entries : list AuthEntry.t) entry
    domain address mechanism credentials :
  literal_first entries →
  entry ∈ entries →
  is_regex (AuthEntry.credentials entry) = false →
  AuthEntry.match_ entry domain address mechanism credentials = true →
  (∀ e, e ∈ entries →
        is_regex (AuthEntry.credentials e) = false →
        AuthEntry.match_ e domain address mechanism credentials = true →
        e = entry) →
  first_match entries domain address mechanism credentials = Some entry.
Proof.
  intros Hord Hin Hlit Hmatch Honly. unfold first_match.
  destruct (List.find _ entries) as [e0|] eqn:Hfind.
  - apply find_split in Hfind as (pre & post & Hsplit & Hpre & He0).
    f_equal. destruct (is_regex (AuthEntry.credentials e0)) eqn:Hregex.
    + pose proof (Hord pre e0 post Hsplit Hregex) as Hpost.
      rewrite Forall_forall in Hpre, Hpost. rewrite Hsplit in Hin.
      apply elem_of_app in Hin as [Hin|Hin]; [apply Hpre in Hin; congruence|].
      apply elem_of_cons in Hin as [->|Hin]; [congruence|].
      apply Hpost in Hin. congruence.
    + apply Honly; [|done|done]. rewrite Hsplit.
      apply elem_of_app. right. left.
  - apply find_none_all in Hfind. rewrite Forall_forall in Hfind.
    apply Hfind in Hin. congruence.
Qed.

(** C1, amended. [authenticate] returns the user id of the first entry of
    the snapshot all four of whose fields match the attempt: the user id
    of the entry when that is not empty, else the one synthesized from the
    attempt. An attempt that equals the fields of a literal entry matches
    it. The snapshot that [read_auth_file] installs holds the enabled
    entries of the store, none with literal credentials after one with
    regex credentials. On every snapshot in that order, and so after
    [read_auth_file], an entry with literal credentials that matches is
    the one answered with, wherever the entries with regex credentials
    stand in store order and whether or not they match, provided that no
    other entry with literal credentials matches. *)
Theorem authenticate_first_match :
  (∀ self pre entry post domain address mechanism credentials,
     auth_entries self = pre ++ entry :: post →
     Forall (λ e, AuthEntry.match_ e domain address mechanism credentials = false) pre →
     AuthEntry.match_ entry domain address mechanism credentials = true →
     authenticate self domain address mechanism credentials
     = Returned
         (Some (if Py.truthy (AuthEntry.user_id entry) then AuthEntry.user_id entry
                else dump_user ([domain; address; mechanism] ++ take 1 credentials))))
  ∧ (∀ entry domain address mechanism credential rest,
       exactly entry domain address mechanism credential →
       AuthEntry.match_ entry domain address mechanism (credential :: rest) = true)
  ∧ (∀ self,
       auth_entries (read_auth_file self).1
       ≡ₚ filter (λ entry, AuthEntry.enabled entry = true)
            (AuthFile.read_allow_entries (auth_file self))
       ∧ literal_first (auth_entries (read_auth_file self).1))
  ∧ (∀ self entry domain address mechanism credentials,
       literal_first (auth_entries self) →
       entry ∈ auth_entries self →
       is_regex (AuthEntry.credentials entry) = false →
       AuthEntry.match_ entry domain address mechanism credentials = true →
       (∀ e, e ∈ auth_entries self →
             is_regex (AuthEntry.credentials e) = false →
             AuthEntry.match_ e domain address mechanism credentials = true →
             e = entry) →
       authenticate self domain address mechanism credentials
       = Returned
           (Some (if Py.truthy (AuthEntry.user_id entry) then AuthEntry.user_id entry
                  else dump_user ([domain; address; mechanism] ++ take 1 credentials))))
  ∧ (∀ self entry domain address mechanism credentials,
       entry ∈ AuthFile.read_allow_entries (auth_file self) →
       AuthEntry.enabled entry = true →
       is_regex (AuthEntry.credentials entry) = false →
       AuthEntry.match_ entry domain address mechanism credentials = true →
       (∀ e, e ∈ AuthFile.read_allow_entries (auth_file self) →
             AuthEntry.enabled e = true →
             is_regex (AuthEntry.credentials e) = false →
             AuthEntry.match_ e domain address mechanism credentials = true →
             e = entry) →
       authenticate (read_auth_file self).1 domain address mechanism credentials
       = Returned
           (Some (if Py.truthy (AuthEntry.user_id entry) then AuthEntry.user_id entry
                  else dump_user ([domain; address; mechanism] ++ take 1 credentials)))).
Proof.
  assert (Hsnap : ∀ self,
     auth_entries (read_auth_file self).1
     ≡ₚ filter (λ entry, AuthEntry.enabled entry = true)
          (AuthFile.read_allow_entries (auth_file self))
     ∧ literal_first (auth_entries (read_auth_file self).1)).
  { intros self. split; [apply sort_Permutation|apply snapshot_literal_first]. }
  assert (Honly : ∀ self entry domain address mechanism credentials,
     literal_first (auth_entries self) →
     entry ∈ auth_entries self →
     is_regex (AuthEntry.credentials entry) = false →
     AuthEntry.match_ entry domain address mechanism credentials = true →
     (∀ e, e ∈ auth_entries self →
           is_regex (AuthEntry.credentials e) = false →
           AuthEntry.match_ e domain address mechanism credentials = true →
           e = entry) →
     authenticate self domain address mechanism credentials
     = Returned
         (Some (if Py.truthy (AuthEntry.user_id entry) then AuthEntry.user_id entry
                else dump_user ([domain; address; mechanism] ++ take 1 credentials)))).
  { intros self entry d a m c Hord Hin Hlit Hmatch Hothers.
    unfold authenticate.
    by rewrite (only_literal_first_match _ entry d a m c Hord Hin Hlit Hmatch Hothers). }
  split.
  { intros self pre entry post d a m c Hsplit Hpre Hentry.
    unfold authenticate. rewrite Hsplit. by rewrite first_match_at. }
  split.
  { intros entry d a m c rest (Hd & Ha & Hm & Hc). unfold AuthEntry.match_.
    rewrite Hd, Ha, Hm, Hc. simpl. by rewrite !String.eqb_refl. }
  split; [exact Hsnap|]. split; [exact Honly|].
  intros self entry d a m c Hin Hon Hlit Hmatch Hothers.
  destruct (Hsnap self) as [Hperm Hord].
  apply Honly; [done| |done|done|].
  - rewrite Hperm. by apply list_elem_of_filter.
  - intros e He. rewrite Hperm in He. apply list_elem_of_filter in He as [Hen He].
    by apply Hothers.
Qed.

End AuthenticateProperties.

(** ** The RPC-authorization reconciliation *)

Lemma collect_modified_required auths : collect_modified auths = required_methods auths.
Proof.
  unfold collect_modified, required_methods.
  apply (map_fold_weak_ind (λ r m, r = filter (λ kv, kv.2 ≠ []) m)).
  - by rewrite map_filter_empty.
  - intros method capabilities m r Hfresh ->.
    destruct (decide (capabilities = [])) as [->|Hne].
    + rewrite map_filter_insert_False by (simpl; tauto).
      by rewrite delete_id.
    + by rewrite map_filter_insert_True.
Qed.

Lemma required_methods_lookup auths method capabilities :
  required_methods auths !! method = Some capabilities
  ↔ auths !! method = Some capabilities ∧ capabilities ≠ [].
Proof. unfold required_methods. by rewrite map_lookup_filter_Some. Qed.

Lemma required_methods_empty auths :
  required_methods auths = ∅
  ↔ ∀ method capabilities, auths !! method = Some capabilities → capabilities = [].
Proof.
  split.
  - intros Hempty method capabilities Hm.
    destruct (decide (capabilities = [])) as [|Hne]; [done|].
    assert (required_methods auths !! method = Some capabilities) as Hr
      by by apply required_methods_lookup.
    rewrite Hempty in Hr. by rewrite lookup_empty in Hr.
  - intros Hall. apply map_eq. intros method. rewrite lookup_empty.
    destruct (required_methods auths !! method) as [capabilities|] eqn:Hr; [|done].
    apply required_methods_lookup in Hr as [Hm Hne]. by apply Hall in Hm.
Qed.

Section ReconcileProperties.
Context `{!Platform} `{!Transport} `{!DictOrder}.

Lemma elem_of_keys (auths : gmap string (list string)) method :
  method ∈ (map_to_list auths).*1 ↔ is_Some (auths !! method).
Proof.
  rewrite list_elem_of_fmap. split.
  - intros ([k v] & -> & Hin%elem_of_map_to_list). by eexists.
  - intros [v Hv]. exists (method, v). split; [done|]. by apply elem_of_map_to_list.
Qed.

(** The methods of the fallback: each method of the batch, once. *)
Lemma modified_order_spec entry :
  NoDup (modified_order entry)
  ∧ ∀ method,
      method ∈ modified_order entry
      ↔ is_Some (required_methods (AuthEntry.rpc_method_authorizations entry) !! method).
Proof.
  unfold modified_order. split.
  - apply NoDup_filter. rewrite iteration_keys. apply NoDup_fst_map_to_list.
  - intros method. rewrite list_elem_of_filter, iteration_keys, elem_of_keys. split.
    + intros [Hne [capabilities Hm]]. exists capabilities.
      apply required_methods_lookup. split; [done|].
      by rewrite (lookup_total_correct _ _ _ Hm) in Hne.
    + intros [capabilities [Hm Hne]%required_methods_lookup].
      split; [|by eexists]. by rewrite (lookup_total_correct _ _ _ Hm).
Qed.

Lemma flat_map_push_method identity auths methods :
  flat_map (push_method identity auths) methods
  = map (λ method, Call (set_rpc_authorizations identity method (auths !!! method)))
      methods.
Proof. induction methods as [|method methods IH]; [done|]. simpl. by rewrite IH. Qed.

(** The run on one entry that has an identity open to updates. *)
Lemma update_entry_updatable entry identity :
  AuthEntry.identity entry = Some identity → updatable entry →
  let auths := AuthEntry.rpc_method_authorizations entry in
  let required := required_methods auths in
  update_entry entry
  = if decide (required = ∅) then []
    else
      Call (set_multiple_rpc_authorizations identity required) ::
      match rpc_call (set_multiple_rpc_authorizations identity required) with
      | Answered => []
      | GeventTimeout => [Logged (timed_out identity)]
      | RemoteError =>
          map (λ method,
                 Call (set_rpc_authorizations identity method (auths !!! method)))
            (modified_order entry)
      end.
Proof.
  intros Hid Hup auths required. unfold update_entry.
  rewrite Hid, decide_True, collect_modified_required by done.
  fold auths required. destruct (decide (required = ∅)); [done|].
  destruct (rpc_call _); [done|done|]. by rewrite flat_map_push_method.
Qed.

Lemma bulk_pushes_methods identity (auths : gmap string (list string)) methods :
  bulk_pushes
    (map (λ method, Call (set_rpc_authorizations identity method (auths !!! method)))
       methods)
  = [].
Proof. induction methods as [|method methods IH]; [done|]. exact IH. Qed.

Lemma logged_methods identity (auths : gmap string (list string)) methods r :
  Logged r
  ∉ map (λ method, Call (set_rpc_authorizations identity method (auths !!! method)))
      methods.
Proof. by intros (method & ? & _)%list_elem_of_fmap. Qed.

(** C6. For an identity of the diff, the bulk push carries exactly the
    methods whose list of required capabilities is not empty, each with
    that list, and there is one such push; an identity whose methods all
    have an empty list gets no call at all. The bulk pushes of a run are
    those of its entries, in order. *)
Theorem bulk_push_required_methods :
  (∀ entries,
     bulk_pushes (update_rpc_authorizations entries)
     = flat_map (λ entry, bulk_pushes (update_entry entry)) entries)
  ∧ (∀ entry identity,
       AuthEntry.identity entry = Some identity → updatable entry →
       let auths := AuthEntry.rpc_method_authorizations entry in
       ((∃ method capabilities,
           auths !! method = Some capabilities ∧ capabilities ≠ []) →
        ∃ pushed,
          bulk_pushes (update_entry entry) = [(identity, pushed)]
          ∧ ∀ method capabilities,
              pushed !! method = Some capabilities
              ↔ auths !! method = Some capabilities ∧ capabilities ≠ [])
       ∧ ((∀ method capabilities,
             auths !! method = Some capabilities → capabilities = []) →
          update_entry entry = [])).
Proof.
  split.
  - induction entries as [|entry entries IH]; [done|].
    unfold update_rpc_authorizations in *. simpl.
    unfold bulk_pushes in *. by rewrite omap_app, IH.
  - intros entry identity Hid Hup auths.
    rewrite (update_entry_updatable entry identity Hid Hup). fold auths. split.
    + intros (method & capabilities & Hm & Hne).
      exists (required_methods auths). split; [|apply required_methods_lookup].
      rewrite decide_False.
      * cbn [bulk_pushes omap]. unfold bulk_pushes. simpl.
        destruct (rpc_call _); try done.
        by rewrite (bulk_pushes_methods identity).
      * intros Hempty. by eapply Hne, required_methods_empty.
    + intros Hall. by rewrite decide_True by by apply required_methods_empty.
Qed.

(** C5. When the peer rejects the bulk push for an entry, the run makes,
    after the bulk push, one call per method of the batch, in the order of
    the [dict] of the entry, each with the capabilities of that method,
    and nothing else. The result of such a call is not waited for: whatever
    the peer answers to it, rejection or time-out, nothing is logged. The
    run goes on with the remaining entries and returns. *)
Theorem rejected_bulk_push_falls_back entry identity :
  AuthEntry.identity entry = Some identity → updatable entry →
  let auths := AuthEntry.rpc_method_authorizations entry in
  let required := required_methods auths in
  required ≠ ∅ →
  rpc_call (set_multiple_rpc_authorizations identity required) = RemoteError →
  update_entry entry
  = Call (set_multiple_rpc_authorizations identity required)
    :: map (λ method, Call (set_rpc_authorizations identity method (auths !!! method)))
         (modified_order entry)
  ∧ modified_order entry
    = filter (λ method, auths !!! method ≠ []) (iteration entry)
  ∧ NoDup (modified_order entry)
  ∧ (∀ method, method ∈ modified_order entry ↔ is_Some (required !! method))
  ∧ (∀ method capabilities,
       required !! method = Some capabilities
       ↔ auths !! method = Some capabilities ∧ capabilities ≠ [])
  ∧ (∀ method capabilities,
       required !! method = Some capabilities → auths !!! method = capabilities)
  ∧ (∀ r, Logged r ∉ update_entry entry)
  ∧ (∀ rest,
       update_rpc_authorizations (entry :: rest)
       = update_entry entry ++ update_rpc_authorizations rest).
Proof.
  intros Hid Hup auths required Hne Hbulk.
  pose proof (update_entry_updatable entry identity Hid Hup) as Hrun.
  cbv zeta in Hrun. fold auths required in Hrun.
  rewrite decide_False, Hbulk in Hrun by done.
  destruct (modified_order_spec entry) as [Hnodup Hmem].
  split; [exact Hrun|]. split; [done|]. split; [exact Hnodup|].
  split; [exact Hmem|]. split; [apply required_methods_lookup|].
  split; [|split; [|done]].
  - intros method capabilities [Hm _]%required_methods_lookup.
    by apply lookup_total_correct.
  - intros r. rewrite Hrun. intros [?|Hin]%elem_of_cons; [done|].
    by apply logged_methods in Hin.
Qed.

End ReconcileProperties.

(** ** The mutation API *)

Lemma filter_in_ext {A} (P Q : A → Prop) `{!∀ x, Decision (P x)} `{!∀ x, Decision (Q x)}
    (l : list A) :
  (∀ x, x ∈ l → P x ↔ Q x) → filter P l = filter Q l.
Proof.
  induction l as [|x l IH]; intros Hext; [done|].
  rewrite !filter_cons. rewrite IH by (intros y Hy; apply Hext; by right).
  assert (P x ↔ Q x) as HPQ by (apply Hext; left).
  destruct (decide (P x)) as [HP|HP].
  - by rewrite decide_True by tauto.
  - by rewrite decide_False by tauto.
Qed.

Lemma filter_none {A} (P : A → Prop) `{!∀ x, Decision (P x)} (l : list A) :
  (∀ x, x ∈ l → ¬ P x) → filter P l = [].
Proof.
  induction l as [|x l IH]; intros Hnone; [done|].
  rewrite filter_cons, decide_False by (apply Hnone; left).
  apply IH. intros y Hy. apply Hnone. by right.
Qed.

(** What [add_authorizations] stores for the method. *)
Lemma add_authorizations_lookup auths method authorizations :
  add_authorizations auths method authorizations !! method
  = Some match auths !! method with
         | None | Some [] => authorizations
         | Some current => current ++ filter (λ c, c ∉ current) authorizations
         end.
Proof.
  unfold add_authorizations.
  destruct (auths !! method) as [current|]; [|by rewrite lookup_insert_eq].
  destruct (decide (current = [])) as [->|Hne]; rewrite lookup_insert_eq; [done|].
  destruct current; [done|]. do 2 f_equal.
  apply filter_in_ext. tauto.
Qed.

Lemma add_authorizations_insert auths method authorizations :
  ∃ stored, add_authorizations auths method authorizations = <[method := stored]> auths.
Proof.
  unfold add_authorizations.
  destruct (auths !! method) as [current|]; [|by eauto].
  destruct (decide (current = [])); by eauto.
Qed.

Lemma add_authorizations_idempotent auths method authorizations :
  add_authorizations (add_authorizations auths method authorizations)
    method authorizations
  = add_authorizations auths method authorizations.
Proof.
  pose proof (add_authorizations_lookup auths method authorizations) as Hstored.
  destruct (add_authorizations_insert auths method authorizations) as [stored Hins].
  unfold add_authorizations at 1. rewrite Hstored.
  set (new := match auths !! method with
              | None | Some [] => authorizations
              | Some current => current ++ filter (λ c, c ∉ current) authorizations
              end) in *.
  assert (add_authorizations auths method authorizations = <[method := new]> auths)
    as Hnew.
  { rewrite Hins in Hstored |- *. rewrite lookup_insert_eq in Hstored. congruence. }
  rewrite Hnew, !insert_insert_eq.
  destruct (decide (new = [])) as [Hnil|Hne].
  { f_equal. rewrite Hnil. subst new.
    destruct (auths !! method) as [[|c current]|]; try done. }
  f_equal. rewrite filter_none; [by rewrite app_nil_r|].
  intros c Hc [_ Hout]. apply Hout. subst new.
  destruct (auths !! method) as [[|c' current]|]; try done.
  destruct (decide (c ∈ c' :: current)) as [Hin|Hnin].
  - apply elem_of_app. by left.
  - apply elem_of_app. right. by apply list_elem_of_filter.
Qed.

Section MutationProperties.
Context `{!Platform}.

(** The entry that a mutation call works on is still the first one of
    its identity once the call has stored it back. *)
Lemma list_find_identity_insert identity (entries : list AuthEntry.t) index entry auths :
  list_find (λ e, AuthEntry.identity e = Some identity) entries = Some (index, entry) →
  list_find (λ e, AuthEntry.identity e = Some identity)
    (<[index := AuthEntry.set_rpc_method_authorizations entry auths]> entries)
  = Some (index, AuthEntry.set_rpc_method_authorizations entry auths).
Proof.
  intros (Hlook & Hid & Hfirst)%list_find_Some. apply list_find_Some.
  split; [|split].
  - apply list_lookup_insert_eq. by eapply lookup_lt_Some.
  - done.
  - intros j y Hj Hlt. rewrite list_lookup_insert_ne in Hj by lia. by eapply Hfirst.
Qed.

(** C7, amended. A call that targets a reserved process identity or the
    control-connection identity logs the error that the identity cannot
    be modified, hands nothing back to the caller, as a call that
    performs the change does, and leaves the persisted store, like every
    other attribute, unchanged. *)
Theorem privileged_identity_not_modified self identity method capabilities :
  privileged identity →
  let rejected := log_error (cannot_be_modified identity) self in
  add_rpc_authorizations self identity method capabilities = (None, rejected)
  ∧ delete_rpc_authorizations self identity method capabilities = (None, rejected)
  ∧ auth_file rejected = auth_file self
  ∧ _log rejected = _log self ++ [LogError (cannot_be_modified identity)].
Proof.
  intros Hpriv rejected. unfold add_rpc_authorizations, delete_rpc_authorizations.
  by rewrite !decide_True.
Qed.

(** The loop over the requested capabilities changes nothing but the
    log, and sets [any_match] when one of them is in the list. *)
Lemma scan_denied_spec current denied_authorizations method self :
  let scanned := scan_denied current denied_authorizations method self in
  (scanned.1 = true ↔ ∃ c, c ∈ denied_authorizations ∧ c ∈ current)
  ∧ auth_file scanned.2 = auth_file self
  ∧ ∃ errors, _log scanned.2 = _log self ++ errors.
Proof.
  unfold scan_denied.
  assert (∀ any_match self0,
    let scanned :=
      foldl (λ '(any_match, self) rpc_auth,
               if decide (rpc_auth ∉ current)
               then (any_match, log_error (not_authorized rpc_auth method) self)
               else (true, self))
        (any_match, self0) denied_authorizations in
    (scanned.1 = true
     ↔ any_match = true ∨ ∃ c, c ∈ denied_authorizations ∧ c ∈ current)
    ∧ auth_file scanned.2 = auth_file self0
    ∧ ∃ errors, _log scanned.2 = _log self0 ++ errors) as Hgen.
  { induction denied_authorizations as [|c denied IH]; intros any_match self0.
    - simpl. split; [|split; [done|by exists []; rewrite app_nil_r]].
      split; [by left|]. intros [?|(c & ?%elem_of_nil & _)]; done.
    - cbn [foldl]. destruct (decide (c ∉ current)) as [Hout|Hin].
      + destruct (IH any_match (log_error (not_authorized c method) self0))
          as (Hany & Hfile & errors & Hlog).
        split; [|split; [done|]].
        * rewrite Hany. split.
          -- intros [?|(c' & Hc' & Hin')]; [by left|].
             right. exists c'. split; [by right|done].
          -- intros [?|(c' & [->|Hc']%elem_of_cons & Hin')];
               [by left|done|right; by exists c'].
        * exists (LogError (not_authorized c method) :: errors).
          rewrite Hlog. simpl. by rewrite <-app_assoc.
      + destruct (IH true self0) as (Hany & Hfile & errors & Hlog).
        split; [|split; [done|by exists errors]].
        rewrite Hany. split; [|by intros; left].
        intros _. right. exists c. split; [left|].
        by apply dec_stable. }
  destruct (Hgen false self) as (Hany & Hfile & Hlog).
  split; [|done]. rewrite Hany. split; [by intros [?|?]|by right].
Qed.

(** C8. On the first allow entry of an identity that is open to
    modification: when the method has a non-empty list and the request
    removes every capability of it, the list stored for the method is the
    sentinel, one empty string, not the empty list; when none of the
    requested capabilities is in the method's list, the call logs an error
    (no matching capability, or no capability or no such method when the
    method has none) and leaves the store, and so the entry, unchanged. *)
Theorem delete_rpc_authorizations_sentinel
    self identity method denied_authorizations index entry :
  ¬ privileged identity →
  list_find (λ e, AuthEntry.identity e = Some identity)
    (AuthFile.read_allow_entries (auth_file self)) = Some (index, entry) →
  let auths := AuthEntry.rpc_method_authorizations entry in
  let result := (delete_rpc_authorizations self identity method denied_authorizations).2 in
  (∀ current,
     auths !! method = Some current → current ≠ [] →
     (∀ c, c ∈ current → c ∈ denied_authorizations) →
     stored_capabilities result identity method = Some [""]
     ∧ auth_file result
       = AuthFile.update_by_index
           (AuthEntry.set_rpc_method_authorizations entry (<[method := [""]]> auths))
           index (auth_file self))
  ∧ ((∀ current c,
        auths !! method = Some current → c ∈ denied_authorizations → c ∉ current) →
     auth_file result = auth_file self
     ∧ stored_capabilities result identity method = auths !! method
     ∧ last (_log result)
       = Some (LogError match auths !! method with
                        | None => no_such_method identity method
                        | Some [] => no_capabilities identity method
                        | Some _ => no_matching method
                        end)).
Proof.
  intros Hpriv Hfind auths result. subst result.
  assert (stored_capabilities self identity method = auths !! method) as Hstored.
  { unfold stored_capabilities. by rewrite Hfind. }
  unfold delete_rpc_authorizations.
  rewrite decide_False, Hfind by done. fold auths.
  destruct (auths !! method) as [current|] eqn:Hmethod; cycle 1.
  { split; [done|]. intros _. simpl. split; [done|]. split; [done|].
    by rewrite last_snoc. }
  destruct (decide (current = [])) as [->|Hne].
  { split; [by intros ? [= <-] ?|]. intros _. simpl.
    split; [done|]. split; [done|]. by rewrite last_snoc. }
  pose proof (scan_denied_spec current denied_authorizations method self)
    as (Hany & Hfile & errors & Hlog).
  destruct (scan_denied current denied_authorizations method self)
    as [any_match scanned]. simpl in Hany, Hfile, Hlog.
  split.
  - intros ? [= <-] _ Hall.
    assert (any_match = true) as ->.
    { apply Hany. destruct current as [|c current]; [done|].
      exists c. split; [apply Hall|]; left. }
    assert (remaining current denied_authorizations = [""]) as ->.
    { unfold remaining. rewrite filter_none; [done|].
      intros c Hc Hout. by apply Hout, Hall. }
    simpl. rewrite Hfile. split; [|done].
    unfold stored_capabilities. simpl.
    rewrite (list_find_identity_insert identity _ index entry) by done.
    simpl. by rewrite lookup_insert_eq.
  - intros Hnone.
    assert (any_match = false) as ->.
    { destruct any_match; [|done].
      destruct (proj1 Hany eq_refl) as (c & Hc & Hin).
      by apply (Hnone current c) in Hc. }
    simpl. split; [done|]. split.
    + rewrite <-Hstored. unfold stored_capabilities. simpl. by rewrite Hfile.
    + rewrite last_snoc. by destruct current.
Qed.

Lemma add_rpc_authorizations_stored self identity method authorizations index entry :
  ¬ privileged identity →
  list_find (λ e, AuthEntry.identity e = Some identity)
    (AuthFile.read_allow_entries (auth_file self)) = Some (index, entry) →
  stored_capabilities (add_rpc_authorizations self identity method authorizations).2
    identity method
  = Some match AuthEntry.rpc_method_authorizations entry !! method with
         | None | Some [] => authorizations
         | Some current => current ++ filter (λ c, c ∉ current) authorizations
         end.
Proof.
  intros Hpriv Hfind. unfold add_rpc_authorizations.
  rewrite decide_False, Hfind by done. unfold stored_capabilities. simpl.
  rewrite (list_find_identity_insert identity _ index entry) by done.
  simpl. apply add_authorizations_lookup.
Qed.

(** C9, amended. Applying [add_rpc_authorizations] twice with the same
    list leaves the store, and so the list stored for the method, as
    applying it once does. On a method that has a non-empty list, the
    given capabilities that are not in that list are appended to it, in
    the order given; on a method that has no list or an empty one, the
    given list is stored. The list stored has no duplicates when neither
    the given list nor the list stored before has any. *)
Theorem add_rpc_authorizations_idempotent :
  (∀ self identity method authorizations,
     let once := (add_rpc_authorizations self identity method authorizations).2 in
     let twice := (add_rpc_authorizations once identity method authorizations).2 in
     auth_file twice = auth_file once
     ∧ stored_capabilities twice identity method
       = stored_capabilities once identity method)
  ∧ (∀ self identity method authorizations index entry,
       ¬ privileged identity →
       list_find (λ e, AuthEntry.identity e = Some identity)
         (AuthFile.read_allow_entries (auth_file self)) = Some (index, entry) →
       let stored :=
         match AuthEntry.rpc_method_authorizations entry !! method with
         | None | Some [] => authorizations
         | Some current => current ++ filter (λ c, c ∉ current) authorizations
         end in
       stored_capabilities
         (add_rpc_authorizations self identity method authorizations).2
         identity method = Some stored
       ∧ (NoDup authorizations →
          (∀ current,
             AuthEntry.rpc_method_authorizations entry !! method = Some current →
             NoDup current) →
          NoDup stored)).
Proof.
  split.
  - intros self identity method authorizations once twice.
    assert (auth_file twice = auth_file once) as Hfile.
    { subst once twice. unfold add_rpc_authorizations.
      destruct (decide (privileged identity)) as [Hpriv|Hpriv]; simpl; [done|].
      destruct (list_find _ (AuthFile.read_allow_entries (auth_file self)))
        as [[index entry]|] eqn:Hfind; simpl.
      - rewrite (list_find_identity_insert identity _ index entry) by done.
        simpl. unfold AuthFile.update_by_index. simpl.
        by rewrite add_authorizations_idempotent, list_insert_insert_eq.
      - by rewrite Hfind. }
    split; [done|]. unfold stored_capabilities. by rewrite Hfile.
  - intros self identity method authorizations index entry Hpriv Hfind stored.
    split; [by eapply add_rpc_authorizations_stored|].
    intros Hgiven Hbefore. subst stored.
    destruct (AuthEntry.rpc_method_authorizations entry !! method)
      as [[|c current]|]; [done| |done].
    apply NoDup_app. split; [by apply Hbefore|]. split; [|by apply NoDup_filter].
    by intros x Hx [Hout _]%list_elem_of_filter.
Qed.

End MutationProperties.

(** ** The operator actions *)

Lemma report_fields (st : acting) :
  auth_file (report st) = auth_file st.2
  ∧ _auth_pending (report st) = _auth_pending st.2
  ∧ _auth_approved (report st) = _auth_approved st.2
  ∧ _auth_denied (report st) = _auth_denied st.2.
Proof.
  unfold report. by destruct st as [[val_err|] self].
Qed.

Lemma list_find_user_id user_id pre pending post :
  Cred.user_id pending = user_id → user_id ∉ user_ids pre →
  list_find (λ p, user_id = Cred.user_id p) (pre ++ pending :: post)
  = Some (length pre, pending).
Proof.
  intros Hid Hpre. apply list_find_Some. split; [|split; [done|]].
  - by rewrite lookup_app_r, Nat.sub_diag by lia.
  - intros j p Hj Hlt Hp. apply Hpre. rewrite lookup_app_l in Hj by done.
    unfold user_ids. rewrite Hp. apply list_elem_of_fmap_2.
    by eapply list_elem_of_lookup_2.
Qed.

Lemma list_find_no_user_id user_id (queue : list Cred.t) :
  user_id ∉ user_ids queue →
  list_find (λ p, user_id = Cred.user_id p) queue = None.
Proof.
  intros Hout. apply list_find_None, Forall_forall. intros p Hp Hid.
  apply Hout. unfold user_ids. rewrite Hid. by apply list_elem_of_fmap_2.
Qed.

Lemma take_pending_absent persist user_id (st : acting) :
  user_id ∉ user_ids (_auth_pending st.2) → take_pending persist user_id st = st.
Proof.
  intros Hout. destruct st as [val_err self]. unfold take_pending.
  by rewrite list_find_no_user_id.
Qed.

Lemma update_auth_entry_fields pending is_allow self :
  _auth_pending (_update_auth_entry pending is_allow self) = _auth_pending self
  ∧ _auth_approved (_update_auth_entry pending is_allow self) = _auth_approved self
  ∧ _auth_denied (_update_auth_entry pending is_allow self) = _auth_denied self.
Proof. unfold _update_auth_entry. by destruct (AuthFile.add _ _ _). Qed.

(** A loop over a resolved queue keeps what each of its steps keeps. *)
Lemma for_user_keeps (kept : AuthService.t → Prop) queue user_id body (st : acting) :
  kept st.2 → (∀ p self, kept self → kept (body p self)) →
  kept (for_user queue user_id body st).2.
Proof.
  intros Hst Hbody. unfold for_user. revert st Hst.
  induction queue as [|p queue IH]; intros st Hst; [done|].
  simpl. apply IH. destruct (decide (user_id = Cred.user_id p)); [|done].
  simpl. by apply Hbody.
Qed.

Lemma entries_remove is_allow credentials file :
  AuthFile.entries is_allow (AuthFile.remove_by_credentials credentials is_allow file)
  = filter (λ e, AuthEntry.credentials e ≠ credentials) (AuthFile.entries is_allow file).
Proof. by destruct is_allow. Qed.

Lemma entries_remove_other is_allow credentials file :
  AuthFile.entries (negb is_allow)
    (AuthFile.remove_by_credentials credentials is_allow file)
  = AuthFile.entries (negb is_allow) file.
Proof. by destruct is_allow. Qed.

(** The loop of [delete_authorization_failure] over a resolved queue
    removes from its list of the store the entries with the credentials
    of a record of the user id, and nothing else. *)
Lemma for_user_remove queue user_id is_allow (st : acting) :
  let self' :=
    (for_user queue user_id
       (λ p, _remove_auth_entry (Cred.credentials p) is_allow) st).2 in
  (∀ entry,
     entry ∈ AuthFile.entries is_allow (auth_file self')
     ↔ entry ∈ AuthFile.entries is_allow (auth_file st.2)
       ∧ ∀ p, p ∈ queue → user_id = Cred.user_id p →
              AuthEntry.credentials entry ≠ Cred.credentials p)
  ∧ AuthFile.entries (negb is_allow) (auth_file self')
    = AuthFile.entries (negb is_allow) (auth_file st.2)
  ∧ _auth_pending self' = _auth_pending st.2
  ∧ _auth_approved self' = _auth_approved st.2
  ∧ _auth_denied self' = _auth_denied st.2.
Proof.
  unfold for_user. revert st.
  induction queue as [|p queue IH]; intros st; cbn [foldl].
  - split; [|done]. intros entry. split; [|tauto].
    intros Hin. split; [done|]. by intros p ?%elem_of_nil.
  - destruct (IH (if decide (user_id = Cred.user_id p)
                  then (None, _remove_auth_entry (Cred.credentials p) is_allow st.2)
                  else st))
      as (Hentries & Hother & Hpen & Happ & Hden). clear IH.
    destruct (decide (user_id = Cred.user_id p)) as [Hid|Hid]; simpl in *.
    + split; [|split; [|done]].
      * intros entry. rewrite Hentries, entries_remove, list_elem_of_filter. split.
        -- intros [[Hne Hin] Hq]. split; [done|].
           intros q [->|Hq']%elem_of_cons ?; [done|by apply Hq].
        -- intros [Hin Hq]. split; [split; [|done]|].
           ++ apply Hq; [left|done].
           ++ intros q Hq' ?. apply Hq; [by right|done].
      * by rewrite Hother, entries_remove_other.
    + split; [|done]. intros entry. rewrite Hentries. split.
      * intros [Hin Hq]. split; [done|].
        intros q [->|Hq']%elem_of_cons ?; [done|by apply Hq].
      * intros [Hin Hq]. split; [done|]. intros q Hq' ?. apply Hq; [by right|done].
Qed.

Lemma elem_of_auth_list record entries :
  record ∈ auth_list entries
  ↔ ∃ entry, entry ∈ entries ∧ record = queue_record entry
             ∧ AuthEntry.address entry ≠ Unset.
Proof.
  unfold auth_list. rewrite list_elem_of_filter. split.
  - intros [Haddr (entry & -> & Hin)%list_elem_of_fmap]. by exists entry.
  - intros (entry & Hin & -> & Haddr). split; [done|].
    by apply list_elem_of_fmap_2.
Qed.

Section OperatorProperties.
Context `{!Platform}.

Lemma approve_fields self user_id pre pending post :
  _auth_pending self = pre ++ pending :: post →
  Cred.user_id pending = user_id → user_id ∉ user_ids pre →
  let approved := approve_authorization_failure self user_id in
  _auth_pending approved = pre ++ post
  ∧ (is_Some (AuthFile.add (new_entry pending) true (auth_file self)) →
     new_entry pending ∈ AuthFile.allow (auth_file approved)).
Proof.
  intros Hpending Hid Hpre approved. subst approved.
  unfold approve_authorization_failure.
  set (val_err := if _certs self then approve_csr user_id else None).
  set (st := take_pending true user_id (val_err, self)).
  assert (_auth_pending st.2 = pre ++ post
          ∧ (is_Some (AuthFile.add (new_entry pending) true (auth_file self)) →
             new_entry pending ∈ AuthFile.allow (auth_file st.2))) as [Hpen Hentry].
  { subst st. unfold take_pending.
    rewrite Hpending, (list_find_user_id user_id pre pending post) by done.
    cbn [snd _auth_pending set_auth_pending auth_file].
    destruct (update_auth_entry_fields pending true self) as (-> & _ & _).
    rewrite Hpending, delete_middle. split; [done|].
    intros [file Hadd]. unfold _update_auth_entry. rewrite Hadd. simpl.
    unfold AuthFile.add in Hadd. case_bool_decide; [done|].
    injection Hadd as <-. simpl. apply elem_of_app. right. left. }
  cbv zeta. rewrite !(proj1 (report_fields _)).
  destruct (report_fields
    (for_user (_auth_denied st.2) user_id
       (λ _ self0, set_auth_file
          (AuthFile.approve_deny_credential user_id true (auth_file self0)) self0)
       st)) as (_ & -> & _). split.
  - by apply (for_user_keeps (λ s, _auth_pending s = pre ++ post)).
  - intros Hadd.
    apply (for_user_keeps
             (λ s, new_entry pending ∈ AuthFile.allow (auth_file s))); [by apply Hentry|].
    intros _ s Hin. simpl. apply elem_of_app. by left.
Qed.

(** Delete on a user id that is not pending, once the resolved queues
    were rebuilt from the store. *)
Lemma delete_after_reload self user_id :
  user_id ∉ user_ids (_auth_pending self) →
  _auth_approved self = auth_list (AuthFile.allow (auth_file self)) →
  _auth_denied self = auth_list (AuthFile.deny (auth_file self)) →
  let deleted := delete_authorization_failure self user_id in
  _auth_pending deleted = _auth_pending self
  ∧ (∀ entry, entry ∈ AuthFile.allow (auth_file deleted) →
       entry ∈ AuthFile.allow (auth_file self)
       ∧ (AuthEntry.user_id entry = user_id → AuthEntry.address entry = Unset))
  ∧ (∀ entry, entry ∈ AuthFile.deny (auth_file deleted) →
       entry ∈ AuthFile.deny (auth_file self)
       ∧ (AuthEntry.user_id entry = user_id → AuthEntry.address entry = Unset)).
Proof.
  intros Hpen Happ Hden deleted. subst deleted.
  unfold delete_authorization_failure.
  set (val_err := if _certs self then delete_csr user_id else None).
  rewrite !(take_pending_absent _ user_id (val_err, self)) by exact Hpen.
  cbn [snd].
  set (st1 := for_user (_auth_approved self) user_id
                (λ p, _remove_auth_entry (Cred.credentials p) true) (val_err, self)).
  pose proof (for_user_remove (_auth_approved self) user_id true (val_err, self))
    as (Hallow1 & Hdeny1 & Hpen1 & _ & Hden1).
  fold st1 in Hallow1, Hdeny1, Hpen1, Hden1. cbn [snd negb] in *.
  rewrite Hden1.
  set (st2 := for_user (_auth_denied self) user_id
                (λ p, _remove_auth_entry (Cred.credentials p) false) st1).
  pose proof (for_user_remove (_auth_denied self) user_id false st1)
    as (Hdeny2 & Hallow2 & Hpen2 & _ & _).
  fold st2 in Hdeny2, Hallow2, Hpen2. cbn [snd negb] in *.
  destruct (report_fields st2) as (-> & -> & _ & _).
  unfold AuthFile.entries in *.
  split; [congruence|]. split.
  - intros entry Hin. rewrite Hallow2 in Hin. apply Hallow1 in Hin as [Hin Hcreds].
    split; [done|]. intros Hid.
    destruct (decide (AuthEntry.address entry = Unset)) as [|Haddr]; [done|].
    exfalso. apply (Hcreds (queue_record entry)); [|by rewrite <-Hid|done].
    rewrite Happ. apply elem_of_auth_list. by exists entry.
  - intros entry Hin. apply Hdeny2 in Hin as [Hin Hcreds]. rewrite Hdeny1 in Hin.
    split; [done|]. intros Hid.
    destruct (decide (AuthEntry.address entry = Unset)) as [|Haddr]; [done|].
    exfalso. apply (Hcreds (queue_record entry)); [|by rewrite <-Hid|done].
    rewrite Hden. apply elem_of_auth_list. by exists entry.
Qed.

(** C4, amended. For a user id with one pending record, whose address is
    populated: Approve, a reload of the store, Delete and a reload leave
    the user id in none of the pending, approved and denied queues, and
    the entry that Approve persisted, in the store after Approve when the
    store accepted it, is not in the store after Delete. *)
Theorem approve_reload_delete_reload self user_id pre pending post :
  _auth_pending self = pre ++ pending :: post →
  Cred.user_id pending = user_id →
  user_id ∉ user_ids pre → user_id ∉ user_ids post →
  Cred.address pending ≠ Unset →
  let approved := approve_authorization_failure self user_id in
  let reloaded := (read_auth_file approved).1 in
  let deleted := delete_authorization_failure reloaded user_id in
  let final := (read_auth_file deleted).1 in
  (is_Some (AuthFile.add (new_entry pending) true (auth_file self)) →
   new_entry pending ∈ AuthFile.allow (auth_file approved))
  ∧ (new_entry pending ∉ AuthFile.allow (auth_file deleted))
  ∧ (user_id ∉ user_ids (_auth_pending final))
  ∧ (user_id ∉ user_ids (_auth_approved final))
  ∧ (user_id ∉ user_ids (_auth_denied final)).
Proof.
  intros Hpending Hid Hpre Hpost Haddr approved reloaded deleted final.
  destruct (approve_fields self user_id pre pending post Hpending Hid Hpre)
    as [Hpen Hentry]. fold approved in Hpen, Hentry.
  assert (user_id ∉ user_ids (pre ++ post)) as Hout.
  { unfold user_ids. rewrite map_app. by apply not_elem_of_app. }
  destruct (delete_after_reload reloaded user_id) as (Hpen' & Hallow & Hdeny);
    [by subst reloaded; simpl; rewrite Hpen|done|done|].
  fold deleted in Hpen', Hallow, Hdeny.
  split; [done|]. split; [|split; [|split]].
  - intros Hin. apply Hallow in Hin as [_ Hunset]. by apply Haddr, Hunset.
  - subst final reloaded. simpl. rewrite Hpen'. simpl. by rewrite Hpen.
  - subst final. simpl. unfold user_ids.
    intros (record & Hu & (entry & Hin & -> & Hpop)%elem_of_auth_list)%list_elem_of_fmap.
    apply Hallow in Hin as [_ Hunset]. by apply Hpop, Hunset.
  - subst final. simpl. unfold user_ids.
    intros (record & Hu & (entry & Hin & -> & Hpop)%elem_of_auth_list)%list_elem_of_fmap.
    apply Hdeny in Hin as [_ Hunset]. by apply Hpop, Hunset.
Qed.

End OperatorProperties.

(** * Further properties *)

(** ** [_check_token] *)

Lemma list_remove_middle tk pre tail :
  tk ∉ pre → list_remove tk (pre ++ tk :: tail) = Some (pre ++ tail).
Proof.
  induction pre as [|y pre IH]; intros Hout; simpl.
  - by rewrite decide_True.
  - rewrite decide_False by (intros ->; apply Hout; left).
    rewrite IH; [done|]. intros Hin. apply Hout. by right.
Qed.

(** X1. [_check_token] never raises and returns the tokens of [actual]
    that are not in [allowed], in their order, however often a token
    occurs. *)
Theorem check_token_filter actual allowed :
  _check_token actual allowed = Returned (filter (λ tk, tk ∉ allowed) actual).
Proof.
  unfold _check_token.
  enough (∀ rest seen,
    foldl (λ pending tk,
             match pending with
             | Returned pending =>
                 if decide (tk ∈ allowed) then
                   match list_remove tk pending with
                   | Some pending => Returned pending
                   | None => Raised ValueError
                   end
                 else Returned pending
             | Raised e => Raised e
             end)
      (Returned (filter (λ tk, tk ∉ allowed) seen ++ rest)) rest
    = Returned (filter (λ tk, tk ∉ allowed) (seen ++ rest))) as Hgen.
  { apply (Hgen actual []). }
  induction rest as [|tk rest IH]; intros seen.
  - by rewrite !app_nil_r.
  - cbn [foldl]. destruct (decide (tk ∈ allowed)) as [Hin|Hout].
    + rewrite list_remove_middle.
      * replace (seen ++ tk :: rest) with ((seen ++ [tk]) ++ rest)
          by by rewrite <-app_assoc.
        rewrite <-IH. do 2 f_equal.
        rewrite filter_app, filter_cons, decide_False by tauto.
        by rewrite filter_nil, app_nil_r.
      * by intros [? _]%list_elem_of_filter.
    + replace (seen ++ tk :: rest) with ((seen ++ [tk]) ++ rest)
        by by rewrite <-app_assoc.
      rewrite <-IH. do 2 f_equal.
      rewrite filter_app, filter_cons, decide_True by done.
      by rewrite filter_nil, <-app_assoc.
Qed.

(** ** The query operations *)

Lemma user_to_caps_lookup self user_id :
  get_user_to_capabilities self !! user_id
  = AuthEntry.capabilities
    <$> last (filter (λ entry, AuthEntry.user_id entry = user_id) (auth_entries self)).
Proof.
  unfold get_user_to_capabilities.
  enough (∀ entries (user_to_caps : gmap string (list string)),
    foldl (λ user_to_caps entry,
             <[AuthEntry.user_id entry := AuthEntry.capabilities entry]> user_to_caps)
      user_to_caps entries !! user_id
    = match last (filter (λ entry, AuthEntry.user_id entry = user_id) entries) with
      | Some entry => Some (AuthEntry.capabilities entry)
      | None => user_to_caps !! user_id
      end) as Hgen.
  { rewrite Hgen, lookup_empty. by destruct (last _). }
  induction entries as [|entry entries IH]; intros user_to_caps; [done|].
  cbn [foldl]. rewrite IH, filter_cons.
  destruct (decide (AuthEntry.user_id entry = user_id)) as [<-|Hne].
  - rewrite last_cons, lookup_insert_eq. by destruct (last _).
  - by rewrite lookup_insert_ne.
Qed.

(** X2. In the mapping of [get_user_to_capabilities] a user id maps to the
    capabilities of the last entry of the snapshot that has it, and a user
    id of no entry is not a key. *)
Theorem get_user_to_capabilities_last self user_id :
  get_user_to_capabilities self !! user_id
  = AuthEntry.capabilities
    <$> last (filter (λ entry, AuthEntry.user_id entry = user_id) (auth_entries self)).
Proof. apply user_to_caps_lookup. Qed.

Section QueryProperties.
Context `{!Platform} `{!UserCodec}.

Lemma find_first {A} (f : A → bool) pre x post :
  Forall (λ y, f y = false) pre → f x = true →
  List.find f (pre ++ x :: post) = Some x.
Proof. intros Hpre Hx. rewrite find_skip by done. simpl. by rewrite Hx. Qed.

Lemma find_none {A} (f : A → bool) l :
  Forall (λ y, f y = false) l → List.find f l = None.
Proof. induction 1 as [|y l Hy _ IH]; simpl; [done|]. by rewrite Hy. Qed.

(** X3. [get_capabilities], [get_groups] and [get_roles] never raise; for
    a user id that no entry of the snapshot has and whose parts, when it
    decodes, no entry matches, each returns the empty list. *)
Theorem get_authorizations_unknown self user_id :
  (∃ capabilities, get_capabilities self user_id = Returned capabilities)
  ∧ (∃ groups, get_groups self user_id = Returned groups)
  ∧ (∃ roles, get_roles self user_id = Returned roles)
  ∧ (Forall (λ entry,
               AuthEntry.user_id entry ≠ user_id
               ∧ ∀ domain address mechanism credentials,
                   load_user user_id = Some (domain, address, mechanism, credentials) →
                   AuthEntry.match_ entry domain address mechanism [credentials] = false)
       (auth_entries self) →
     get_authorizations self user_id = None
     ∧ get_capabilities self user_id = Returned []
     ∧ get_groups self user_id = Returned []
     ∧ get_roles self user_id = Returned []).
Proof.
  unfold get_capabilities, get_groups, get_roles, _get_authorizations.
  split; [|split; [|split]].
  1-3: destruct (get_authorizations self user_id) as [[[c g] r]|]; by eauto.
  intros Hnone.
  assert (get_authorizations self user_id = None) as ->; [|done].
  unfold get_authorizations. rewrite find_none; [done|].
  eapply Forall_impl; [exact Hnone|]. intros entry [Hid Hparts].
  unfold answers. rewrite bool_decide_eq_false_2 by done. simpl.
  destruct (load_user user_id) as [[[[d a] m] c]|]; [|done]. by apply Hparts.
Qed.

Lemma entry_authorizations self entry :
  NoDup (map AuthEntry.user_id (auth_entries self)) →
  entry ∈ auth_entries self →
  load_user (AuthEntry.user_id entry) = None →
  get_capabilities self (AuthEntry.user_id entry)
  = Returned (AuthEntry.capabilities entry)
  ∧ get_groups self (AuthEntry.user_id entry) = Returned (AuthEntry.groups entry)
  ∧ get_roles self (AuthEntry.user_id entry) = Returned (AuthEntry.roles entry)
  ∧ get_user_to_capabilities self !! AuthEntry.user_id entry
    = Some (AuthEntry.capabilities entry).
Proof.
  intros Hnodup Hin Hcodec.
  apply list_elem_of_split in Hin as (pre & post & Hsplit).
  rewrite Hsplit, map_app in Hnodup. simpl in Hnodup.
  apply NoDup_app in Hnodup as (_ & Hpre & Hpost).
  apply NoDup_cons in Hpost as [Hpost _].
  assert (∀ e, e ∈ pre → AuthEntry.user_id e ≠ AuthEntry.user_id entry) as Hpre'.
  { intros e He Heq. apply (Hpre (AuthEntry.user_id e)).
    - by apply list_elem_of_fmap_2.
    - rewrite Heq. left. }
  assert (∀ e, e ∈ post → AuthEntry.user_id e ≠ AuthEntry.user_id entry) as Hpost'.
  { intros e He Heq. apply Hpost. rewrite <-Heq. by apply list_elem_of_fmap_2. }
  assert (get_authorizations self (AuthEntry.user_id entry)
          = Some (AuthEntry.capabilities entry, AuthEntry.groups entry,
                  AuthEntry.roles entry)) as Hget.
  { unfold get_authorizations. rewrite Hsplit, find_first; [done| |].
    - apply Forall_forall. intros e He. unfold answers. rewrite Hcodec.
      rewrite bool_decide_eq_false_2; [done|]. by apply Hpre'.
    - unfold answers. by rewrite bool_decide_eq_true_2. }
  unfold get_capabilities, get_groups, get_roles, _get_authorizations.
  rewrite Hget. repeat split; try done.
  rewrite user_to_caps_lookup, Hsplit, filter_app, filter_cons.
  rewrite decide_True by done.
  rewrite (filter_none _ post) by (intros e He; by apply Hpost').
  by rewrite last_snoc.
Qed.

(** X4. When the user ids of the snapshot are distinct, the capabilities,
    groups and roles looked up for the user id of an entry that
    [load_user] does not decode are those of that entry, and the
    capabilities are the ones that [get_user_to_capabilities] gives for
    that user id. *)
Theorem get_authorizations_of_entry self entry :
  NoDup (map AuthEntry.user_id (auth_entries self)) →
  entry ∈ auth_entries self →
  load_user (AuthEntry.user_id entry) = None →
  get_capabilities self (AuthEntry.user_id entry)
  = Returned (AuthEntry.capabilities entry)
  ∧ get_groups self (AuthEntry.user_id entry) = Returned (AuthEntry.groups entry)
  ∧ get_roles self (AuthEntry.user_id entry) = Returned (AuthEntry.roles entry)
  ∧ get_user_to_capabilities self !! AuthEntry.user_id entry
    = Some (AuthEntry.capabilities entry).
Proof. apply entry_authorizations. Qed.

Lemma find_some_elem {A} (f : A → bool) (l : list A) x :
  List.find f l = Some x → x ∈ l ∧ f x = true.
Proof.
  induction l as [|y l IH]; simpl; [done|].
  destruct (f y) eqn:Hy.
  - intros [= ->]. split; [left|done].
  - intros [Hin Hx]%IH. split; [by right|done].
Qed.

(** X23. When the user ids of the snapshot are distinct, the user id that
    [authenticate] returns for an attempt matched by an entry with a user
    id of its own, which [load_user] does not decode, gives back through
    [get_capabilities], [get_groups] and [get_roles] the capabilities,
    groups and roles of that entry. *)
Theorem authenticated_user_authorizations
    self domain address mechanism credentials entry :
  NoDup (map AuthEntry.user_id (auth_entries self)) →
  first_match (auth_entries self) domain address mechanism credentials = Some entry →
  Py.truthy (AuthEntry.user_id entry) = true →
  load_user (AuthEntry.user_id entry) = None →
  authenticate self domain address mechanism credentials
  = Returned (Some (AuthEntry.user_id entry))
  ∧ get_capabilities self (AuthEntry.user_id entry)
    = Returned (AuthEntry.capabilities entry)
  ∧ get_groups self (AuthEntry.user_id entry) = Returned (AuthEntry.groups entry)
  ∧ get_roles self (AuthEntry.user_id entry) = Returned (AuthEntry.roles entry).
Proof.
  intros Hnodup Hfirst Hset Hcodec.
  apply find_some_elem in Hfirst as Hin. destruct Hin as [Hin _].
  destruct (entry_authorizations self entry Hnodup Hin Hcodec) as (Hc & Hg & Hr & _).
  split; [|done]. unfold authenticate, resolved_user. by rewrite Hfirst, Hset.
Qed.

End QueryProperties.

(** ** The self-report of an agent *)

(** What the loop over the reported methods leaves. *)
Lemma merge_reported_spec auths rpc_methods :
  let '(auths', updated_rpc_methods, is_updated) := merge_reported auths rpc_methods in
  (∀ method,
     auths' !! method
     = match rpc_methods !! method with
       | Some reported => Some (merged (auths !! method) reported)
       | None => auths !! method
       end)
  ∧ (∀ method,
       updated_rpc_methods !! method
       = merged (auths !! method) <$> rpc_methods !! method)
  ∧ (is_updated = true
     ↔ ∃ method reported,
         rpc_methods !! method = Some reported
         ∧ (auths !! method = None ∨ auths !! method = Some [])).
Proof.
  unfold merge_reported.
  apply (map_fold_weak_ind
    (λ (r : merging) (m : gmap string (list string)),
       let '(auths', updated_rpc_methods, is_updated) := r in
       (∀ method,
          auths' !! method
          = match m !! method with
            | Some reported => Some (merged (auths !! method) reported)
            | None => auths !! method
            end)
       ∧ (∀ method,
            updated_rpc_methods !! method = merged (auths !! method) <$> m !! method)
       ∧ (is_updated = true
          ↔ ∃ method reported,
              m !! method = Some reported
              ∧ (auths !! method = None ∨ auths !! method = Some [])))).
  - split; [|split].
    + intros method. by rewrite lookup_empty.
    + intros method. by rewrite !lookup_empty.
    + split; [done|]. intros (method & reported & Hm & _).
      by rewrite lookup_empty in Hm.
  - intros i x m [[auths' updated] is_updated] Hfresh (Hauths & Hupdated & Hflag).
    assert (auths' !! i = auths !! i) as Hi by (by rewrite Hauths, Hfresh).
    assert (Hfill : ∀ y, y = merged (auths !! i) x →
      (∀ method,
         (<[i := y]> auths') !! method
         = match <[i := x]> m !! method with
           | Some reported => Some (merged (auths !! method) reported)
           | None => auths !! method
           end)
      ∧ (∀ method,
           (<[i := y]> (<[i := x]> updated)) !! method
           = merged (auths !! method) <$> <[i := x]> m !! method)).
    { intros y ->. split; intros method.
      - destruct (decide (i = method)) as [<-|Hne].
        + by rewrite !lookup_insert_eq.
        + rewrite !lookup_insert_ne by done. apply Hauths.
      - destruct (decide (i = method)) as [<-|Hne].
        + by rewrite !lookup_insert_eq.
        + rewrite !lookup_insert_ne by done. apply Hupdated. }
    assert (Hflag' : ∀ b : bool,
      (b = true ↔ is_updated = true ∨ auths !! i = None ∨ auths !! i = Some []) →
      (b = true
       ↔ ∃ method reported,
           <[i := x]> m !! method = Some reported
           ∧ (auths !! method = None ∨ auths !! method = Some []))).
    { intros b ->. rewrite Hflag. split.
      - intros [(method & reported & Hm & Hold)|Hold].
        + exists method, reported. split; [|done].
          rewrite lookup_insert_ne; [done|]. intros <-. by rewrite Hfresh in Hm.
        + exists i, x. by rewrite lookup_insert_eq.
      - intros (method & reported & Hm & Hold).
        destruct (decide (i = method)) as [<-|Hne]; [by right|].
        rewrite lookup_insert_ne in Hm by done. left. by exists method, reported. }
    unfold merge_method.
    destruct (auths !! i) as [[|c l]|] eqn:Hold; rewrite Hi.
    + (* the entry has an empty list *)
      rewrite (lookup_total_correct _ _ _ Hi), decide_True by done.
      cbv beta iota zeta.
      rewrite (lookup_total_correct (<[i:=x]> auths') i x) by apply lookup_insert_eq.
      rewrite decide_False by (intros Hne; by apply Hne).
      destruct (Hfill x eq_refl) as [Ha Hu].
      split; [done|]. split.
      * intros method. rewrite <-Hu.
        destruct (decide (i = method)) as [<-|Hne];
          [by rewrite !lookup_insert_eq|by rewrite !lookup_insert_ne].
      * apply Hflag'. split; [by eauto|done].
    + (* the entry has a non-empty list *)
      rewrite (lookup_total_correct _ _ _ Hi), decide_False by done.
      cbv beta iota zeta. rewrite (lookup_total_correct _ _ _ Hi).
      destruct (Hfill (c :: l) eq_refl) as [Ha Hu].
      split; [|split].
      * intros method. rewrite <-Ha.
        destruct (decide (i = method)) as [<-|Hne];
          [by rewrite lookup_insert_eq|by rewrite lookup_insert_ne].
      * destruct (decide (c :: l ≠ x)) as [Hne|Heq]; [done|].
        apply dec_stable in Heq. subst x. intros method. rewrite <-Hu.
        destruct (decide (i = method)) as [<-|Hne];
          [by rewrite !lookup_insert_eq|by rewrite !lookup_insert_ne].
      * apply Hflag'. split; [by left|]. intros [?|[?|?]]; done.
    + (* the entry does not have the method *)
      rewrite (lookup_total_correct (<[i:=x]> auths') i x) by apply lookup_insert_eq.
      destruct (Hfill x eq_refl) as [Ha Hu].
      destruct (decide (x = [])) as [->|Hx]; cbv beta iota zeta.
      * rewrite (lookup_total_correct (<[i:=[]]> (<[i:=[]]> auths')) i [])
          by apply lookup_insert_eq.
        rewrite decide_False by (intros Hne; by apply Hne).
        split; [|split].
        -- intros method. by rewrite insert_insert_eq.
        -- intros method. rewrite <-Hu.
           destruct (decide (i = method)) as [<-|Hne];
             [by rewrite !lookup_insert_eq|by rewrite !lookup_insert_ne].
        -- apply Hflag'. split; [by eauto|done].
      * rewrite (lookup_total_correct (<[i:=x]> auths') i x) by apply lookup_insert_eq.
        rewrite decide_False by (intros Hne; by apply Hne).
        split; [done|]. split.
        -- intros method. rewrite <-Hu.
           destruct (decide (i = method)) as [<-|Hne];
             [by rewrite !lookup_insert_eq|by rewrite !lookup_insert_ne].
        -- apply Hflag'. split; [by eauto|done].
Qed.

Lemma set_rpc_method_authorizations_same entry :
  AuthEntry.set_rpc_method_authorizations entry
    (AuthEntry.rpc_method_authorizations entry) = entry.
Proof. by destruct entry. Qed.

Lemma set_auth_file_same self : set_auth_file (auth_file self) self = self.
Proof. by destruct self. Qed.

(** The call on an identity that has an entry: what it returns and the
    state it leaves, whether or not it writes the store. *)
Lemma update_id_found self identity rpc_methods index entry :
  list_find (λ e, AuthEntry.identity e = Some identity)
    (AuthFile.read_allow_entries (auth_file self)) = Some (index, entry) →
  let auths := AuthEntry.rpc_method_authorizations entry in
  ∃ auths' updated_rpc_methods,
    update_id_rpc_authorizations self identity rpc_methods
    = (Some updated_rpc_methods,
       set_auth_file
         (AuthFile.update_by_index
            (AuthEntry.set_rpc_method_authorizations entry auths')
            index (auth_file self))
         self)
    ∧ (∀ method,
         auths' !! method
         = match rpc_methods !! method with
           | Some reported => Some (merged (auths !! method) reported)
           | None => auths !! method
           end)
    ∧ (∀ method,
         updated_rpc_methods !! method
         = merged (auths !! method) <$> rpc_methods !! method)
    ∧ ((∀ method reported,
          rpc_methods !! method = Some reported →
          auths !! method ≠ None ∧ auths !! method ≠ Some []) →
       update_id_rpc_authorizations self identity rpc_methods
       = (Some updated_rpc_methods, self)).
Proof.
  intros Hfind auths. unfold update_id_rpc_authorizations. rewrite Hfind.
  fold auths. pose proof (merge_reported_spec auths rpc_methods) as Hspec.
  destruct (merge_reported auths rpc_methods) as [[auths' updated] is_updated].
  destruct Hspec as (Hauths & Hupdated & Hflag).
  exists auths', updated.
  assert (is_updated = false →
          set_auth_file
            (AuthFile.update_by_index
               (AuthEntry.set_rpc_method_authorizations entry auths')
               index (auth_file self)) self = self) as Hsame.
  { intros Hoff.
    assert (auths' = auths) as ->.
    { apply map_eq. intros method. rewrite Hauths.
      destruct (rpc_methods !! method) as [reported|] eqn:Hm; [|done].
      destruct (auths !! method) as [[|c l]|] eqn:Hold; [| done |].
      all: assert (is_updated = true) as Hon
        by (apply Hflag; exists method, reported; by eauto).
      all: congruence. }
    subst auths. rewrite set_rpc_method_authorizations_same.
    unfold AuthFile.update_by_index.
    apply list_find_Some in Hfind as [Hlook _].
    unfold AuthFile.read_allow_entries in Hlook. rewrite list_insert_id by done.
    destruct self as [? ? [? ?] ? ? ? ? ? ?]. done. }
  split; [|split; [done|split; [done|]]].
  - destruct is_updated; [done|]. by rewrite Hsame.
  - intros Hfull. destruct is_updated; [|done].
    destruct (proj1 Hflag eq_refl) as (method & reported & Hm & Hold).
    destruct (Hfull method reported Hm) as [Hnone Hnil]. by destruct Hold.
Qed.

Section ReportProperties.
Context `{!Platform}.

(** X5. [update_id_rpc_authorizations] returns [None] and changes nothing
    for an identity that no allow entry has. For the first allow entry of
    the identity it returns a mapping whose methods are exactly the
    reported ones, each with the list of the entry when the entry has a
    non-empty one and with the reported list otherwise. *)
Theorem update_id_rpc_authorizations_returns self identity rpc_methods :
  (Forall (λ e, AuthEntry.identity e ≠ Some identity)
     (AuthFile.read_allow_entries (auth_file self)) →
   update_id_rpc_authorizations self identity rpc_methods = (None, self))
  ∧ (∀ index entry,
       list_find (λ e, AuthEntry.identity e = Some identity)
         (AuthFile.read_allow_entries (auth_file self)) = Some (index, entry) →
       ∃ updated_rpc_methods,
         (update_id_rpc_authorizations self identity rpc_methods).1
         = Some updated_rpc_methods
         ∧ ∀ method,
             updated_rpc_methods !! method
             = merged (AuthEntry.rpc_method_authorizations entry !! method)
               <$> rpc_methods !! method).
Proof.
  split.
  - intros Hnone.
    apply (proj2 (list_find_None (λ e, AuthEntry.identity e = Some identity) _))
      in Hnone.
    unfold update_id_rpc_authorizations. by rewrite Hnone.
  - intros index entry Hfind.
    destruct (update_id_found self identity rpc_methods index entry Hfind)
      as (auths' & updated & -> & _ & Hupdated & _).
    by exists updated.
Qed.

(** X6. After [update_id_rpc_authorizations] on an identity that has an
    allow entry, the list stored for each reported method is the one
    returned for it and the lists of the other methods are as before; the
    entry written at the index of the entry differs from it in its method
    authorizations only; the other allow entries, the deny list and the
    other attributes of the service are unchanged; when the entry has a
    non-empty list for every reported method the state is left as it
    is. *)
Theorem update_id_rpc_authorizations_store self identity rpc_methods index entry :
  list_find (λ e, AuthEntry.identity e = Some identity)
    (AuthFile.read_allow_entries (auth_file self)) = Some (index, entry) →
  let result := update_id_rpc_authorizations self identity rpc_methods in
  (∀ method,
     is_Some (rpc_methods !! method) →
     Some (stored_capabilities result.2 identity method) = (.!! method) <$> result.1)
  ∧ (∀ method,
       rpc_methods !! method = None →
       stored_capabilities result.2 identity method
       = AuthEntry.rpc_method_authorizations entry !! method)
  ∧ (∃ entry',
       auth_file result.2 = AuthFile.update_by_index entry' index (auth_file self)
       ∧ AuthFile.allow (auth_file result.2) !! index = Some entry'
       ∧ AuthEntry.set_rpc_method_authorizations entry'
           (AuthEntry.rpc_method_authorizations entry) = entry
       ∧ result.2 = set_auth_file (auth_file result.2) self)
  ∧ (AuthFile.deny (auth_file result.2) = AuthFile.deny (auth_file self)
     ∧ length (AuthFile.allow (auth_file result.2))
       = length (AuthFile.allow (auth_file self))
     ∧ ∀ j, j ≠ index →
            AuthFile.allow (auth_file result.2) !! j
            = AuthFile.allow (auth_file self) !! j)
  ∧ ((∀ method reported,
        rpc_methods !! method = Some reported →
        ∃ c l, AuthEntry.rpc_method_authorizations entry !! method = Some (c :: l)) →
     result.2 = self).
Proof.
  intros Hfind result. subst result.
  destruct (update_id_found self identity rpc_methods index entry Hfind)
    as (auths' & updated & Hcall & Hauths & Hupdated & Hkeep).
  assert (∀ method,
    stored_capabilities
      (update_id_rpc_authorizations self identity rpc_methods).2 identity method
    = auths' !! method) as Hstored.
  { intros method. rewrite Hcall. unfold stored_capabilities. simpl.
    by rewrite (list_find_identity_insert identity _ index entry). }
  assert (index < length (AuthFile.allow (auth_file self))) as Hindex.
  { apply list_find_Some in Hfind as (Hlook & _ & _). by eapply lookup_lt_Some. }
  split; [|split; [|split; [|split]]].
  - intros method [reported Hm]. rewrite Hstored, Hcall. simpl.
    by rewrite Hauths, Hupdated, Hm.
  - intros method Hm. by rewrite Hstored, Hauths, Hm.
  - rewrite Hcall. simpl.
    exists (AuthEntry.set_rpc_method_authorizations entry auths').
    split; [done|]. split; [by apply list_lookup_insert_eq|].
    split; [by destruct entry|done].
  - rewrite Hcall. simpl. split; [done|]. split; [apply length_insert|].
    intros j Hj. by rewrite list_lookup_insert_ne.
  - intros Hfull. rewrite Hkeep; [done|].
    intros method reported Hm. by destruct (Hfull method reported Hm) as (c & l & ->).
Qed.

(** X7. Reporting to [update_id_rpc_authorizations] the mapping that it
    returned gives the same mapping back and leaves the store as the first
    call left it. *)
Theorem update_id_rpc_authorizations_settles self identity rpc_methods updated :
  (update_id_rpc_authorizations self identity rpc_methods).1 = Some updated →
  let reported := (update_id_rpc_authorizations self identity rpc_methods).2 in
  (update_id_rpc_authorizations reported identity updated).1 = Some updated
  ∧ auth_file (update_id_rpc_authorizations reported identity updated).2
    = auth_file reported.
Proof.
  intros Hfirst reported. subst reported.
  destruct (list_find (λ e, AuthEntry.identity e = Some identity)
              (AuthFile.read_allow_entries (auth_file self)))
    as [[index entry]|] eqn:Hfind; cycle 1.
  { unfold update_id_rpc_authorizations in Hfirst. by rewrite Hfind in Hfirst. }
  destruct (update_id_found self identity rpc_methods index entry Hfind)
    as (auths' & updated' & Hcall & Hauths & Hupdated & _).
  rewrite Hcall in Hfirst |- *. simpl in Hfirst. injection Hfirst as ->.
  cbn [snd].
  set (entry' := AuthEntry.set_rpc_method_authorizations entry auths').
  set (self' := set_auth_file
                  (AuthFile.update_by_index entry' index (auth_file self)) self).
  assert (list_find (λ e, AuthEntry.identity e = Some identity)
            (AuthFile.read_allow_entries (auth_file self')) = Some (index, entry'))
    as Hfind'.
  { subst self' entry'. simpl. by apply list_find_identity_insert. }
  destruct (update_id_found self' identity updated index entry' Hfind')
    as (auths'' & updated'' & Hcall' & Hauths' & Hupdated' & _).
  rewrite Hcall'. cbn [fst snd].
  assert (∀ method, merged (auths' !! method) <$> updated !! method
                    = updated !! method) as Hfixed.
  { intros method. rewrite Hupdated, Hauths.
    destruct (rpc_methods !! method) as [rep|]; [|done]. simpl.
    by destruct (merged _ rep). }
  split.
  - f_equal. apply map_eq. intros method. rewrite Hupdated'. apply Hfixed.
  - assert (auths'' = auths') as ->.
    { apply map_eq. intros method. rewrite Hauths'. subst entry'. simpl.
      pose proof (Hfixed method) as Hm.
      destruct (updated !! method) as [v|] eqn:Hv; [|done].
      simpl in Hm. injection Hm as Hm. rewrite Hm.
      rewrite Hupdated in Hv. rewrite Hauths.
      destruct (rpc_methods !! method) as [rep|]; [|done].
      simpl in Hv. by injection Hv as ->. }
    subst self' entry'. simpl. unfold AuthFile.update_by_index. simpl.
    by rewrite list_insert_insert_eq.
Qed.

End ReportProperties.

(** ** The reload pipeline *)

Lemma elem_of_flat_map {A B} (f : A → list B) (l : list A) (y : B) :
  y ∈ flat_map f l ↔ ∃ x, x ∈ l ∧ y ∈ f x.
Proof.
  rewrite list_elem_of_In, in_flat_map. split.
  - intros (x & Hx & Hy). exists x. by rewrite !list_elem_of_In.
  - intros (x & Hx & Hy). exists x. by rewrite <-!list_elem_of_In.
Qed.

Section ReloadProperties.
Context `{!Platform}.

(** X8. An entry is in the result of [_get_updated_entries] exactly when
    it is a new entry with an identity that is neither a process identity
    nor the control connection, and either some old entry of its identity
    has other method authorizations or no old entry has its identity. *)
Theorem get_updated_entries_members old_entries new_entries entry :
  entry ∈ _get_updated_entries old_entries new_entries
  ↔ entry ∈ new_entries ∧ updatable entry
    ∧ ((∃ old_entry,
          old_entry ∈ old_entries
          ∧ AuthEntry.identity entry = AuthEntry.identity old_entry
          ∧ AuthEntry.rpc_method_authorizations entry
            ≠ AuthEntry.rpc_method_authorizations old_entry)
       ∨ AuthEntry.identity entry ∉ map AuthEntry.identity old_entries).
Proof.
  unfold _get_updated_entries. rewrite elem_of_flat_map. split.
  - intros (e & Hin & Hmember).
    destruct (decide (updatable e)) as [Hup|]; [|by apply elem_of_nil in Hmember].
    apply elem_of_app in Hmember as [Hchanged|Hnew].
    + apply elem_of_flat_map in Hchanged as (o & Ho & Hentry).
      destruct (decide _) as [[Hid Hrpc]|]; [|by apply elem_of_nil in Hentry].
      apply list_elem_of_singleton in Hentry as ->.
      split; [done|]. split; [done|]. left. by exists o.
    + destruct (decide _) as [|Hout]; [by apply elem_of_nil in Hnew|].
      apply list_elem_of_singleton in Hnew as ->. by eauto.
  - intros (Hin & Hup & Hwhy). exists entry. split; [done|].
    rewrite decide_True by done. apply elem_of_app.
    destruct Hwhy as [(o & Ho & Hid & Hrpc)|Hout].
    + left. apply elem_of_flat_map. exists o. split; [done|].
      rewrite decide_True by done. left.
    + right. rewrite decide_False by done. left.
Qed.

(** X9. [_get_updated_entries] of a list of entries against itself is
    empty when the entries of one identity have the same method
    authorizations: a reload of an unchanged store has nothing to
    reconcile. *)
Theorem get_updated_entries_unchanged entries :
  (∀ e e', e ∈ entries → e' ∈ entries →
           AuthEntry.identity e = AuthEntry.identity e' →
           AuthEntry.rpc_method_authorizations e
           = AuthEntry.rpc_method_authorizations e') →
  _get_updated_entries entries entries = [].
Proof.
  intros Hsame.
  destruct (_get_updated_entries entries entries) as [|entry diff] eqn:Hdiff; [done|].
  assert (entry ∈ _get_updated_entries entries entries) as Hin
    by (rewrite Hdiff; left).
  apply elem_of_flat_map in Hin as (e & He & Hmember). exfalso.
  destruct (decide (updatable e)) as [Hup|]; [|by apply elem_of_nil in Hmember].
  apply elem_of_app in Hmember as [Hchanged|Hnew].
  - apply elem_of_flat_map in Hchanged as (o & Ho & Hentry).
    destruct (decide _) as [[Hid Hrpc]|]; [|by apply elem_of_nil in Hentry].
    by apply Hrpc, Hsame.
  - destruct (decide _) as [|Hout]; [by apply elem_of_nil in Hnew|].
    apply Hout. by apply list_elem_of_fmap_2.
Qed.

(** X10. [read_auth_file] leaves the store, the pending queue and the
    allow-any flag as they are; the snapshot it installs holds the enabled
    allow entries, each as often as in the store, and no disabled entry. *)
Theorem read_auth_file_snapshot self :
  let reloaded := (read_auth_file self).1 in
  auth_file reloaded = auth_file self
  ∧ _auth_pending reloaded = _auth_pending self
  ∧ allow_any reloaded = allow_any self
  ∧ auth_entries reloaded
    ≡ₚ filter (λ entry, AuthEntry.enabled entry = true)
         (AuthFile.read_allow_entries (auth_file self))
  ∧ (∀ entry, entry ∈ auth_entries reloaded →
       AuthEntry.enabled entry = true
       ∧ entry ∈ AuthFile.read_allow_entries (auth_file self)).
Proof.
  intros reloaded. subst reloaded. simpl.
  assert (snapshot (AuthFile.read_allow_entries (auth_file self))
          ≡ₚ filter (λ entry, AuthEntry.enabled entry = true)
               (AuthFile.read_allow_entries (auth_file self))) as Hperm
    by apply sort_Permutation.
  split; [done|]. split; [done|]. split; [done|]. split; [done|].
  intros entry Hin. rewrite Hperm in Hin.
  by apply list_elem_of_filter in Hin as [? ?].
Qed.

(** X11. After [read_auth_file] the approved queue holds one record with
    retries 0 for each allow entry whose address is populated, in store
    order, and the denied queue likewise for the deny entries: a record is
    in the queue exactly when it is the record of such an entry. *)
Theorem read_auth_file_queues self :
  let reloaded := (read_auth_file self).1 in
  _auth_approved reloaded
  = map queue_record
      (filter (λ entry, AuthEntry.address entry ≠ Unset)
         (AuthFile.read_allow_entries (auth_file self)))
  ∧ _auth_denied reloaded
    = map queue_record
        (filter (λ entry, AuthEntry.address entry ≠ Unset)
           (AuthFile.read_deny_entries (auth_file self)))
  ∧ (∀ record, record ∈ _auth_approved reloaded ++ _auth_denied reloaded →
       Cred.retries record = 0%Z ∧ Cred.address record ≠ Unset).
Proof.
  intros reloaded. subst reloaded. simpl.
  assert (∀ entries,
    auth_list entries
    = map queue_record (filter (λ entry, AuthEntry.address entry ≠ Unset) entries))
    as Hlist.
  { intros entries. unfold auth_list.
    induction entries as [|e entries IH]; [done|].
    simpl. rewrite !filter_cons. simpl.
    destruct (decide (AuthEntry.address e ≠ Unset)); simpl; by rewrite IH. }
  split; [apply Hlist|]. split; [apply Hlist|].
  intros record [Hin|Hin]%elem_of_app;
    apply elem_of_auth_list in Hin as (entry & _ & -> & Haddr); done.
Qed.

(** X12. The snapshot that [read_auth_file] installs has every entry with
    literal credentials before every entry with regex credentials, and
    sorting it again changes nothing. *)
Theorem snapshot_sorted entries :
  (∀ pre entry post,
     snapshot entries = pre ++ entry :: post →
     is_regex (AuthEntry.credentials entry) = true →
     Forall (λ e, is_regex (AuthEntry.credentials e) = true) post)
  ∧ Py.sort AuthEntry.lt (snapshot entries) = snapshot entries.
Proof.
  unfold snapshot.
  set (enabled := filter (λ entry, AuthEntry.enabled entry = true) entries).
  rewrite !sort_literal_first. split.
  - intros pre entry post Hsplit Hregex.
    set (literals := filter (λ e, is_regex (AuthEntry.credentials e) = false) enabled)
      in *.
    set (regexes := filter (λ e, is_regex (AuthEntry.credentials e) = true) enabled)
      in *.
    assert (Forall (λ e, is_regex (AuthEntry.credentials e) = false) literals) as Hl.
    { apply Forall_forall. by intros e [? _]%list_elem_of_filter. }
    assert (Forall (λ e, is_regex (AuthEntry.credentials e) = true) regexes) as Hr.
    { apply Forall_forall. by intros e [? _]%list_elem_of_filter. }
    clearbody literals regexes. revert pre Hsplit.
    induction Hl as [|l literals Hlit _ IH]; intros pre Hsplit.
    + simpl in Hsplit. rewrite Hsplit in Hr.
      apply Forall_app in Hr as [_ Hr]. by apply Forall_cons in Hr as [_ Hr].
    + destruct pre as [|p pre]; simpl in Hsplit.
      * injection Hsplit as -> _. congruence.
      * injection Hsplit as _ Hsplit. by eapply IH.
  - rewrite filter_app, filter_app.
    rewrite (filter_none (λ e, is_regex (AuthEntry.credentials e) = false)
               (filter (λ e, is_regex (AuthEntry.credentials e) = true) enabled)).
    2: { intros e [He _]%list_elem_of_filter. congruence. }
    rewrite (filter_none (λ e, is_regex (AuthEntry.credentials e) = true)
               (filter (λ e, is_regex (AuthEntry.credentials e) = false) enabled)).
    2: { intros e [He _]%list_elem_of_filter. congruence. }
    rewrite app_nil_r. simpl. f_equal; apply list_filter_filter_l; done.
Qed.

End ReloadProperties.

(** ** The operator actions, further *)

Lemma without_first_found user_id (queue : list Cred.t) index pending :
  list_find (λ p, user_id = Cred.user_id p) queue = Some (index, pending) →
  delete index queue = without_first user_id queue.
Proof.
  revert index. induction queue as [|p queue IH]; intros index; simpl; [done|].
  destruct (decide (user_id = Cred.user_id p)) as [Hid|Hid].
  - by intros [= <- <-].
  - destruct (list_find _ queue) as [[i q]|]; simpl; [|done].
    intros [= <- <-]. simpl. f_equal. by apply IH.
Qed.

Lemma without_first_absent user_id (queue : list Cred.t) :
  list_find (λ p, user_id = Cred.user_id p) queue = None →
  without_first user_id queue = queue.
Proof.
  induction queue as [|p queue IH]; simpl; [done|].
  destruct (decide (user_id = Cred.user_id p)) as [Hid|Hid]; [done|].
  destruct (list_find _ queue) as [[i q]|]; simpl; [done|].
  intros _. f_equal. by apply IH.
Qed.

Lemma without_first_sublist user_id (queue : list Cred.t) :
  without_first user_id queue `sublist_of` queue.
Proof.
  induction queue as [|p queue IH]; simpl; [done|].
  destruct (decide (user_id = Cred.user_id p)).
  - by apply sublist_cons.
  - by apply sublist_skip.
Qed.

Lemma update_auth_entry_resolved pending is_allow self :
  same_resolved self (_update_auth_entry pending is_allow self)
  ∧ _auth_pending (_update_auth_entry pending is_allow self) = _auth_pending self.
Proof. unfold _update_auth_entry, same_resolved. by destruct (AuthFile.add _ _ _). Qed.

Lemma take_pending_spec persist user_id (st : acting) :
  same_resolved st.2 (take_pending persist user_id st).2
  ∧ _auth_pending (take_pending persist user_id st).2
    = without_first user_id (_auth_pending st.2).
Proof.
  destruct st as [val_err self]. unfold take_pending. simpl.
  destruct (list_find _ (_auth_pending self)) as [[index pending]|] eqn:Hfind.
  - destruct persist; simpl.
    + destruct (update_auth_entry_resolved pending true self) as [Hres Hpen].
      rewrite Hpen. split; [done|]. by eapply without_first_found.
    + split; [done|]. by eapply without_first_found.
  - simpl. split; [done|]. by rewrite without_first_absent.
Qed.

Lemma for_user_store_only queue user_id body (st : acting) :
  (∀ p self, ∃ file, body p self = set_auth_file file self) →
  same_resolved st.2 (for_user queue user_id body st).2
  ∧ _auth_pending (for_user queue user_id body st).2 = _auth_pending st.2.
Proof.
  intros Hbody.
  apply (for_user_keeps
           (λ s, same_resolved st.2 s ∧ _auth_pending s = _auth_pending st.2)).
  - done.
  - intros p self [Hres Hpen]. destruct (Hbody p self) as [file ->]. done.
Qed.

Lemma for_user_absent queue user_id body (st : acting) :
  user_id ∉ user_ids queue → for_user queue user_id body st = st.
Proof.
  unfold for_user. revert st. induction queue as [|p queue IH]; intros st Hout; [done|].
  simpl. rewrite decide_False.
  - apply IH. intros Hin. apply Hout. unfold user_ids. simpl. by right.
  - intros Hid. apply Hout. unfold user_ids. simpl. rewrite Hid. left.
Qed.

Lemma report_spec (st : acting) :
  same_resolved st.2 (report st) ∧ _auth_pending (report st) = _auth_pending st.2
  ∧ auth_file (report st) = auth_file st.2.
Proof. unfold report, same_resolved. by destruct st as [[val_err|] self]. Qed.

Section OperatorFurther.
Context `{!Platform} `{!CertsDeny}.

Lemma approve_spec self user_id :
  same_resolved self (approve_authorization_failure self user_id)
  ∧ _auth_pending (approve_authorization_failure self user_id)
    = without_first user_id (_auth_pending self).
Proof.
  unfold approve_authorization_failure.
  set (val_err := if _certs self then approve_csr user_id else None).
  destruct (take_pending_spec true user_id (val_err, self)) as [Hres1 Hpen1].
  set (st1 := take_pending true user_id (val_err, self)) in *.
  set (st2 := for_user _ _ _ st1).
  destruct (for_user_store_only (_auth_denied st1.2) user_id
              (λ _ self0, set_auth_file
                 (AuthFile.approve_deny_credential user_id true (auth_file self0))
                 self0) st1) as [Hres2 Hpen2]; [by eauto|].
  fold st2 in Hres2, Hpen2.
  destruct (report_spec st2) as (Hres3 & Hpen3 & _).
  unfold same_resolved in *. simpl in *.
  destruct Hres1 as (? & ? & ?), Hres2 as (? & ? & ?), Hres3 as (? & ? & ?).
  repeat split; congruence.
Qed.

Lemma deny_pending_spec user_id (st : acting) :
  same_resolved st.2 (deny_pending user_id st).2
  ∧ _auth_pending (deny_pending user_id st).2
    = without_first user_id (_auth_pending st.2).
Proof.
  destruct st as [val_err self]. unfold deny_pending. simpl.
  destruct (list_find _ (_auth_pending self)) as [[index pending]|] eqn:Hfind.
  - simpl. destruct (update_auth_entry_resolved pending false self) as [Hres Hpen].
    rewrite Hpen. split; [done|]. by eapply without_first_found.
  - simpl. split; [done|]. by rewrite without_first_absent.
Qed.

Lemma deny_spec self user_id :
  same_resolved self (deny_authorization_failure self user_id)
  ∧ _auth_pending (deny_authorization_failure self user_id)
    = without_first user_id (_auth_pending self).
Proof.
  unfold deny_authorization_failure.
  set (val_err := if _certs self then deny_csr user_id else None).
  destruct (deny_pending_spec user_id (val_err, self)) as [Hres1 Hpen1].
  set (st1 := deny_pending user_id (val_err, self)) in *.
  set (st2 := for_user _ _ _ st1).
  destruct (for_user_store_only (_auth_approved st1.2) user_id
              (λ _ self0, set_auth_file
                 (AuthFile.approve_deny_credential user_id false (auth_file self0))
                 self0) st1) as [Hres2 Hpen2]; [by eauto|].
  fold st2 in Hres2, Hpen2.
  destruct (report_spec st2) as (Hres3 & Hpen3 & _).
  unfold same_resolved in *. simpl in *.
  destruct Hres1 as (? & ? & ?), Hres2 as (? & ? & ?), Hres3 as (? & ? & ?).
  repeat split; congruence.
Qed.

Lemma delete_spec self user_id :
  same_resolved self (delete_authorization_failure self user_id)
  ∧ _auth_pending (delete_authorization_failure self user_id)
    = without_first user_id (without_first user_id (_auth_pending self)).
Proof.
  unfold delete_authorization_failure.
  set (val_err := if _certs self then delete_csr user_id else None).
  destruct (take_pending_spec true user_id (val_err, self)) as [Hres1 Hpen1].
  set (st1 := take_pending true user_id (val_err, self)) in *.
  destruct (take_pending_spec false user_id st1) as [Hres2 Hpen2].
  set (st2 := take_pending false user_id st1) in *.
  destruct (for_user_store_only (_auth_approved st2.2) user_id
              (λ p, _remove_auth_entry (Cred.credentials p) true) st2)
    as [Hres3 Hpen3]; [by eauto|].
  set (st3 := for_user (_auth_approved st2.2) user_id _ st2) in *.
  destruct (for_user_store_only (_auth_denied st3.2) user_id
              (λ p, _remove_auth_entry (Cred.credentials p) false) st3)
    as [Hres4 Hpen4]; [by eauto|].
  set (st4 := for_user (_auth_denied st3.2) user_id _ st3) in *.
  destruct (report_spec st4) as (Hres5 & Hpen5 & _).
  unfold same_resolved in *. simpl in *.
  destruct Hres1 as (? & ? & ?), Hres2 as (? & ? & ?), Hres3 as (? & ? & ?),
    Hres4 as (? & ? & ?), Hres5 as (? & ? & ?).
  repeat split; congruence.
Qed.

(** X13. Approve, Deny and Delete never change the approved queue, the
    denied queue or the snapshot used for matching: what they persist is
    seen only after a reload. *)
Theorem operator_actions_keep_resolved self user_id :
  same_resolved self (approve_authorization_failure self user_id)
  ∧ same_resolved self (deny_authorization_failure self user_id)
  ∧ same_resolved self (delete_authorization_failure self user_id).
Proof.
  split; [apply approve_spec|]. split; [apply deny_spec|apply delete_spec].
Qed.

(** X14. Approve and Deny take the first pending record of the user id
    out of the pending queue and leave the other records in their order;
    Delete takes the first two out. *)
Theorem operator_actions_pending self user_id :
  _auth_pending (approve_authorization_failure self user_id)
  = without_first user_id (_auth_pending self)
  ∧ _auth_pending (deny_authorization_failure self user_id)
    = without_first user_id (_auth_pending self)
  ∧ _auth_pending (delete_authorization_failure self user_id)
    = without_first user_id (without_first user_id (_auth_pending self)).
Proof.
  split; [apply approve_spec|]. split; [apply deny_spec|apply delete_spec].
Qed.

End OperatorFurther.

Section OperatorCompose.
Context `{!Platform} `{!CertsDeny}.

(** X15. On a user id that is in none of the three queues, Approve, Deny
    and Delete leave the store and the queues as they are; without a
    certificate subsystem they leave the whole state as it is. *)
Theorem operator_actions_unknown_user self user_id :
  user_id ∉ user_ids (_auth_pending self) →
  user_id ∉ user_ids (_auth_approved self) →
  user_id ∉ user_ids (_auth_denied self) →
  (auth_file (approve_authorization_failure self user_id) = auth_file self
   ∧ auth_file (deny_authorization_failure self user_id) = auth_file self
   ∧ auth_file (delete_authorization_failure self user_id) = auth_file self)
  ∧ (_auth_pending (approve_authorization_failure self user_id) = _auth_pending self
     ∧ _auth_pending (deny_authorization_failure self user_id) = _auth_pending self
     ∧ _auth_pending (delete_authorization_failure self user_id) = _auth_pending self)
  ∧ (_certs self = false →
     approve_authorization_failure self user_id = self
     ∧ deny_authorization_failure self user_id = self
     ∧ delete_authorization_failure self user_id = self).
Proof.
  intros Hpen Happ Hden.
  assert (list_find (λ p, user_id = Cred.user_id p) (_auth_pending self) = None)
    as Hfind by by apply list_find_no_user_id.
  assert (approve_authorization_failure self user_id
          = report (if _certs self then approve_csr user_id else None, self))
    as Happrove.
  { unfold approve_authorization_failure.
    rewrite (take_pending_absent _ user_id (_, self)) by exact Hpen.
    by rewrite (for_user_absent (_auth_denied self)) by exact Hden. }
  assert (deny_authorization_failure self user_id
          = report (if _certs self then deny_csr user_id else None, self)) as Hdeny.
  { unfold deny_authorization_failure, deny_pending. rewrite Hfind.
    by rewrite (for_user_absent (_auth_approved self)) by exact Happ. }
  assert (delete_authorization_failure self user_id
          = report (if _certs self then delete_csr user_id else None, self))
    as Hdelete.
  { unfold delete_authorization_failure.
    rewrite !(take_pending_absent _ user_id (_, self)) by exact Hpen.
    rewrite (for_user_absent (_auth_approved self)) by exact Happ.
    by rewrite (for_user_absent (_auth_denied self)) by exact Hden. }
  rewrite Happrove, Hdeny, Hdelete.
  split; [|split].
  - by rewrite !(proj2 (proj2 (report_spec _))).
  - by rewrite !(proj1 (proj2 (report_spec _))).
  - by intros ->.
Qed.

(** X16. Delete on a user id that is not pending never adds an entry to
    the store: it removes from the allow list exactly the entries whose
    credentials are those of an approved-queue record of the user id, and
    from the deny list those of a denied-queue record of the user id. *)
Theorem delete_removes_listed_credentials self user_id :
  user_id ∉ user_ids (_auth_pending self) →
  let deleted := delete_authorization_failure self user_id in
  (∀ entry,
     entry ∈ AuthFile.allow (auth_file deleted)
     ↔ entry ∈ AuthFile.allow (auth_file self)
       ∧ ∀ record, record ∈ _auth_approved self → user_id = Cred.user_id record →
                   AuthEntry.credentials entry ≠ Cred.credentials record)
  ∧ (∀ entry,
       entry ∈ AuthFile.deny (auth_file deleted)
       ↔ entry ∈ AuthFile.deny (auth_file self)
         ∧ ∀ record, record ∈ _auth_denied self → user_id = Cred.user_id record →
                     AuthEntry.credentials entry ≠ Cred.credentials record).
Proof.
  intros Hpen deleted. subst deleted. unfold delete_authorization_failure.
  set (val_err := if _certs self then delete_csr user_id else None).
  rewrite !(take_pending_absent _ user_id (val_err, self)) by exact Hpen.
  cbn [snd].
  set (st1 := for_user (_auth_approved self) user_id
                (λ p, _remove_auth_entry (Cred.credentials p) true) (val_err, self)).
  pose proof (for_user_remove (_auth_approved self) user_id true (val_err, self))
    as (Hallow1 & Hdeny1 & _ & _ & Hden1).
  fold st1 in Hallow1, Hdeny1, Hden1. cbn [snd negb] in *.
  rewrite Hden1.
  set (st2 := for_user (_auth_denied self) user_id
                (λ p, _remove_auth_entry (Cred.credentials p) false) st1).
  pose proof (for_user_remove (_auth_denied self) user_id false st1)
    as (Hdeny2 & Hallow2 & _ & _ & _).
  fold st2 in Hdeny2, Hallow2. cbn [snd negb] in *.
  rewrite (proj2 (proj2 (report_spec st2))).
  unfold AuthFile.entries in *. split.
  - intros entry. rewrite Hallow2. apply Hallow1.
  - intros entry. rewrite Hdeny2, Hdeny1. done.
Qed.

Lemma find_some_of {A} (f : A → bool) (l : list A) x :
  x ∈ l → f x = true → ∃ y, List.find f l = Some y.
Proof.
  induction 1 as [x l|x y l _ IH]; intros Hx; simpl.
  - rewrite Hx. by eauto.
  - destruct (f y); [by eauto|by apply IH].
Qed.

(** X17. Once Approve has persisted the pending record of an attempt and
    the store was reloaded, the same attempt is authenticated:
    [authenticate] returns a user id for it. *)
Theorem approved_attempt_authenticates
    self domain address mechanism credential rest user_id retries pre post :
  _auth_pending self
  = pre ++ Cred.mk (Literal domain) (Literal address) mechanism (Literal credential)
             user_id retries :: post →
  user_id ∉ user_ids pre →
  is_Some (AuthFile.add
             (new_entry (Cred.mk (Literal domain) (Literal address) mechanism
                           (Literal credential) user_id retries))
             true (auth_file self)) →
  let approved := approve_authorization_failure self user_id in
  let reloaded := (read_auth_file approved).1 in
  ∃ user,
    authenticate reloaded domain address mechanism (credential :: rest)
    = Returned (Some user).
Proof.
  intros Hpending Hpre Hadd approved reloaded.
  set (pending := Cred.mk (Literal domain) (Literal address) mechanism
                    (Literal credential) user_id retries) in *.
  destruct (approve_fields self user_id pre pending post Hpending eq_refl Hpre)
    as [_ Hentry]. specialize (Hentry Hadd). fold approved in Hentry.
  assert (new_entry pending ∈ auth_entries reloaded) as Hin.
  { subst reloaded. simpl. unfold snapshot.
    rewrite sort_Permutation. apply list_elem_of_filter. by split. }
  assert (AuthEntry.match_ (new_entry pending) domain address mechanism
            (credential :: rest) = true) as Hmatch.
  { unfold AuthEntry.match_. simpl. by rewrite !String.eqb_refl. }
  destruct (find_some_of
              (λ e, AuthEntry.match_ e domain address mechanism (credential :: rest))
              _ _ Hin Hmatch) as [entry Hfind].
  unfold authenticate, first_match. rewrite Hfind. by eauto.
Qed.

(** X18. Once Deny has persisted the pending record of an attempt and the
    store was reloaded, recording the same attempt again does not queue it
    as pending: it increments the retries of the denied record. *)
Theorem denied_attempt_not_pending_again
    self domain address mechanism credential user_id retries pre post :
  _auth_pending self
  = pre ++ Cred.mk (Literal domain) (Literal address) mechanism (Literal credential)
             user_id retries :: post →
  user_id ∉ user_ids pre →
  is_Some (AuthFile.add
             (new_entry (Cred.mk (Literal domain) (Literal address) mechanism
                           (Literal credential) user_id retries))
             false (auth_file self)) →
  let denied := deny_authorization_failure self user_id in
  let reloaded := (read_auth_file denied).1 in
  let again := _update_auth_pending reloaded domain address mechanism credential user_id in
  recorded (_auth_denied reloaded) domain address mechanism credential
  ∧ _auth_pending again = _auth_pending reloaded
  ∧ bumped (_auth_denied reloaded) (_auth_denied again)
      domain address mechanism credential.
Proof.
  intros Hpending Hpre Hadd denied reloaded again.
  set (pending := Cred.mk (Literal domain) (Literal address) mechanism
                    (Literal credential) user_id retries) in *.
  assert (new_entry pending ∈ AuthFile.deny (auth_file denied)) as Hin.
  { subst denied. unfold deny_authorization_failure.
    set (val_err := if _certs self then deny_csr user_id else None).
    rewrite (proj2 (proj2 (report_spec _))).
    apply (for_user_keeps
             (λ s, new_entry pending ∈ AuthFile.deny (auth_file s))).
    - unfold deny_pending.
      rewrite Hpending, (list_find_user_id user_id pre pending post) by done.
      cbn [snd auth_file set_auth_pending].
      destruct Hadd as [file Hadd]. unfold _update_auth_entry. rewrite Hadd. simpl.
      unfold AuthFile.add in Hadd. case_bool_decide; [done|].
      injection Hadd as <-. simpl. apply elem_of_app. right. left.
    - intros _ s Hs. simpl. apply elem_of_app. by left. }
  assert (recorded (_auth_denied reloaded) domain address mechanism credential)
    as Hrecorded.
  { subst reloaded. simpl. unfold recorded. apply Exists_exists.
    exists (queue_record (new_entry pending)). split; [|done].
    apply elem_of_auth_list. by exists (new_entry pending). }
  split; [done|].
  destruct (update_auth_pending_denied reloaded domain address mechanism credential
              user_id Hrecorded) as [Hbumped Hsame].
  done.
Qed.

End OperatorCompose.

(** ** Invariants of the pending queue *)

Lemma without_first_members user_id (queue : list Cred.t) e :
  e ∈ without_first user_id queue → e ∈ queue.
Proof.
  induction queue as [|p queue IH]; simpl; [done|].
  destruct (decide (user_id = Cred.user_id p)); [by right|].
  intros [->|Hin]%elem_of_cons; [left|right; by apply IH].
Qed.

Lemma without_first_distinct user_id (queue : list Cred.t) :
  NoDup (map tuple_of queue) → NoDup (map tuple_of (without_first user_id queue)).
Proof.
  induction queue as [|p queue IH]; simpl; [done|].
  intros [Hout Hnodup]%NoDup_cons.
  destruct (decide (user_id = Cred.user_id p)); [done|].
  simpl. apply NoDup_cons. split; [|by apply IH].
  intros (e & He & Hin%without_first_members)%list_elem_of_fmap.
  apply Hout. rewrite He. by apply list_elem_of_fmap_2.
Qed.

Lemma same_tuple_tuple_of d a m c e :
  Cred.same_tuple d a m c e ↔ tuple_of e = (Literal d, Literal a, m, Literal c).
Proof.
  unfold Cred.same_tuple, tuple_of. split.
  - by intros (-> & -> & -> & ->).
  - by intros [= -> -> -> ->].
Qed.

Lemma bumped_tuples queue queue' d a m c :
  bumped queue queue' d a m c → map tuple_of queue' = map tuple_of queue.
Proof. intros (pre & e & post & -> & _ & _ & ->). by rewrite !map_app. Qed.

Section PendingInvariants.
Context `{!Platform} `{!CertsDeny}.

(** X19. Two invariants of the queues are kept by [_update_auth_pending]:
    no two pending records have the same 4-tuple, and no pending record
    has the 4-tuple of a denied record. Approve, Deny and Delete keep the
    first one. *)
Theorem pending_queue_invariants self :
  (NoDup (map tuple_of (_auth_pending self)) →
   (∀ domain address mechanism credential user_id,
      NoDup (map tuple_of
               (_auth_pending
                  (_update_auth_pending self domain address mechanism credential
                     user_id))))
   ∧ (∀ user_id,
        NoDup (map tuple_of (_auth_pending (approve_authorization_failure self user_id)))
        ∧ NoDup (map tuple_of (_auth_pending (deny_authorization_failure self user_id)))
        ∧ NoDup (map tuple_of
                   (_auth_pending (delete_authorization_failure self user_id)))))
  ∧ ((∀ e, e ∈ _auth_pending self →
           tuple_of e ∉ map tuple_of (_auth_denied self)) →
     ∀ domain address mechanism credential user_id,
       let self' := _update_auth_pending self domain address mechanism credential
                      user_id in
       ∀ e, e ∈ _auth_pending self' → tuple_of e ∉ map tuple_of (_auth_denied self')).
Proof.
  split.
  - intros Hnodup. split.
    + intros d a m c u.
      destruct (decide (recorded (_auth_denied self) d a m c)) as [Hden|Hden].
      { by destruct (update_auth_pending_denied self d a m c u Hden) as [_ ->]. }
      destruct (decide (recorded (_auth_pending self) d a m c)) as [Hpen|Hpen].
      { destruct (update_auth_pending_pending self d a m c u Hden Hpen) as [Hb _].
        by rewrite (bumped_tuples _ _ _ _ _ _ Hb). }
      destruct (update_auth_pending_new self d a m c u) as [_ ->].
      { unfold recorded in *. rewrite Exists_app. tauto. }
      rewrite map_app. apply NoDup_app. split; [done|]. split.
      * intros t (e & -> & He)%list_elem_of_fmap Hnew.
        apply list_elem_of_singleton in Hnew.
        apply Hpen, Exists_exists. exists e. split; [done|].
        by apply same_tuple_tuple_of.
      * apply NoDup_singleton.
    + intros u.
      rewrite (proj2 (approve_spec self u)), (proj2 (deny_spec self u)),
        (proj2 (delete_spec self u)).
      split; [|split]; repeat apply without_first_distinct; done.
  - intros Hapart d a m c u self' e.
    subst self'.
    destruct (decide (recorded (_auth_denied self) d a m c)) as [Hden|Hden].
    { destruct (update_auth_pending_denied self d a m c u Hden) as [Hb ->].
      rewrite (bumped_tuples _ _ _ _ _ _ Hb). apply Hapart. }
    destruct (decide (recorded (_auth_pending self) d a m c)) as [Hpen|Hpen].
    { destruct (update_auth_pending_pending self d a m c u Hden Hpen) as [Hb ->].
      destruct Hb as (pre & x & post & Hq & _ & _ & ->). rewrite Hq in Hapart.
      intros [Hin|[->|Hin]%elem_of_cons]%elem_of_app.
      - apply Hapart, elem_of_app. by left.
      - change (tuple_of (Cred.bump x)) with (tuple_of x).
        apply Hapart, elem_of_app. right. left.
      - apply Hapart, elem_of_app. right. by right. }
    destruct (update_auth_pending_new self d a m c u) as [-> ->].
    { unfold recorded in *. rewrite Exists_app. tauto. }
    intros [Hin|Hnew]%elem_of_app; [by apply Hapart|].
    apply list_elem_of_singleton in Hnew as ->.
    intros (x & Hx & Hin)%list_elem_of_fmap.
    apply Hden, Exists_exists. exists x. split; [done|].
    by apply same_tuple_tuple_of.
Qed.

End PendingInvariants.

(** ** [authenticate], further *)

Section AuthenticateFurther.
Context `{!Platform}.

(** X20. Unless the mechanism is "NULL" and the address starts with
    "localhost:", [authenticate] converts nothing and never raises: it
    returns the user id of the first matching entry, else the synthesized
    user id when the allow-any flag is set, else no user id. *)
Theorem authenticate_without_conversion self domain address mechanism credentials :
  mechanism ≠ "NULL" ∨ Py.startswith address "localhost:" = false →
  authenticate self domain address mechanism credentials
  = Returned
      match first_match (auth_entries self) domain address mechanism credentials with
      | Some entry => Some (resolved_user entry domain address mechanism credentials)
      | None =>
          if allow_any self
          then Some (synthetic_user domain address mechanism credentials)
          else None
      end.
Proof.
  intros Hout. unfold authenticate.
  destruct (first_match _ _ _ _ _); [done|]. unfold no_match.
  assert (String.eqb mechanism "NULL" && Py.startswith address "localhost:" = false)
    as ->.
  { destruct Hout as [Hm| ->]; [|apply andb_false_r].
    apply String.eqb_neq in Hm. by rewrite Hm. }
  by destruct (allow_any self).
Qed.

(** X21. With the allow-any flag set, [authenticate] never reports an
    attempt as unauthenticated: whatever it returns is a user id. *)
Theorem authenticate_allow_any self domain address mechanism credentials :
  allow_any self = true →
  authenticate self domain address mechanism credentials ≠ Returned None.
Proof.
  intros Hany. unfold authenticate.
  destruct (first_match _ _ _ _ _); [done|]. unfold no_match. rewrite Hany.
  repeat case_match; done.
Qed.

End AuthenticateFurther.

(** ** The capability broadcast *)

Section BroadcastProperties.
Context `{!Platform} `{!Bus}.

(** X22. [_send_update] queries the peers at most three times and uses
    the first attempt that obtains any: it raises for no peers exactly
    when the three attempts obtain none; otherwise it calls "auth.update"
    once for each peer of that attempt other than the coordinator itself
    and the control connection, in order, each time with the mapping of
    [get_user_to_capabilities], and never calls those two. *)
Theorem send_update_peers self :
  (_send_update self = NoPeers ↔ attempt 1 = [] ∧ attempt 2 = [] ∧ attempt 3 = [])
  ∧ (∀ sent,
       _send_update self = Updates sent →
       (∃ i, (1 ≤ i ≤ 3)%nat ∧ attempt i ≠ []
             ∧ (∀ j, (1 ≤ j < i)%nat → attempt j = [])
             ∧ map fst sent
               = filter (λ peer, peer ≠ core_identity ∧ peer ≠ CONTROL_CONNECTION)
                   (attempt i))
       ∧ ∀ peer user_to_caps,
           (peer, user_to_caps) ∈ sent →
           peer ≠ core_identity ∧ peer ≠ CONTROL_CONNECTION
           ∧ user_to_caps = get_user_to_capabilities self).
Proof.
  assert (∀ peers : list string,
    map fst (map (λ peer, (peer, get_user_to_capabilities self))
               (filter (λ peer, peer ∉ [core_identity; CONTROL_CONNECTION]) peers))
    = filter (λ peer, peer ≠ core_identity ∧ peer ≠ CONTROL_CONNECTION) peers)
    as Hfst.
  { intros peers. rewrite map_map. simpl. rewrite map_id.
    apply list_filter_iff. intros peer.
    rewrite !not_elem_of_cons. split; [tauto|].
    intros [? ?]. repeat split; try done. apply not_elem_of_nil. }
  assert (∀ peers peer (user_to_caps : gmap string (list string)),
    (peer, user_to_caps)
    ∈ map (λ peer, (peer, get_user_to_capabilities self))
        (filter (λ peer, peer ∉ [core_identity; CONTROL_CONNECTION]) peers) →
    peer ≠ core_identity ∧ peer ≠ CONTROL_CONNECTION
    ∧ user_to_caps = get_user_to_capabilities self) as Hsent.
  { intros peers peer caps (q & [= -> ->] & [Hq _]%list_elem_of_filter)%list_elem_of_fmap.
    rewrite !not_elem_of_cons in Hq. tauto. }
  unfold _send_update. cbn [discover]. fold (attempt 1) (attempt 2) (attempt 3).
  destruct (attempt 1) as [|p1 l1] eqn:H1;
    [destruct (attempt 2) as [|p2 l2] eqn:H2;
       [destruct (attempt 3) as [|p3 l3] eqn:H3|]|].
  - split; [done|]. intros sent [=].
  - split; [split; [done|by intros (_ & _ & [=])]|].
    intros sent [= <-]. split; [|by apply Hsent].
    exists 3. split; [lia|]. rewrite H3. split; [done|]. split; [|apply Hfst].
    intros j Hj. assert (j = 1 ∨ j = 2) as [-> | ->] by lia; done.
  - split; [split; [done|by intros (_ & [=] & _)]|].
    intros sent [= <-]. split; [|by apply Hsent].
    exists 2. split; [lia|]. rewrite H2. split; [done|]. split; [|apply Hfst].
    intros j Hj. assert (j = 1) as -> by lia. done.
  - split; [split; [done|by intros ([=] & _)]|].
    intros sent [= <-]. split; [|by apply Hsent].
    exists 1. split; [lia|]. rewrite H1. split; [done|]. split; [|apply Hfst].
    intros j Hj. lia.
Qed.

End BroadcastProperties.

(** ** The reconciliation and the mutation API, further *)

Section ReconcileFurther.
Context `{!Platform} `{!Transport} `{!DictOrder}.

(** X24. [update_rpc_authorizations] never calls a process identity or the
    control connection: every call of a run goes to the identity of one of
    the given entries that is open to updates. *)
Theorem reconciliation_calls_updatable_only entries c :
  Call c ∈ update_rpc_authorizations entries →
  ∃ entry,
    entry ∈ entries ∧ updatable entry
    ∧ AuthEntry.identity entry = Some (peer_of c)
    ∧ (peer_of c ∉ PROCESS_IDENTITIES) ∧ (peer_of c ≠ CONTROL_CONNECTION).
Proof.
  unfold update_rpc_authorizations.
  intros (entry & Hentry & Hcall)%elem_of_flat_map.
  exists entry. split; [done|].
  destruct (AuthEntry.identity entry) as [identity|] eqn:Hid; cycle 1.
  { unfold update_entry in Hcall. rewrite Hid in Hcall. by apply elem_of_nil in Hcall. }
  destruct (decide (updatable entry)) as [Hup|Hup]; cycle 1.
  { unfold update_entry in Hcall. rewrite Hid, decide_False in Hcall by done.
    by apply elem_of_nil in Hcall. }
  assert (peer_of c = identity) as ->.
  { rewrite (update_entry_updatable entry identity Hid Hup) in Hcall.
    destruct (decide _); [by apply elem_of_nil in Hcall|].
    apply elem_of_cons in Hcall as [[= ->]|Hcall]; [done|].
    destruct (rpc_call _).
    - by apply elem_of_nil in Hcall.
    - by apply list_elem_of_singleton in Hcall.
    - by apply list_elem_of_fmap in Hcall as (method & [= ->] & _). }
  split; [done|]. split; [done|].
  unfold updatable in Hup. rewrite Hid in Hup. done.
Qed.

(** X25. When the peer answers the bulk push or the bulk push times out,
    the run makes no call per method for that entry: the bulk push is its
    only call, and a time-out is logged and not followed up. *)
Theorem bulk_push_not_rejected entry identity :
  AuthEntry.identity entry = Some identity → updatable entry →
  let required := required_methods (AuthEntry.rpc_method_authorizations entry) in
  required ≠ ∅ →
  (rpc_call (set_multiple_rpc_authorizations identity required) = Answered →
   update_entry entry = [Call (set_multiple_rpc_authorizations identity required)])
  ∧ (rpc_call (set_multiple_rpc_authorizations identity required) = GeventTimeout →
     update_entry entry
     = [Call (set_multiple_rpc_authorizations identity required);
        Logged (timed_out identity)]).
Proof.
  intros Hid Hup required Hne.
  pose proof (update_entry_updatable entry identity Hid Hup) as Hrun.
  cbv zeta in Hrun. fold required in Hrun. rewrite decide_False in Hrun by done.
  split; intros Hanswer; by rewrite Hrun, Hanswer.
Qed.

End ReconcileFurther.

Lemma filter_all {A} (P : A → Prop) `{!∀ x, Decision (P x)} (l : list A) :
  (∀ x, x ∈ l → P x) → filter P l = l.
Proof.
  induction l as [|x l IH]; intros Hall; [done|].
  rewrite filter_cons, decide_True by (apply Hall; left).
  f_equal. apply IH. intros y Hy. apply Hall. by right.
Qed.

Lemma scan_denied_all_present current denied_authorizations method self :
  denied_authorizations ≠ [] →
  (∀ c, c ∈ denied_authorizations → c ∈ current) →
  scan_denied current denied_authorizations method self = (true, self).
Proof.
  unfold scan_denied. intros Hne Hall.
  destruct denied_authorizations as [|c denied]; [done|]. clear Hne.
  cbn [foldl]. rewrite decide_False by (intros Hout; apply Hout, Hall; left).
  assert (∀ c', c' ∈ denied → c' ∈ current) as Hall'
    by (intros c' Hc'; apply Hall; by right).
  clear Hall. induction denied as [|c' denied IH]; [done|].
  cbn [foldl]. rewrite decide_False by (intros Hout; apply Hout, Hall'; left).
  apply IH. intros x Hx. apply Hall'. by right.
Qed.

Lemma update_by_index_back entry entry' index file :
  AuthFile.allow file !! index = Some entry →
  AuthFile.update_by_index entry index (AuthFile.update_by_index entry' index file)
  = file.
Proof.
  intros Hlook. unfold AuthFile.update_by_index. simpl.
  rewrite list_insert_insert_eq, list_insert_id by done. by destruct file.
Qed.

Section MutationFurther.
Context `{!Platform}.

(** X26. Adding to a method that has a non-empty list capabilities that
    are not in it, and then removing the same capabilities, leaves the
    whole state as it was. *)
Theorem add_then_delete_restores self identity method capabilities index entry current :
  ¬ privileged identity →
  list_find (λ e, AuthEntry.identity e = Some identity)
    (AuthFile.read_allow_entries (auth_file self)) = Some (index, entry) →
  AuthEntry.rpc_method_authorizations entry !! method = Some current →
  current ≠ [] → capabilities ≠ [] →
  (∀ c, c ∈ capabilities → c ∉ current) →
  (delete_rpc_authorizations
     (add_rpc_authorizations self identity method capabilities).2
     identity method capabilities).2 = self.
Proof.
  intros Hopen Hfind Hmethod Hcurrent Hcaps Hfresh.
  unfold add_rpc_authorizations. rewrite decide_False, Hfind by done. cbn [snd].
  assert (add_authorizations (AuthEntry.rpc_method_authorizations entry)
            method capabilities
          = <[method := current ++ capabilities]>
              (AuthEntry.rpc_method_authorizations entry)) as ->.
  { unfold add_authorizations. rewrite Hmethod, decide_False by done.
    do 2 f_equal. apply filter_all. intros c Hc. split; [done|by apply Hfresh]. }
  set (auths := AuthEntry.rpc_method_authorizations entry) in *.
  set (entry1 := AuthEntry.set_rpc_method_authorizations entry
                   (<[method := current ++ capabilities]> auths)).
  set (self1 := set_auth_file (AuthFile.update_by_index entry1 index (auth_file self))
                  self).
  assert (list_find (λ e, AuthEntry.identity e = Some identity)
            (AuthFile.read_allow_entries (auth_file self1)) = Some (index, entry1))
    as Hfind1.
  { subst self1 entry1. simpl. by apply list_find_identity_insert. }
  unfold delete_rpc_authorizations. rewrite decide_False, Hfind1 by done.
  assert (AuthEntry.rpc_method_authorizations entry1 !! method
          = Some (current ++ capabilities)) as ->.
  { subst entry1. simpl. by rewrite lookup_insert_eq. }
  rewrite decide_False by (by destruct current).
  rewrite scan_denied_all_present; [|done|].
  2: { intros c Hc. apply elem_of_app. by right. }
  assert (remaining (current ++ capabilities) capabilities = current) as ->.
  { unfold remaining. rewrite filter_app.
    rewrite (filter_all _ current) by (intros c Hc Hin; by apply (Hfresh c)).
    rewrite (filter_none _ capabilities) by (intros c Hc Hout; by apply Hout).
    rewrite app_nil_r. by rewrite decide_False. }
  cbn [snd].
  assert (AuthEntry.set_rpc_method_authorizations entry1
            (<[method := current]> (AuthEntry.rpc_method_authorizations entry1))
          = entry) as ->.
  { subst entry1. simpl. unfold AuthEntry.set_rpc_method_authorizations. simpl.
    rewrite insert_insert_eq. subst auths. rewrite insert_id by done.
    by destruct entry. }
  subst self1. simpl. rewrite update_by_index_back.
  - by destruct self.
  - by apply list_find_Some in Hfind as [? _].
Qed.

(** The store that a mutation call leaves: the entry of the identity with
    its authorizations changed at the method at most. *)
Lemma mutation_store self identity method index entry (auths' : gmap string (list string)) file :
  list_find (λ e, AuthEntry.identity e = Some identity)
    (AuthFile.read_allow_entries (auth_file self)) = Some (index, entry) →
  (∀ m, m ≠ method → auths' !! m = AuthEntry.rpc_method_authorizations entry !! m) →
  file = AuthFile.update_by_index
           (AuthEntry.set_rpc_method_authorizations entry auths') index (auth_file self) →
  AuthFile.deny file = AuthFile.deny (auth_file self)
  ∧ length (AuthFile.allow file) = length (AuthFile.allow (auth_file self))
  ∧ (∀ j, j ≠ index → AuthFile.allow file !! j = AuthFile.allow (auth_file self) !! j)
  ∧ ∃ entry',
      AuthFile.allow file !! index = Some entry'
      ∧ AuthEntry.set_rpc_method_authorizations entry'
          (AuthEntry.rpc_method_authorizations entry) = entry
      ∧ ∀ m, m ≠ method →
             AuthEntry.rpc_method_authorizations entry' !! m
             = AuthEntry.rpc_method_authorizations entry !! m.
Proof.
  intros Hfind Hother ->. apply list_find_Some in Hfind as (Hlook & _ & _).
  unfold AuthFile.read_allow_entries in Hlook. simpl.
  split; [done|]. split; [apply length_insert|]. split.
  - intros j Hj. by rewrite list_lookup_insert_ne.
  - eexists. split.
    + apply list_lookup_insert_eq. by eapply lookup_lt_Some.
    + split; [by destruct entry|done].
Qed.

(** X27. [add_rpc_authorizations] and [delete_rpc_authorizations] change
    in the store at most the list of the given method in the first allow
    entry of the identity: the deny list, the other allow entries, the
    other fields of that entry and the lists of its other methods are as
    before; when no allow entry has the identity the store is unchanged. *)
Theorem mutation_calls_are_local self identity method capabilities :
  let added := (add_rpc_authorizations self identity method capabilities).2 in
  let deleted := (delete_rpc_authorizations self identity method capabilities).2 in
  (list_find (λ e, AuthEntry.identity e = Some identity)
     (AuthFile.read_allow_entries (auth_file self)) = None →
   auth_file added = auth_file self ∧ auth_file deleted = auth_file self)
  ∧ (∀ index entry,
       list_find (λ e, AuthEntry.identity e = Some identity)
         (AuthFile.read_allow_entries (auth_file self)) = Some (index, entry) →
       ∀ file, file = auth_file added ∨ file = auth_file deleted →
         AuthFile.deny file = AuthFile.deny (auth_file self)
         ∧ length (AuthFile.allow file) = length (AuthFile.allow (auth_file self))
         ∧ (∀ j, j ≠ index →
                 AuthFile.allow file !! j = AuthFile.allow (auth_file self) !! j)
         ∧ ∃ entry',
             AuthFile.allow file !! index = Some entry'
             ∧ AuthEntry.set_rpc_method_authorizations entry'
                 (AuthEntry.rpc_method_authorizations entry) = entry
             ∧ ∀ m, m ≠ method →
                    AuthEntry.rpc_method_authorizations entry' !! m
                    = AuthEntry.rpc_method_authorizations entry !! m).
Proof.
  intros added deleted. subst added deleted. split.
  - intros Hnone. unfold add_rpc_authorizations, delete_rpc_authorizations.
    destruct (decide (privileged identity)); [done|]. by rewrite Hnone.
  - intros index entry Hfind file Hfile.
    assert (auth_file self
            = AuthFile.update_by_index
                (AuthEntry.set_rpc_method_authorizations entry
                   (AuthEntry.rpc_method_authorizations entry))
                index (auth_file self)) as Hsame.
    { rewrite set_rpc_method_authorizations_same.
      apply list_find_Some in Hfind as (Hlook & _ & _).
      unfold AuthFile.update_by_index. unfold AuthFile.read_allow_entries in Hlook.
      rewrite list_insert_id by done. by destruct (auth_file self). }
    assert (∃ auths' : gmap string (list string),
      (∀ m, m ≠ method →
            auths' !! m = AuthEntry.rpc_method_authorizations entry !! m)
      ∧ file = AuthFile.update_by_index
                 (AuthEntry.set_rpc_method_authorizations entry auths')
                 index (auth_file self)) as (auths' & Hother & Hupd).
    { destruct Hfile as [-> | ->].
      - unfold add_rpc_authorizations.
        destruct (decide (privileged identity)); simpl; [by eauto|].
        rewrite Hfind. simpl.
        destruct (add_authorizations_insert
                    (AuthEntry.rpc_method_authorizations entry) method capabilities)
          as [stored ->].
        eexists. split; [|done]. intros m Hm. by rewrite lookup_insert_ne.
      - unfold delete_rpc_authorizations.
        destruct (decide (privileged identity)); simpl; [by eauto|].
        rewrite Hfind.
        destruct (AuthEntry.rpc_method_authorizations entry !! method)
          as [current|]; simpl; [|by eauto].
        destruct (decide (current = [])); simpl; [by eauto|].
        pose proof (scan_denied_spec current capabilities method self)
          as (_ & Hscan & _).
        destruct (scan_denied current capabilities method self)
          as [[|] scanned]; simpl in *.
        + rewrite Hscan. eexists. split; [|done].
          intros m Hm. by rewrite lookup_insert_ne.
        + rewrite Hscan. by eauto. }
    by eapply mutation_store.
Qed.

End MutationFurther.

(** * The statements on concrete inputs *)

#[local] Existing Instance Sample.platform.
#[local] Existing Instance Sample.rejecting.
#[local] Existing Instance Sample.insertion.

(** The literal entry is answered with, not the broader entry that
    precedes it in store order; an entry without a user id of its own is
    answered with the synthesized one. *)
Lemma authenticate_first_match_witness :
  authenticate
    (read_auth_file (Sample.service [Sample.broad; Sample.exact; Sample.unnamed] [])).1
    "vip" "10.0.0.7" "CURVE" ["key-1"]
  = Returned (Some "alice")
  ∧ authenticate
      (read_auth_file (Sample.service [Sample.broad; Sample.exact; Sample.unnamed] [])).1
      "vip" "10.0.0.8" "CURVE" ["key-5"]
    = Returned (Some "vip,10.0.0.8,CURVE,key-5").
Proof.
  assert (∀ entry : AuthEntry.t,
            entry ∈ [Sample.broad; Sample.exact; Sample.unnamed] →
            entry = Sample.broad ∨ entry = Sample.exact ∨ entry = Sample.unnamed)
    as Hstore.
  { intros entry Hin. repeat (apply elem_of_cons in Hin as [->|Hin]; [tauto|]).
    by apply elem_of_nil in Hin. }
  split.
  - apply (proj2 (proj2 (proj2 (proj2 authenticate_first_match)))
             (Sample.service [Sample.broad; Sample.exact; Sample.unnamed] [])
             Sample.exact "vip" "10.0.0.7" "CURVE" ["key-1"]).
    + right. left.
    + reflexivity.
    + reflexivity.
    + reflexivity.
    + intros e [->|[->| ->]]%Hstore _ Hlit Hmatch;
        first [reflexivity | vm_compute in Hlit; discriminate Hlit
               | vm_compute in Hmatch; discriminate Hmatch].
  - refine (eq_trans
              (proj2 (proj2 (proj2 (proj2 authenticate_first_match)))
                 (Sample.service [Sample.broad; Sample.exact; Sample.unnamed] [])
                 Sample.unnamed "vip" "10.0.0.8" "CURVE" ["key-5"] _ _ _ _ _) _).
    + right. right. left.
    + reflexivity.
    + reflexivity.
    + reflexivity.
    + intros e [->|[->| ->]]%Hstore _ Hlit Hmatch;
        first [reflexivity | vm_compute in Hlit; discriminate Hlit
               | vm_compute in Hmatch; discriminate Hmatch].
    + reflexivity.
Defined.

(** Two entries of the store have the fields of the attempt, and the
    broader entry stands after them in store order: in whatever order the
    snapshot holds the entries, one of the two is not the one answered
    with; after [read_auth_file] the first of them in store order is. *)
Lemma exact_entry_not_the_one_matched :
  exactly Sample.exact "vip" "10.0.0.7" "CURVE" "key-1"
  ∧ exactly Sample.twin "vip" "10.0.0.7" "CURVE" "key-1"
  ∧ Forall (λ entries,
              ¬ exact_entry_matched (set_auth_entries entries Sample.empty)
                  "vip" "10.0.0.7" "CURVE" "key-1")
      (permutations [Sample.twin; Sample.exact; Sample.broad])
  ∧ authenticate
      (read_auth_file (Sample.service [Sample.twin; Sample.exact; Sample.broad] [])).1
      "vip" "10.0.0.7" "CURVE" ["key-1"]
    = Returned (Some "alice-2")
  ∧ ¬ exact_entry_matched
        (read_auth_file (Sample.service [Sample.twin; Sample.exact; Sample.broad] [])).1
        "vip" "10.0.0.7" "CURVE" "key-1".
Proof.
  assert (exactly Sample.exact "vip" "10.0.0.7" "CURVE" "key-1") as Hexact by done.
  assert (exactly Sample.twin "vip" "10.0.0.7" "CURVE" "key-1") as Htwin by done.
  split; [done|]. split; [done|]. split; [|split; [reflexivity|]].
  - apply Forall_forall. intros entries Hperm%permutations_Permutation Hall.
    assert (Sample.exact ∈ entries) as Hin1 by (rewrite <-Hperm; set_solver).
    assert (Sample.twin ∈ entries) as Hin2 by (rewrite <-Hperm; set_solver).
    pose proof (Hall Sample.exact Hin1 Hexact) as H1.
    pose proof (Hall Sample.twin Hin2 Htwin) as H2.
    rewrite H1 in H2. discriminate H2.
  - intros Hall. specialize (Hall Sample.exact).
    assert (authenticate
              (read_auth_file
                 (Sample.service [Sample.twin; Sample.exact; Sample.broad] [])).1
              "vip" "10.0.0.7" "CURVE" ["key-1"]
            = Returned (Some "alice")) as Hanswer.
    { apply Hall; [|done]. vm_compute. right. left. }
    vm_compute in Hanswer. discriminate Hanswer.
Qed.

(** [int] on some digit strings: white space and a sign around the
    digits and single underscores between them convert; a doubled
    underscore, white space after the sign and a file separator (which
    [str.strip] removes and [int] does not) raise. *)
Lemma int_on_samples :
  Py.int " +1_000 " = Some 1000%Z
  ∧ Py.int "-0012" = Some (-12)%Z
  ∧ Py.int "1__0" = None
  ∧ Py.int "+ 1" = None
  ∧ Py.int (String (ascii_of_nat 28) "1000") = None
  ∧ authenticate Sample.empty "" ("localhost:" +:+ String (ascii_of_nat 28) "1000")
      "NULL" []
    = Raised ValueError.
Proof. by vm_compute. Qed.

(** Mechanism "CURVE" with the coordinator's own uid in the address, and
    mechanism "NULL" with a component that is not an integer. *)
Lemma fallback_not_as_stated :
  ¬ follows_stated_fallback Sample.empty "" "localhost:1000" "CURVE" ["key-1"]
  ∧ ¬ follows_stated_fallback Sample.empty "" "localhost:abc" "NULL" [].
Proof.
  split; intros Hstated; specialize (Hstated eq_refl);
    vm_compute in Hstated; discriminate.
Qed.

Lemma authenticate_fallback_witness :
  authenticate Sample.empty "" "localhost:9999:5:6" "NULL" [] = Returned None.
Proof.
  refine (eq_trans
            (authenticate_fallback Sample.empty "" "localhost:9999:5:6" "NULL" [] _ _)
            _).
  - reflexivity.
  - intros _ _. split.
    + intros p2 Hp2. vm_compute in Hp2. injection Hp2 as <-. vm_compute. eauto.
    + intros _ p0 Hp0. vm_compute in Hp0. injection Hp0 as <-. vm_compute. eauto.
  - reflexivity.
Defined.

Lemma update_auth_pending_dedup_witness :
  let once := _update_auth_pending Sample.empty "vip" "10.0.0.7" "CURVE" "key-1" "alice" in
  let twice := _update_auth_pending once "vip" "10.0.0.7" "CURVE" "key-1" "alice" in
  let thrice := _update_auth_pending twice "vip" "10.0.0.7" "CURVE" "key-1" "alice" in
  _auth_denied thrice = []
  ∧ _auth_pending thrice
    = [Cred.mk (Literal "vip") (Literal "10.0.0.7") "CURVE" (Literal "key-1") "alice" 3].
Proof.
  apply (proj2 update_auth_pending_dedup Sample.empty); reflexivity.
Defined.

(** Without a reload between them, Delete does not see what Approve
    persisted. *)
Lemma approve_then_delete_keeps_entry :
  ¬ approve_then_delete_clears (Sample.service [] [Sample.attempt]) "alice".
Proof.
  intros (_ & _ & _ & Hgone).
  apply (Hgone (new_entry Sample.attempt)).
  - vm_compute. left.
  - vm_compute. apply not_elem_of_nil.
  - vm_compute. left.
Qed.

Lemma approve_reload_delete_reload_witness :
  let self := Sample.service [] [Sample.attempt] in
  let approved := approve_authorization_failure self "alice" in
  let reloaded := (read_auth_file approved).1 in
  let deleted := delete_authorization_failure reloaded "alice" in
  let final := (read_auth_file deleted).1 in
  (is_Some (AuthFile.add (new_entry Sample.attempt) true (auth_file self)) →
   new_entry Sample.attempt ∈ AuthFile.allow (auth_file approved))
  ∧ (new_entry Sample.attempt ∉ AuthFile.allow (auth_file deleted))
  ∧ ("alice" ∉ user_ids (_auth_pending final))
  ∧ ("alice" ∉ user_ids (_auth_approved final))
  ∧ ("alice" ∉ user_ids (_auth_denied final)).
Proof.
  apply (approve_reload_delete_reload
           (Sample.service [] [Sample.attempt]) "alice" [] Sample.attempt []).
  - reflexivity.
  - reflexivity.
  - apply not_elem_of_nil.
  - apply not_elem_of_nil.
  - discriminate.
Defined.

Lemma rejected_bulk_push_falls_back_witness :
  update_entry Sample.sensor2
  = [Call (set_multiple_rpc_authorizations "sensor2"
             (required_methods (AuthEntry.rpc_method_authorizations Sample.sensor2)));
     Call (set_rpc_authorizations "sensor2" "set_point" ["admin"]);
     Call (set_rpc_authorizations "sensor2" "get_point" ["operator"])]
  ∧ (∀ r, Logged r ∉ update_entry Sample.sensor2)
  ∧ update_rpc_authorizations [Sample.sensor2; Sample.sensor1]
    = update_entry Sample.sensor2 ++ update_rpc_authorizations [Sample.sensor1].
Proof.
  assert (updatable Sample.sensor2) as Hup.
  { vm_compute. split; [|discriminate].
    intros Hin. repeat (apply elem_of_cons in Hin as [Hin|Hin]; [discriminate|]).
    by apply elem_of_nil in Hin. }
  assert (required_methods (AuthEntry.rpc_method_authorizations Sample.sensor2) ≠ ∅)
    as Hne.
  { intros Hempty. apply (f_equal (.!! "get_point")) in Hempty.
    vm_compute in Hempty. discriminate Hempty. }
  assert (rpc_call
            (set_multiple_rpc_authorizations "sensor2"
               (required_methods (AuthEntry.rpc_method_authorizations Sample.sensor2)))
          = RemoteError) as Hrejected by reflexivity.
  destruct (rejected_bulk_push_falls_back Sample.sensor2 "sensor2" eq_refl Hup Hne
              Hrejected) as (Hrun & _ & _ & _ & _ & _ & Hlog & Hrest).
  split; [|split; [exact Hlog|exact (Hrest [Sample.sensor1])]].
  rewrite Hrun. vm_compute. reflexivity.
Defined.

(** The peer rejects the call for a method of the batch, and the run logs
    nothing for it. *)
Lemma rejected_method_not_logged :
  rpc_call (set_rpc_authorizations "sensor2" "get_point" ["operator"]) = RemoteError
  ∧ update_rpc_authorizations [Sample.sensor2]
    = [Call (set_multiple_rpc_authorizations "sensor2"
               (required_methods (AuthEntry.rpc_method_authorizations Sample.sensor2)));
       Call (set_rpc_authorizations "sensor2" "set_point" ["admin"]);
       Call (set_rpc_authorizations "sensor2" "get_point" ["operator"])]
  ∧ ¬ logs_method_failures Sample.sensor2 "sensor2".
Proof.
  split; [reflexivity|]. split; [vm_compute; reflexivity|].
  intros Hlogs.
  destruct (Hlogs "get_point" ["operator"]) as [Hrejected _]; [vm_compute; reflexivity|].
  specialize (Hrejected eq_refl). vm_compute in Hrejected.
  repeat (apply elem_of_cons in Hrejected as [Hrejected|Hrejected];
          [discriminate Hrejected|]).
  by apply elem_of_nil in Hrejected.
Qed.

Lemma bulk_push_required_methods_witness :
  ∃ pushed,
    bulk_pushes (update_entry Sample.sensor1) = [("sensor1", pushed)]
    ∧ ∀ method capabilities,
        pushed !! method = Some capabilities
        ↔ AuthEntry.rpc_method_authorizations Sample.sensor1 !! method
          = Some capabilities
          ∧ capabilities ≠ [].
Proof.
  assert (updatable Sample.sensor1) as Hup.
  { vm_compute. split; [|discriminate].
    intros Hin. repeat (apply elem_of_cons in Hin as [Hin|Hin]; [discriminate|]).
    by apply elem_of_nil in Hin. }
  apply (proj1 (proj2 bulk_push_required_methods Sample.sensor1 "sensor1" eq_refl Hup)).
  exists "get_point", ["operator"]. split; [reflexivity|discriminate].
Defined.

(** The call on the control connection hands back what a call that
    performs the change hands back: nothing. *)
Lemma privileged_call_returns_no_error :
  privileged "control.connection"
  ∧ ¬ returns_error
        (add_rpc_authorizations (Sample.service [Sample.sensor1] [])
           "control.connection" "get_point" ["operator"])
  ∧ ¬ returns_error
        (delete_rpc_authorizations (Sample.service [Sample.sensor1] [])
           "control.connection" "get_point" ["operator"]).
Proof.
  split; [by right|]. split; intros [reply Hreply]; vm_compute in Hreply; discriminate.
Qed.

Lemma privileged_identity_not_modified_witness :
  let self := Sample.service [Sample.sensor1] [] in
  let rejected := log_error (cannot_be_modified "control.connection") self in
  add_rpc_authorizations self "control.connection" "get_point" ["operator"]
  = (None, rejected)
  ∧ delete_rpc_authorizations self "control.connection" "get_point" ["operator"]
    = (None, rejected)
  ∧ auth_file rejected = auth_file self
  ∧ _log rejected = _log self ++ [LogError (cannot_be_modified "control.connection")].
Proof.
  apply (privileged_identity_not_modified (Sample.service [Sample.sensor1] [])
           "control.connection" "get_point" ["operator"]).
  right. reflexivity.
Defined.

Lemma delete_rpc_authorizations_sentinel_witness :
  stored_capabilities
    (delete_rpc_authorizations (Sample.service [Sample.sensor1] [])
       "sensor1" "get_point" ["operator"]).2
    "sensor1" "get_point"
  = Some [""].
Proof.
  assert (¬ privileged "sensor1") as Hopen.
  { intros [Hin| Heq]; [|discriminate].
    vm_compute in Hin.
    repeat (apply elem_of_cons in Hin as [Hin|Hin]; [discriminate|]).
    by apply elem_of_nil in Hin. }
  assert (["operator"] ≠ @nil string) as Hne by discriminate.
  apply (proj1 (delete_rpc_authorizations_sentinel
                  (Sample.service [Sample.sensor1] []) "sensor1" "get_point"
                  ["operator"] 0 Sample.sensor1 Hopen eq_refl)
           ["operator"] eq_refl Hne).
  intros c Hc. exact Hc.
Defined.

(** A capability given twice is stored twice. *)
Lemma add_rpc_authorizations_duplicates :
  stored_capabilities
    (add_rpc_authorizations (Sample.service [Sample.sensor1] [])
       "sensor1" "get_point" ["admin"; "admin"]).2
    "sensor1" "get_point"
  = Some ["operator"; "admin"; "admin"]
  ∧ ¬ NoDup ["operator"; "admin"; "admin"].
Proof.
  split; [reflexivity|].
  intros Hnodup. apply NoDup_cons in Hnodup as [_ Hnodup].
  apply NoDup_cons in Hnodup as [Hout _]. apply Hout. left.
Qed.

Lemma add_rpc_authorizations_idempotent_witness :
  stored_capabilities
    (add_rpc_authorizations (Sample.service [Sample.sensor1] [])
       "sensor1" "get_point" ["admin"; "operator"]).2
    "sensor1" "get_point"
  = Some ["operator"; "admin"]
  ∧ (NoDup ["admin"; "operator"] →
     (∀ current,
        AuthEntry.rpc_method_authorizations Sample.sensor1 !! "get_point"
        = Some current → NoDup current) →
     NoDup ["operator"; "admin"]).
Proof.
  apply (proj2 add_rpc_authorizations_idempotent
           (Sample.service [Sample.sensor1] []) "sensor1" "get_point"
           ["admin"; "operator"] 0 Sample.sensor1).
  - intros [Hin| Heq]; [|discriminate].
    vm_compute in Hin.
    repeat (apply elem_of_cons in Hin as [Hin|Hin]; [discriminate|]).
    by apply elem_of_nil in Hin.
  - reflexivity.
Defined.

Lemma authenticate_raises_witness :
  authenticate Sample.empty "" "localhost:abc" "NULL" [] = Raised ValueError
  ∧ authenticate Sample.empty "" "localhost:1000:1000:x" "NULL" [] = Raised ValueError.
Proof.
  split.
  - apply (proj2 (authenticate_raises Sample.empty "" "abc" [] eq_refl) "abc");
      reflexivity.
  - apply (proj1 (authenticate_raises Sample.empty "" "1000:1000:x" [] eq_refl) "x");
      reflexivity.
Defined.

(** * The further statements on concrete inputs *)

#[local] Existing Instance Sample2.codec.
#[local] Existing Instance Sample2.certs.
#[local] Existing Instance Sample2.bus.

(** Closes a goal [x ∉ l] on a concrete list of strings. *)
Ltac not_in_strings :=
  let Hin := fresh "Hin" in
  intros Hin; vm_compute in Hin;
  repeat (apply elem_of_cons in Hin as [Hin|Hin]; [discriminate Hin|]);
  by apply elem_of_nil in Hin.

Lemma get_authorizations_of_entry_witness :
  get_capabilities Sample2.queried "operator-id" = Returned ["edit"]
  ∧ get_groups Sample2.queried "operator-id" = Returned ["staff"]
  ∧ get_roles Sample2.queried "operator-id" = Returned ["admin"]
  ∧ get_user_to_capabilities Sample2.queried !! "operator-id" = Some ["edit"].
Proof.
  apply (get_authorizations_of_entry Sample2.queried Sample2.operator).
  - apply NoDup_cons. split; [not_in_strings|].
    apply NoDup_cons. split; [not_in_strings|apply NoDup_nil_2].
  - left.
  - reflexivity.
Defined.

Lemma update_id_rpc_authorizations_store_witness :
  let result :=
    update_id_rpc_authorizations (Sample.service [Sample.sensor1] []) "sensor1"
      Sample2.report in
  (∀ method,
     is_Some (Sample2.report !! method) →
     Some (stored_capabilities result.2 "sensor1" method) = (.!! method) <$> result.1)
  ∧ (∀ method,
       Sample2.report !! method = None →
       stored_capabilities result.2 "sensor1" method
       = AuthEntry.rpc_method_authorizations Sample.sensor1 !! method)
  ∧ (∃ entry',
       auth_file result.2
       = AuthFile.update_by_index entry' 0 (auth_file (Sample.service [Sample.sensor1] []))
       ∧ AuthFile.allow (auth_file result.2) !! 0 = Some entry'
       ∧ AuthEntry.set_rpc_method_authorizations entry'
           (AuthEntry.rpc_method_authorizations Sample.sensor1) = Sample.sensor1
       ∧ result.2 = set_auth_file (auth_file result.2) (Sample.service [Sample.sensor1] []))
  ∧ (AuthFile.deny (auth_file result.2)
     = AuthFile.deny (auth_file (Sample.service [Sample.sensor1] []))
     ∧ length (AuthFile.allow (auth_file result.2))
       = length (AuthFile.allow (auth_file (Sample.service [Sample.sensor1] [])))
     ∧ ∀ j, j ≠ 0 →
            AuthFile.allow (auth_file result.2) !! j
            = AuthFile.allow (auth_file (Sample.service [Sample.sensor1] [])) !! j)
  ∧ ((∀ method reported,
        Sample2.report !! method = Some reported →
        ∃ c l, AuthEntry.rpc_method_authorizations Sample.sensor1 !! method
               = Some (c :: l)) →
     result.2 = Sample.service [Sample.sensor1] []).
Proof.
  apply (update_id_rpc_authorizations_store (Sample.service [Sample.sensor1] [])
           "sensor1" Sample2.report 0 Sample.sensor1).
  reflexivity.
Defined.

Lemma update_id_rpc_authorizations_settles_witness :
  let updated : gmap string (list string) :=
    <["get_point" := ["operator"]]> (<["set_point" := ["admin"]]> ∅) in
  let reported :=
    (update_id_rpc_authorizations (Sample.service [Sample.sensor1] []) "sensor1"
       Sample2.report).2 in
  (update_id_rpc_authorizations reported "sensor1" updated).1 = Some updated
  ∧ auth_file (update_id_rpc_authorizations reported "sensor1" updated).2
    = auth_file reported.
Proof.
  apply (update_id_rpc_authorizations_settles (Sample.service [Sample.sensor1] [])
           "sensor1" Sample2.report).
  vm_compute. reflexivity.
Defined.

Lemma get_updated_entries_unchanged_witness :
  _get_updated_entries [Sample.sensor1; Sample2.operator]
    [Sample.sensor1; Sample2.operator] = [].
Proof.
  apply get_updated_entries_unchanged.
  intros e e' He He' Hid. apply list_elem_of_In in He, He'. simpl in He, He'.
  destruct He as [<-|[<-|[]]], He' as [<-|[<-|[]]];
    first [reflexivity | vm_compute in Hid; discriminate Hid].
Defined.

Lemma operator_actions_unknown_user_witness :
  let self := Sample.service [Sample.sensor1] [Sample.attempt] in
  (auth_file (approve_authorization_failure self "bob") = auth_file self
   ∧ auth_file (deny_authorization_failure self "bob") = auth_file self
   ∧ auth_file (delete_authorization_failure self "bob") = auth_file self)
  ∧ (_auth_pending (approve_authorization_failure self "bob") = _auth_pending self
     ∧ _auth_pending (deny_authorization_failure self "bob") = _auth_pending self
     ∧ _auth_pending (delete_authorization_failure self "bob") = _auth_pending self)
  ∧ (_certs self = false →
     approve_authorization_failure self "bob" = self
     ∧ deny_authorization_failure self "bob" = self
     ∧ delete_authorization_failure self "bob" = self).
Proof.
  apply (operator_actions_unknown_user
           (Sample.service [Sample.sensor1] [Sample.attempt]) "bob").
  - not_in_strings.
  - not_in_strings.
  - not_in_strings.
Defined.

Lemma delete_removes_listed_credentials_witness :
  let self :=
    (read_auth_file
       (approve_authorization_failure (Sample.service [Sample.sensor1] [Sample.attempt])
          "alice")).1 in
  let deleted := delete_authorization_failure self "alice" in
  (∀ entry,
     entry ∈ AuthFile.allow (auth_file deleted)
     ↔ entry ∈ AuthFile.allow (auth_file self)
       ∧ ∀ record, record ∈ _auth_approved self → "alice" = Cred.user_id record →
                   AuthEntry.credentials entry ≠ Cred.credentials record)
  ∧ (∀ entry,
       entry ∈ AuthFile.deny (auth_file deleted)
       ↔ entry ∈ AuthFile.deny (auth_file self)
         ∧ ∀ record, record ∈ _auth_denied self → "alice" = Cred.user_id record →
                     AuthEntry.credentials entry ≠ Cred.credentials record).
Proof.
  apply (delete_removes_listed_credentials
           (read_auth_file
              (approve_authorization_failure
                 (Sample.service [Sample.sensor1] [Sample.attempt]) "alice")).1
           "alice").
  not_in_strings.
Defined.

Lemma approved_attempt_authenticates_witness :
  ∃ user,
    authenticate
      (read_auth_file
         (approve_authorization_failure (Sample.service [] [Sample.attempt]) "alice")).1
      "vip" "10.0.0.7" "CURVE" ["key-1"]
    = Returned (Some user).
Proof.
  apply (approved_attempt_authenticates (Sample.service [] [Sample.attempt])
           "vip" "10.0.0.7" "CURVE" "key-1" [] "alice" 1 [] []).
  - reflexivity.
  - not_in_strings.
  - vm_compute. eauto.
Defined.

Lemma denied_attempt_not_pending_again_witness :
  let denied := deny_authorization_failure (Sample.service [] [Sample.attempt]) "alice" in
  let reloaded := (read_auth_file denied).1 in
  let again := _update_auth_pending reloaded "vip" "10.0.0.7" "CURVE" "key-1" "alice" in
  recorded (_auth_denied reloaded) "vip" "10.0.0.7" "CURVE" "key-1"
  ∧ _auth_pending again = _auth_pending reloaded
  ∧ bumped (_auth_denied reloaded) (_auth_denied again)
      "vip" "10.0.0.7" "CURVE" "key-1".
Proof.
  apply (denied_attempt_not_pending_again (Sample.service [] [Sample.attempt])
           "vip" "10.0.0.7" "CURVE" "key-1" "alice" 1 [] []).
  - reflexivity.
  - not_in_strings.
  - vm_compute. eauto.
Defined.

Lemma authenticate_without_conversion_witness :
  authenticate Sample.empty "" "localhost:abc" "CURVE" [] = Returned None.
Proof.
  refine (eq_trans
            (authenticate_without_conversion Sample.empty "" "localhost:abc" "CURVE" [] _)
            _).
  - left. discriminate.
  - reflexivity.
Defined.

Lemma authenticate_allow_any_witness :
  authenticate Sample2.open_service "vip" "10.0.0.7" "CURVE" ["key-1"] ≠ Returned None.
Proof.
  apply (authenticate_allow_any Sample2.open_service "vip" "10.0.0.7" "CURVE" ["key-1"]).
  reflexivity.
Defined.

Lemma authenticated_user_authorizations_witness :
  authenticate Sample2.queried "vip" "10.0.0.9" "CURVE" ["key-3"]
  = Returned (Some "operator-id")
  ∧ get_capabilities Sample2.queried "operator-id" = Returned ["edit"]
  ∧ get_groups Sample2.queried "operator-id" = Returned ["staff"]
  ∧ get_roles Sample2.queried "operator-id" = Returned ["admin"].
Proof.
  apply (authenticated_user_authorizations Sample2.queried
           "vip" "10.0.0.9" "CURVE" ["key-3"] Sample2.operator).
  - apply NoDup_cons. split; [not_in_strings|].
    apply NoDup_cons. split; [not_in_strings|apply NoDup_nil_2].
  - reflexivity.
  - reflexivity.
  - reflexivity.
Defined.

Lemma reconciliation_calls_updatable_only_witness :
  ∃ entry,
    entry ∈ [Sample.sensor1] ∧ updatable entry
    ∧ AuthEntry.identity entry = Some "sensor1"
    ∧ ("sensor1" ∉ PROCESS_IDENTITIES) ∧ ("sensor1" ≠ CONTROL_CONNECTION).
Proof.
  apply (reconciliation_calls_updatable_only [Sample.sensor1]
           (set_multiple_rpc_authorizations "sensor1"
              (required_methods (AuthEntry.rpc_method_authorizations Sample.sensor1)))).
  vm_compute. left.
Defined.

Lemma bulk_push_not_rejected_witness :
  @update_entry Sample.platform Sample2.timing_out Sample.insertion Sample.sensor1
  = [Call (set_multiple_rpc_authorizations "sensor1"
             (required_methods (AuthEntry.rpc_method_authorizations Sample.sensor1)));
     Logged (timed_out "sensor1")].
Proof.
  assert (@updatable Sample.platform Sample.sensor1) as Hup
    by (split; [not_in_strings|discriminate]).
  assert (required_methods (AuthEntry.rpc_method_authorizations Sample.sensor1) ≠ ∅)
    as Hne.
  { intros Hempty. apply (f_equal (.!! "get_point")) in Hempty.
    vm_compute in Hempty. discriminate Hempty. }
  exact (proj2 (@bulk_push_not_rejected Sample.platform Sample2.timing_out Sample.insertion
                  Sample.sensor1 "sensor1" eq_refl Hup Hne) eq_refl).
Defined.

Lemma add_then_delete_restores_witness :
  (delete_rpc_authorizations
     (add_rpc_authorizations (Sample.service [Sample.sensor1] [])
        "sensor1" "get_point" ["admin"]).2
     "sensor1" "get_point" ["admin"]).2
  = Sample.service [Sample.sensor1] [].
Proof.
  apply (add_then_delete_restores (Sample.service [Sample.sensor1] [])
           "sensor1" "get_point" ["admin"] 0 Sample.sensor1 ["operator"]).
  - intros [Hin|Heq]; [revert Hin; not_in_strings|discriminate Heq].
  - reflexivity.
  - reflexivity.
  - discriminate.
  - discriminate.
  - intros c Hc. apply list_elem_of_singleton in Hc as ->. not_in_strings.
Defined.

Lemma get_authorizations_unknown_witness :
  get_authorizations Sample2.queried "vip,10.0.0.1,CURVE,key-9" = None
  ∧ get_capabilities Sample2.queried "vip,10.0.0.1,CURVE,key-9" = Returned []
  ∧ get_groups Sample2.queried "vip,10.0.0.1,CURVE,key-9" = Returned []
  ∧ get_roles Sample2.queried "vip,10.0.0.1,CURVE,key-9" = Returned [].
Proof.
  apply (proj2 (proj2 (proj2
           (get_authorizations_unknown Sample2.queried "vip,10.0.0.1,CURVE,key-9")))).
  repeat constructor; try discriminate;
    intros domain address mechanism credentials Hparts;
    vm_compute in Hparts; injection Hparts as <- <- <- <-; reflexivity.
Defined.

Lemma update_id_rpc_authorizations_returns_witness :
  ∃ updated_rpc_methods,
    (update_id_rpc_authorizations (Sample.service [Sample.sensor1] []) "sensor1"
       Sample2.report).1
    = Some updated_rpc_methods
    ∧ ∀ method,
        updated_rpc_methods !! method
        = merged (AuthEntry.rpc_method_authorizations Sample.sensor1 !! method)
          <$> Sample2.report !! method.
Proof.
  apply (proj2 (update_id_rpc_authorizations_returns
                  (Sample.service [Sample.sensor1] []) "sensor1" Sample2.report)
           0 Sample.sensor1).
  reflexivity.
Defined.

Lemma pending_queue_invariants_witness :
  (∀ domain address mechanism credential user_id,
     NoDup (map tuple_of
              (_auth_pending
                 (_update_auth_pending (Sample.service [] [Sample.attempt])
                    domain address mechanism credential user_id))))
  ∧ (∀ user_id,
       NoDup (map tuple_of
                (_auth_pending
                   (approve_authorization_failure (Sample.service [] [Sample.attempt])
                      user_id)))
       ∧ NoDup (map tuple_of
                  (_auth_pending
                     (deny_authorization_failure (Sample.service [] [Sample.attempt])
                        user_id)))
       ∧ NoDup (map tuple_of
                  (_auth_pending
                     (delete_authorization_failure (Sample.service [] [Sample.attempt])
                        user_id)))).
Proof.
  apply (proj1 (pending_queue_invariants (Sample.service [] [Sample.attempt]))).
  apply NoDup_singleton.
Defined.

Lemma send_update_peers_witness :
  (∃ i, (1 ≤ i ≤ 3)%nat ∧ attempt i ≠ []
        ∧ (∀ j, (1 ≤ j < i)%nat → attempt j = [])
        ∧ ["sensor1"]
          = filter (λ peer, peer ≠ core_identity ∧ peer ≠ CONTROL_CONNECTION)
              (attempt i))
  ∧ ∀ peer user_to_caps,
      (peer, user_to_caps) ∈ [("sensor1", get_user_to_capabilities Sample2.queried)] →
      peer ≠ core_identity ∧ peer ≠ CONTROL_CONNECTION
      ∧ user_to_caps = get_user_to_capabilities Sample2.queried.
Proof.
  apply (proj2 (send_update_peers Sample2.queried)
           [("sensor1", get_user_to_capabilities Sample2.queried)]).
  reflexivity.
Defined.

Lemma mutation_calls_are_local_witness :
  let self := Sample.service [Sample.sensor1] [] in
  let file := auth_file (add_rpc_authorizations self "sensor1" "get_point" ["admin"]).2 in
  AuthFile.deny file = AuthFile.deny (auth_file self)
  ∧ length (AuthFile.allow file) = length (AuthFile.allow (auth_file self))
  ∧ (∀ j, j ≠ 0 → AuthFile.allow file !! j = AuthFile.allow (auth_file self) !! j)
  ∧ ∃ entry',
      AuthFile.allow file !! 0 = Some entry'
      ∧ AuthEntry.set_rpc_method_authorizations entry'
          (AuthEntry.rpc_method_authorizations Sample.sensor1) = Sample.sensor1
      ∧ ∀ m, m ≠ "get_point" →
             AuthEntry.rpc_method_authorizations entry' !! m
             = AuthEntry.rpc_method_authorizations Sample.sensor1 !! m.
Proof.
  apply (proj2 (mutation_calls_are_local (Sample.service [Sample.sensor1] [])
                  "sensor1" "get_point" ["admin"])
           0 Sample.sensor1 eq_refl).
  left. reflexivity.
Defined.
